(** * Clean Converter: a shallow embedding of [src/modules/App.tsx]

    The development follows the source file top to bottom: the JavaScript
    string primitives the code relies on, the queue item model, the type
    classifier ([isHeic] ... [inferTargets]), the codec adapters
    ([convertImage], [convertAudio], [convertVideoToWebM]), and the three
    callbacks of the [App] component ([addFiles], [convertAll],
    [downloadZip]).

    Modelling conventions.
    - JavaScript strings are [string]s; the model is exact for names made of
      ASCII characters ([toLowerCase] only folds [A-Z]).
    - JavaScript numbers that hold option values and counters are integers
      ([Z], [nat]). The arithmetic of doubles is not fixed: the quotients the
      code computes ([done/work.length*100], [q/100]) use the operations of
      the environment ([Number_div], [Number_mul], [Math_round]), and the
      statements that depend on them assume [NumberLaws], a few facts that
      hold of IEEE doubles and of exact rationals alike.
    - Objects are mutable and shared: the array [next] of [convertAll] is a
      store of item objects addressed by position, [work] is a list of
      references (positions) into that store.
    - Everything outside the file (FFmpeg, heic2any, the canvas, pdf-lib,
      file reading, the clock and [Math.random]) is an oracle of the
      [Browser] class. *)

From Stdlib Require Import Ascii QArith Qround.
From stdpp Require Import gmap strings pretty list.

(** ** JavaScript primitives *)

Module JS.

(** A thrown value: [message] is [err?.message] when it is a string,
    [toString] is [String(err)]. *)
Record Exn := { message : option string; toString : string }.

(** [new Error(msg)] *)
Definition Error (msg : string) : Exn :=
  {| message := Some msg;
     toString := if String.eqb msg EmptyString then "Error" else "Error: " +:+ msg |}.

(** The result of evaluating an expression that may throw. *)
Inductive Completion (A : Type) : Type :=
| Normal (a : A)
| Throw (e : Exn).
Global Arguments Normal {A} a.
Global Arguments Throw {A} e.

Definition toLowerChar (c : ascii) : ascii :=
  let n := nat_of_ascii c in
  if (65 <=? n)%nat && (n <=? 90)%nat then ascii_of_nat (n + 32) else c.

Fixpoint toLowerCase (s : string) : string :=
  match s with
  | EmptyString => EmptyString
  | String c s' => String (toLowerChar c) (toLowerCase s')
  end.

(** [s.startsWith(p)] *)
Definition startsWith (s p : string) : bool := String.prefix p s.

(** [s.endsWith(t)]: [s] is [t], or the tail of [s] ends with [t]. *)
Fixpoint endsWith (s t : string) : bool :=
  if String.eqb s t then true
  else match s with
       | EmptyString => false
       | String _ s' => endsWith s' t
       end.

(** [s.lastIndexOf(c)] for a one-character search string; [-1] when the
    character does not occur. *)
Fixpoint lastIndexOf (s : string) (c : ascii) : Z :=
  match s with
  | EmptyString => (-1)%Z
  | String a s' =>
      let r := lastIndexOf s' c in
      if (0 <=? r)%Z then (r + 1)%Z
      else if Ascii.eqb a c then 0%Z else (-1)%Z
  end.

(** [s.slice(b, e)] for [0 <= b <= e], and [s.slice(b)]. *)
Definition slice (s : string) (b e : nat) : string :=
  String.substring b (e - b) s.
Definition sliceFrom (s : string) (b : nat) : string :=
  String.substring b (String.length s - b) s.

(** [/\.(e1|e2|...)$/i.test(s)] *)
Definition testExt (alts : list string) (s : string) : bool :=
  existsb (fun e => endsWith (toLowerCase s) ("." +:+ e)) alts.

(** A decimal digit. *)
Definition isDigit (c : ascii) : bool :=
  (48 <=? nat_of_ascii c)%nat && (nat_of_ascii c <=? 57)%nat.

(** [String(n)] for an integer-valued number. *)
Definition String_ (n : Z) : string := pretty n.

(** [err?.message || String(err)] *)
Definition messageOf (e : Exn) : string :=
  match message e with
  | Some m => if String.eqb m EmptyString then toString e else m
  | None => toString e
  end.

End JS.

Import JS.

(** ** Data model (lines 8-23) *)

Module ItemStatus.
Inductive t := pending | converting | done | error.
Definition eqb (a b : t) : bool :=
  match a, b with
  | pending, pending | converting, converting | done, done | error, error => true
  | _, _ => false
  end.
End ItemStatus.
Abbreviation ItemStatus := ItemStatus.t.

#[global] Instance ItemStatus_eq_dec : EqDecision ItemStatus.
Proof. solve_decision. Defined.

Inductive AudioMode := CBR | VBR.

Record AudioOpts := { mode : AudioMode; kbps : Z; vbrq : Z; rate : Z; ch : Z }.
Record ImageOpts := { q : Z }.
Record VideoOpts := { crf : Z }.

Module PdfAction.
Inductive t := none | split.
End PdfAction.
Record PdfOpts := { action : PdfAction.t }.

Definition bytes := list Byte.byte.

(** A [File]: its name, declared media type and (for folder drops) relative
    path. The content is read through the [Browser] oracles. *)
Record File := { name : string; type : string; webkitRelativePath : string }.

Record Blob := { blob_data : bytes; blob_type : string }.

Record QItem := {
  id : string; selected : bool; file : File; target : string;
  status : ItemStatus;
  outBlob : option Blob; error : option string;
  audio : AudioOpts; image : ImageOpts; video : VideoOpts; pdf : PdfOpts
}.

(** Field assignments [o.f = v] on an item object. *)
Definition set_selected (v : bool) (p : QItem) : QItem :=
  {| id := id p; selected := v; file := file p; target := target p;
     status := status p; outBlob := outBlob p; error := error p;
     audio := audio p; image := image p; video := video p; pdf := pdf p |}.
Definition set_target (v : string) (p : QItem) : QItem :=
  {| id := id p; selected := selected p; file := file p; target := v;
     status := status p; outBlob := outBlob p; error := error p;
     audio := audio p; image := image p; video := video p; pdf := pdf p |}.
Definition set_status (v : ItemStatus) (p : QItem) : QItem :=
  {| id := id p; selected := selected p; file := file p; target := target p;
     status := v; outBlob := outBlob p; error := error p;
     audio := audio p; image := image p; video := video p; pdf := pdf p |}.
Definition set_outBlob (v : Blob) (p : QItem) : QItem :=
  {| id := id p; selected := selected p; file := file p; target := target p;
     status := status p; outBlob := Some v; error := error p;
     audio := audio p; image := image p; video := video p; pdf := pdf p |}.
Definition set_error (v : string) (p : QItem) : QItem :=
  {| id := id p; selected := selected p; file := file p; target := target p;
     status := status p; outBlob := outBlob p; error := Some v;
     audio := audio p; image := image p; video := video p; pdf := pdf p |}.
Definition set_audio (v : AudioOpts) (p : QItem) : QItem :=
  {| id := id p; selected := selected p; file := file p; target := target p;
     status := status p; outBlob := outBlob p; error := error p;
     audio := v; image := image p; video := video p; pdf := pdf p |}.
Definition set_image (v : ImageOpts) (p : QItem) : QItem :=
  {| id := id p; selected := selected p; file := file p; target := target p;
     status := status p; outBlob := outBlob p; error := error p;
     audio := audio p; image := v; video := video p; pdf := pdf p |}.
Definition set_video (v : VideoOpts) (p : QItem) : QItem :=
  {| id := id p; selected := selected p; file := file p; target := target p;
     status := status p; outBlob := outBlob p; error := error p;
     audio := audio p; image := image p; video := v; pdf := pdf p |}.
Definition set_pdf (v : PdfOpts) (p : QItem) : QItem :=
  {| id := id p; selected := selected p; file := file p; target := target p;
     status := status p; outBlob := outBlob p; error := error p;
     audio := audio p; image := image p; video := video p; pdf := v |}.

Definition IMAGE_TARGETS : list string := ["image/jpeg"; "image/png"; "image/webp"].
Definition AUDIO_TARGETS : list string :=
  ["audio/mpeg"; "audio/aac"; "audio/ogg"; "audio/opus"; "audio/wav"].
Definition VIDEO_TARGETS : list string := ["video/webm"].

(** ** Type classifier (lines 29-43) *)

Definition AUDIO_EXTS : list string := ["mp3"; "aac"; "m4a"; "wav"; "ogg"; "opus"; "flac"].
Definition VIDEO_EXTS : list string := ["mp4"; "mov"; "mkv"; "webm"].

Definition isHeic (f : File) : bool :=
  let n := toLowerCase (name f) in
  String.eqb (type f) "image/heic" || String.eqb (type f) "image/heif"
  || endsWith n ".heic" || endsWith n ".heif".

Definition isAudio (f : File) : bool :=
  let n := toLowerCase (name f) in
  startsWith (type f) "audio/" || testExt AUDIO_EXTS n.

Definition isVideo (f : File) : bool :=
  let n := toLowerCase (name f) in
  startsWith (type f) "video/" || testExt VIDEO_EXTS n.

Definition isPDF (f : File) : bool :=
  String.eqb (type f) "application/pdf" || endsWith (toLowerCase (name f)) ".pdf".

Definition replaceExt (name ext : string) : string :=
  let i := lastIndexOf name "."%char in
  (if (0 <=? i)%Z then slice name 0 (Z.to_nat i) else name) +:+ ext.

Definition inferTargets (type name : string) : list string :=
  let n := toLowerCase name in
  if endsWith n ".heic" || endsWith n ".heif" then ["image/jpeg"]
  else if startsWith type "image/" then IMAGE_TARGETS
  else if startsWith type "audio/" || testExt AUDIO_EXTS n then AUDIO_TARGETS
  else if startsWith type "video/" || testExt VIDEO_EXTS n then VIDEO_TARGETS
  else if String.eqb type "application/pdf" || endsWith n ".pdf" then ["application/pdf"]
  else [].

(** ** The environment *)

(** [heic2any] resolves to a [Blob], or to something that is wrapped with
    [new Blob([res], { type: "image/jpeg" })]. *)
Inductive HeicResult := HeicBlob (b : Blob) | HeicRaw (data : bytes).

(** Calls made on the shared FFmpeg instance, in the order they are made. *)
Inductive Call :=
| Cload
| CwriteFile (path : string) (data : bytes)
| Cexec (args : list string)
| CreadFile (path : string)
| Cunlink (path : string).

(** The oracles. Those that touch mutable browser state (the FFmpeg
    instance and its scratch file system, the decoders, the clock, the random
    generator) take and return a [World]. A [File] is an immutable input, so
    reading it and parsing it with pdf-lib are functions of the file; so is
    the arithmetic of numbers. *)
Class Browser := {
  World : Type;
  ImageBitmap : Type;
  PDFDocument : Type;
  (** JavaScript numbers: the number denoted by an integer, [x / y],
      [x * y], [x <= y] and [Math.round(x)] *)
  Number : Type;
  Number_of_Z : Z -> Number;
  Number_div : Number -> Number -> Number;
  Number_mul : Number -> Number -> Number;
  Number_le : Number -> Number -> Prop;
  Math_round : Number -> Z;
  Date_now : World -> Z * World;
  (** [Math.random().toString(36)] *)
  Math_random36 : World -> string * World;
  FFmpeg_load : World -> Completion unit * World;
  FFmpeg_writeFile : string -> bytes -> World -> Completion unit * World;
  FFmpeg_exec : list string -> World -> Completion unit * World;
  FFmpeg_readFile : string -> World -> Completion bytes * World;
  FFmpeg_unlink : string -> World -> Completion unit * World;
  (** [heic2any({ blob, toType, quality })], the quality being given by a
      decimal literal *)
  heic2any : File -> string -> Q -> World -> Completion HeicResult * World;
  createImageBitmap : File -> World -> Completion ImageBitmap * World;
  (** loading the file into an [Image] through an object URL (lines 46-47) *)
  Image_load : File -> World -> Completion unit * World;
  (** a canvas of the bitmap's size, [drawImage], then
      [canvas.toBlob(cb, target, q)]; [None] when the callback gets [null] *)
  canvas_toBlob : ImageBitmap -> string -> Number -> World -> Completion (option Blob) * World;
  (** [file.arrayBuffer()] *)
  File_arrayBuffer : File -> Completion bytes;
  fetchFile : File -> Completion bytes;
  PDFDocument_load : bytes -> Completion PDFDocument;
  getPageCount : PDFDocument -> nat;
  (** a fresh document holding a copy of page [i], saved (lines 177-180) *)
  savePage : PDFDocument -> nat -> Completion bytes
}.

(** Sequencing of computations that may throw. *)
Definition cbind {A B} (c : Completion A) (k : A -> Completion B) : Completion B :=
  match c with
  | Normal a => k a
  | Throw e => Throw e
  end.

Fixpoint cfold {A B} (f : A -> B -> Completion A) (a : A) (l : list B) : Completion A :=
  match l with
  | [] => Normal a
  | b :: l' => cbind (f a b) (fun a' => cfold f a' l')
  end.

Section Engine.
Context `{Browser}.

(** The module-level state: the singleton [_ff] (line 25), the world, and
    the calls made on the FFmpeg instance so far. *)
Record St := { _ff : bool; world : World; calls : list Call }.

(** An async function over that state. *)
Definition M (A : Type) : Type := St -> Completion A * St.

Definition ret {A} (a : A) : M A := fun s => (Normal a, s).
Definition throw {A} (e : Exn) : M A := fun s => (Throw e, s).
Definition bind {A B} (c : M A) (k : A -> M B) : M B :=
  fun s => match c s with
           | (Normal a, s') => k a s'
           | (Throw e, s') => (Throw e, s')
           end.
(** [try { c } catch { h }] *)
Definition try_catch {A} (c : M A) (h : Exn -> M A) : M A :=
  fun s => match c s with
           | (Normal a, s') => (Normal a, s')
           | (Throw e, s') => h e s'
           end.
Definition liftC {A} (c : Completion A) : M A := fun s => (c, s).
Definition liftW {A} (f : World -> A * World) : M A :=
  fun s => let '(a, w) := f (world s) in
           (Normal a, {| _ff := _ff s; world := w; calls := calls s |}).
Definition await {A} (f : World -> Completion A * World) : M A :=
  fun s => let '(c, w) := f (world s) in
           (c, {| _ff := _ff s; world := w; calls := calls s |}).
(** a method call on the FFmpeg instance *)
Definition core {A} (c : Call) (f : World -> Completion A * World) : M A :=
  fun s => let '(r, w) := f (world s) in
           (r, {| _ff := _ff s; world := w; calls := calls s ++ [c] |}).
End Engine.

Notation "x <- c ;; k" := (bind c (fun x => k))
  (at level 100, c at next level, right associativity).
Notation "c ;;; k" := (bind c (fun _ => k))
  (at level 100, right associativity).

Section Converters.
Context `{Browser}.

(** line 26 *)
Definition getFF : M unit := fun s =>
  if _ff s then (Normal tt, s)
  else core Cload FFmpeg_load {| _ff := true; world := world s; calls := calls s |}.

(** lines 45-50 *)
Definition loadImageBitmap (file : File) : M ImageBitmap :=
  try_catch (await (createImageBitmap file))
    (fun _ => await (Image_load file) ;;; await (createImageBitmap file)).

(** lines 52-60 *)
Definition convertImage (file : File) (target : string) (qPercent : Z) : M Blob :=
  bmp <- loadImageBitmap file ;;
  let q := Number_div (Number_of_Z (Z.min 100 (Z.max 1 qPercent))) (Number_of_Z 100) in
  b <- await (canvas_toBlob bmp target q) ;;
  match b with
  | Some b => ret b
  | None => throw (Error "toBlob failed")
  end.

(** line 66 *)
Definition baseArgs (inName : string) (opts : AudioOpts) : list string :=
  ["-i"; inName; "-ar"; String_ (rate opts); "-ac"; String_ (ch opts)].

(** lines 62-76 *)
Definition convertAudio (file : File) (target : string) (opts : AudioOpts) : M Blob :=
  getFF ;;;
  r <- liftW Math_random36 ;;
  let inName := "in_" +:+ sliceFrom r 2 in
  buf <- liftC (fetchFile file) ;;
  core (CwriteFile inName buf) (FFmpeg_writeFile inName buf) ;;;
  let base := baseArgs inName opts in
  let exec args := core (Cexec args) (FFmpeg_exec args) in
  out <-
    (if String.eqb target "audio/mpeg" then
       (match mode opts with
        | VBR => exec (base ++ ["-c:a"; "libmp3lame"; "-q:a"; String_ (vbrq opts); "out.mp3"])
        | CBR => exec (base ++ ["-c:a"; "libmp3lame"; "-b:a"; String_ (kbps opts) +:+ "k"; "out.mp3"])
        end) ;;; ret "out.mp3"
     else if String.eqb target "audio/aac" then
       exec (base ++ ["-c:a"; "aac"; "-b:a"; String_ (kbps opts) +:+ "k";
                      "-f"; "mp4"; "-movflags"; "+faststart"; "out.m4a"]) ;;;
       ret "out.m4a"
     else if String.eqb target "audio/ogg" || String.eqb target "audio/opus" then
       let out := if String.eqb target "audio/opus" then "out.opus" else "out.ogg" in
       exec (base ++ ["-c:a"; "libopus"; "-b:a"; String_ (kbps opts) +:+ "k"; out]) ;;;
       ret out
     else if String.eqb target "audio/wav" then
       exec (base ++ ["-c:a"; "pcm_s16le"; "out.wav"]) ;;; ret "out.wav"
     else throw (Error "Unsupported audio target")) ;;
  data <- core (CreadFile out) (FFmpeg_readFile out) ;;
  try_catch (core (Cunlink inName) (FFmpeg_unlink inName) ;;;
             core (Cunlink out) (FFmpeg_unlink out))
            (fun _ => ret tt) ;;;
  ret {| blob_data := data; blob_type := target |}.

(** lines 78-87 *)
Definition convertVideoToWebM (file : File) (crf : Z) : M Blob :=
  getFF ;;;
  r <- liftW Math_random36 ;;
  let inName := "v_in_" +:+ sliceFrom r 2 in
  let out := "v_out.webm" in
  buf <- liftC (fetchFile file) ;;
  core (CwriteFile inName buf) (FFmpeg_writeFile inName buf) ;;;
  let args := ["-i"; inName; "-c:v"; "libvpx-vp9"; "-b:v"; "0"; "-crf"; String_ crf;
               "-c:a"; "libopus"; out] in
  core (Cexec args) (FFmpeg_exec args) ;;;
  data <- core (CreadFile out) (FFmpeg_readFile out) ;;
  try_catch (core (Cunlink inName) (FFmpeg_unlink inName) ;;;
             core (Cunlink out) (FFmpeg_unlink out))
            (fun _ => ret tt) ;;;
  ret {| blob_data := data; blob_type := "video/webm" |}.
End Converters.

(** ** The [App] component (lines 91-191) *)

(** [x || d] on strings that may be [undefined]. *)
Definition orElse (x : option string) (d : string) : string :=
  match x with
  | Some s => if String.eqb s EmptyString then d else s
  | None => d
  end.

(** [l.findIndex(P)] *)
Fixpoint findIndex {A} (P : A -> bool) (l : list A) : Z :=
  match l with
  | [] => (-1)%Z
  | x :: l' =>
      if P x then 0%Z
      else let r := findIndex P l' in if (r <? 0)%Z then (-1)%Z else (r + 1)%Z
  end.

(** The two pieces of React state a run publishes. *)
Inductive SetState :=
| setProgress (p : Z)
| setItems (l : list QItem).

(** *** Edits made through the controls (lines 112, 202-234, 263-273) *)

Definition updateById (i : string) (f : QItem -> QItem) (prev : list QItem) : list QItem :=
  map (fun p => if String.eqb (id p) i then f p else p) prev.

Definition set_mode (v : AudioMode) (a : AudioOpts) : AudioOpts :=
  {| mode := v; kbps := kbps a; vbrq := vbrq a; rate := rate a; ch := ch a |}.
Definition set_kbps (v : Z) (a : AudioOpts) : AudioOpts :=
  {| mode := mode a; kbps := v; vbrq := vbrq a; rate := rate a; ch := ch a |}.
Definition set_vbrq (v : Z) (a : AudioOpts) : AudioOpts :=
  {| mode := mode a; kbps := kbps a; vbrq := v; rate := rate a; ch := ch a |}.
Definition set_rate (v : Z) (a : AudioOpts) : AudioOpts :=
  {| mode := mode a; kbps := kbps a; vbrq := vbrq a; rate := v; ch := ch a |}.
Definition set_ch (v : Z) (a : AudioOpts) : AudioOpts :=
  {| mode := mode a; kbps := kbps a; vbrq := vbrq a; rate := rate a; ch := v |}.

Inductive Edit :=
| ToggleAll (v : bool)
| SelectAllButton
| CheckBox (i : string) (v : bool)
| PickTarget (i : string) (v : string)
| SlideQ (i : string) (v : Z)
| PickMode (i : string) (v : AudioMode)
| PickKbps (i : string) (v : Z)
| SlideVbrq (i : string) (v : Z)
| PickRate (i : string) (v : Z)
| PickCh (i : string) (v : Z)
| SlideCrf (i : string) (v : Z)
| PickPdfAction (i : string) (v : PdfAction.t).

Definition applyEdit (e : Edit) (prev : list QItem) : list QItem :=
  match e with
  | ToggleAll v => map (set_selected v) prev
  | SelectAllButton =>
      let all := negb ((0 <? length prev)%nat && forallb selected prev) in
      map (set_selected all) prev
  | CheckBox i v => updateById i (set_selected v) prev
  | PickTarget i v => updateById i (set_target v) prev
  | SlideQ i v => updateById i (fun p => set_image {| q := v |} p) prev
  | PickMode i v => updateById i (fun p => set_audio (set_mode v (audio p)) p) prev
  | PickKbps i v => updateById i (fun p => set_audio (set_kbps v (audio p)) p) prev
  | SlideVbrq i v => updateById i (fun p => set_audio (set_vbrq v (audio p)) p) prev
  | PickRate i v => updateById i (fun p => set_audio (set_rate v (audio p)) p) prev
  | PickCh i v => updateById i (fun p => set_audio (set_ch v (audio p)) p) prev
  | SlideCrf i v => updateById i (fun p => set_video {| crf := v |} p) prev
  | PickPdfAction i v => updateById i (fun p => set_pdf {| action := v |} p) prev
  end.

(** The options of the target selector of an item (line 273). *)
Definition targetOptions (it : QItem) : list string :=
  let ts := inferTargets (type (file it)) (name (file it)) in
  if (0 <? length ts)%nat then ts
  else IMAGE_TARGETS ++ AUDIO_TARGETS ++ VIDEO_TARGETS ++ ["application/pdf"].

(** [ext] of lines 158-168: ten assignments in sequence, the last match wins. *)
Definition extOf (target : string) : string :=
  let ext := ".bin" in
  let ext := if String.eqb target "image/jpeg" then ".jpg" else ext in
  let ext := if String.eqb target "image/png" then ".png" else ext in
  let ext := if String.eqb target "image/webp" then ".webp" else ext in
  let ext := if String.eqb target "audio/mpeg" then ".mp3" else ext in
  let ext := if String.eqb target "audio/aac" then ".m4a" else ext in
  let ext := if String.eqb target "audio/ogg" then ".ogg" else ext in
  let ext := if String.eqb target "audio/opus" then ".opus" else ext in
  let ext := if String.eqb target "audio/wav" then ".wav" else ext in
  let ext := if String.eqb target "video/webm" then ".webm" else ext in
  let ext := if String.eqb target "application/pdf" then ".pdf" else ext in
  ext.

Section App.
Context `{Browser}.

(** *** [addFiles] (lines 96-104) *)

Definition newItem (f : File) (idx : nat) : M QItem :=
  let defTarget := orElse (head (inferTargets (type f) (name f))) "image/webp" in
  now <- liftW Date_now ;;
  r <- liftW Math_random36 ;;
  ret {| id := String_ now +:+ "-" +:+ String_ (Z.of_nat idx) +:+ "-" +:+ slice r 2 8;
         selected := true; file := f; target := defTarget;
         status := ItemStatus.pending; outBlob := None; error := None;
         image := {| q := 90 |};
         audio := {| mode := CBR; kbps := 192; vbrq := 2; rate := 44100; ch := 2 |};
         video := {| crf := 33 |};
         pdf := {| action := PdfAction.none |} |}.

(** [list.map((f, idx) => ...)] *)
Fixpoint mapItems (fs : list File) (idx : nat) : M (list QItem) :=
  match fs with
  | [] => ret []
  | f :: rest =>
      it <- newItem f idx ;;
      its <- mapItems rest (S idx) ;;
      ret (it :: its)
  end.

Definition addFiles (files : list File) (prev : list QItem) : M (list QItem) :=
  mapped <- mapItems files 0 ;;
  ret (prev ++ mapped).

(** *** [convertAll] (lines 114-149) *)

(** One run: the store [next] of item objects, the counter [done], what has
    been published with [setProgress] and [setItems] so far (oldest
    first), the engine state, the exceptions caught so far, and the
    exception that ended the run if one escaped the loop. *)
Record Run := {
  next : list QItem;
  done : nat;
  published : list SetState;
  engine : St;
  (** what reached the [catch] clause (line 146), with the reference
      that was being processed *)
  caught : list (nat * Exn);
  uncaught : option Exn
}.

(** [work = next.filter(it => it.selected)]: references into [next]. *)
Definition workOf (next : list QItem) : list nat :=
  List.filter (fun p => match next !! p with
                        | Some it => selected it
                        | None => false
                        end) (seq 0 (length next)).

(** The body of the [try] (lines 122-145), for the item object [it] and
    the position [idx] found for its id. Every branch reads [it] and awaits
    before it writes to [next[idx]], so the writes of a branch happen only
    when it has not thrown. *)
Definition tryBlock (it : QItem) (idx : nat) (next : list QItem) : M (list QItem) :=
  r <- (if isPDF (file it) then
          match action (pdf it) with
          | PdfAction.split =>
              ret (alter (set_status ItemStatus.done) idx next, None)
          | PdfAction.none =>
              buf <- liftC (File_arrayBuffer (file it)) ;;
              let b := {| blob_data := buf; blob_type := "application/pdf" |} in
              ret (alter (set_status ItemStatus.done) idx (alter (set_outBlob b) idx next),
                   None)
          end
        else if isHeic (file it) then
          res <- await (heic2any (file it) "image/jpeg" (92 # 100)) ;;
          let out := match res with
                     | HeicBlob b => b
                     | HeicRaw d => {| blob_data := d; blob_type := "image/jpeg" |}
                     end in
          ret (alter (set_target "image/jpeg") idx next, Some out)
        else if startsWith (type (file it)) "image/" then
          out <- convertImage (file it) (target it) (q (image it)) ;;
          ret (next, Some out)
        else if isAudio (file it) then
          out <- convertAudio (file it) (target it) (audio it) ;;
          ret (next, Some out)
        else if isVideo (file it) then
          out <- convertVideoToWebM (file it) (crf (video it)) ;;
          ret (alter (set_target "video/webm") idx next, Some out)
        else throw (Error "Unsupported type")) ;;
  let '(next, out) := r in
  let next := match out with
              | Some b => alter (set_outBlob b) idx next
              | None => next
              end in
  ret (alter (set_status ItemStatus.done) idx next).

(** [Math.round(done/work.length*100)] *)
Definition percent (done len : nat) : Z :=
  Math_round (Number_mul (Number_div (Number_of_Z (Z.of_nat done))
                                     (Number_of_Z (Z.of_nat len)))
                         (Number_of_Z 100)).

(** One iteration of the loop for the reference [p = work[i]]; [it] is the
    object it points to, of which the [try] block reads only the file, the
    target and the options. An exception outside the [try] (a [TypeError]
    on [next[-1]]) ends the run. *)
Definition iteration (len : nat) (r : Run) (p : nat) : Run :=
  match uncaught r, next r !! p with
  | Some _, _ | _, None => r
  | None, Some it =>
      let idx := findIndex (fun n => String.eqb (id n) (id it)) (next r) in
      if (idx <? 0)%Z then
        {| next := next r; done := done r; published := published r;
           engine := engine r; caught := caught r;
           uncaught := Some (Error "Cannot set properties of undefined") |}
      else
        let idx := Z.to_nat idx in
        let next1 := alter (set_status ItemStatus.converting) idx (next r) in
        let '(c, eng) := tryBlock it idx next1 (engine r) in
        let next2 :=
          match c with
          | Normal n => n
          | Throw err =>
              alter (set_error (messageOf err)) idx
                (alter (set_status ItemStatus.error) idx next1)
          end in
        let done' := S (done r) in
        {| next := next2; done := done';
           published := published r ++
             [setItems next1; setProgress (percent done' len); setItems next2];
           engine := eng;
           caught := match c with
                     | Normal _ => caught r
                     | Throw err => caught r ++ [(p, err)]
                     end;
           uncaught := None |}
  end.

(** line 115: [let done=0; setProgress(0); const next=[...items]] *)
Definition initial (items : list QItem) (s : St) : Run :=
  {| next := items; done := 0; published := [setProgress 0];
     engine := s; caught := []; uncaught := None |}.

Definition convertAll (items : list QItem) (s : St) : Run :=
  let work := workOf items in
  foldl (iteration (length work)) (initial items s) work.

(** *** [downloadZip] (lines 153-191) *)

(** [-page-${i+1}.pdf] *)
Definition pageName (it : QItem) (i : nat) : string :=
  replaceExt (name (file it)) ("-page-" +:+ String_ (Z.of_nat i + 1) +:+ ".pdf").

(** The body of the [for (const it of items)] loop; [files] is the
    name-to-bytes record under construction. *)
Definition zipItem (files : gmap string bytes) (it : QItem) : Completion (gmap string bytes) :=
  if negb (selected it) then Normal files
  else
    let files :=
      match ItemStatus.eqb (status it) ItemStatus.done, outBlob it with
      | true, Some b =>
          let ext := extOf (target it) in
          let rel := if String.eqb (webkitRelativePath (file it)) EmptyString
                     then name (file it) else webkitRelativePath (file it) in
          <[replaceExt rel ext := blob_data b]> files
      | _, _ => files
      end in
    match isPDF (file it), action (pdf it) with
    | true, PdfAction.split =>
        cbind (File_arrayBuffer (file it)) (fun buf =>
        cbind (PDFDocument_load buf) (fun src =>
        cfold (fun files i =>
                 cbind (savePage src i) (fun bytes =>
                 Normal (<[pageName it i := bytes]> files)))
              files (seq 0 (getPageCount src))))
    | _, _ => Normal files
    end.

(** The record handed to [zipSync] and saved as [converted.zip], or [None]
    when there is nothing to archive and the function returns early. *)
Definition downloadZip (items : list QItem) : Completion (option (gmap string bytes)) :=
  cbind (cfold zipItem ∅ items) (fun files =>
  Normal (if decide (files = ∅) then None else Some files)).

(** [clearAll] (line 151) *)
Definition clearAll : list QItem * Z := ([], 0%Z).
End App.

(** ** Display helpers, derived state and the router *)

(** The strings of 7-bit characters. *)
Definition isAscii (s : string) : bool :=
  forallb (fun c => (nat_of_ascii c <? 128)%nat) (String.list_ascii_of_string s).

(** [toUpperCase] on strings of ASCII characters, where it folds [a]-[z]
    and nothing else. JavaScript folds further characters by the Unicode
    tables (the ligature U+FB02 becomes [FL]); here they are left as they
    are, so a fact about the upper-case form of a string is stated below
    for ASCII strings only. The badge applies it to a part of [File.type],
    which the File API keeps in ASCII. *)
Definition toUpperChar (c : ascii) : ascii :=
  let n := nat_of_ascii c in
  if (97 <=? n)%nat && (n <=? 122)%nat then ascii_of_nat (n - 32) else c.

Fixpoint toUpperCase (s : string) : string :=
  match s with
  | EmptyString => EmptyString
  | String c s' => String (toUpperChar c) (toUpperCase s')
  end.

(** [s.split(c)] for a one-character separator: the pieces between the
    occurrences of [c], at least one. *)
Fixpoint String_split (s : string) (c : ascii) : list string :=
  match s with
  | EmptyString => [EmptyString]
  | String a s' =>
      if Ascii.eqb a c then EmptyString :: String_split s' c
      else match String_split s' c with
           | x :: r => String a x :: r
           | [] => [String a EmptyString]
           end
  end.

(** The last [f] decimal digits of [r], as [f] characters. *)
Fixpoint fraction (f : nat) (r : Z) : string :=
  match f with
  | 0 => EmptyString
  | S f' => fraction f' (r / 10) +:+ String_ (r mod 10)
  end.

(** [x.toFixed(f)] for a number whose value is the rational [x], with
    [0 <= x < 1e21]: with [n] the integer for which [n / 10^f - x] is closest
    to zero (the larger one when there are two), the digits of [n] with a
    point before the last [f] of them. *)
Definition toFixed (x : Q) (f : nat) : string :=
  let n := Qfloor (x * inject_Z (10 ^ Z.of_nat f) + (1 # 2)) in
  match f with
  | 0 => String_ n
  | _ => String_ (n / 10 ^ Z.of_nat f) +:+ "." +:+ fraction f (n mod 10 ^ Z.of_nat f)
  end.

(** *** [human] (line 28)

    The argument is a file size, a non-negative integer; dividing it by
    1024 is exact in floating point, so the quotients are the rationals. *)

Definition UNITS : list string := ["B"; "KB"; "MB"; "GB"].

(** The [while] loop with [fuel] iterations left. Its body increments [i]
    and its condition bounds [i] by [u.length - 1], so [u.length - 1]
    iterations are all it can make. *)
Fixpoint human_loop (fuel : nat) (n : Q) (i : nat) : Q * nat :=
  match fuel with
  | 0 => (n, i)
  | S fuel' =>
      if Qle_bool (inject_Z 1024) n && (i <? length UNITS - 1)%nat
      then human_loop fuel' (n / inject_Z 1024) (S i)
      else (n, i)
  end.

Definition human (n : Q) : string :=
  let '(n, i) := human_loop (length UNITS - 1) n 0 in
  toFixed n (if (0 <? i)%nat then 1 else 0) +:+ " " +:+ nth i UNITS "undefined".

(** *** [TypeBadge] (line 89) and the badge of the file cell (line 271) *)

Definition TypeBadge (t : string) : string :=
  let label := if String.eqb t EmptyString then Some EmptyString
               else toUpperCase <$> (String_split t "/" !! 1) in
  orElse label "FILE".

(** [(it.file.type||'').split('/')[1]?.toUpperCase()||'FILE'] *)
Definition fileBadge (f : File) : string :=
  orElse (toUpperCase <$> (String_split (type f) "/" !! 1)) "FILE".

(** *** Derived state and buttons (lines 109, 111, 263-264) *)

Definition selectedCount (items : list QItem) : nat :=
  length (List.filter selected items).

Definition allChecked (items : list QItem) : bool :=
  (0 <? length items)%nat && forallb selected items.

(** The [disabled] attribute of "Convert selected". *)
Definition convertDisabled (items : list QItem) : bool :=
  negb (0 <? length (List.filter selected items))%nat.

(** *** [ItemSettings] (lines 193-239)

    Which groups of controls are rendered for an item, and which controls of
    the audio group are disabled. The [onChange] handlers are the edits
    above. *)

Record Settings := {
  showQ : bool; showAudio : bool; showCrf : bool; showPdf : bool;
  kbpsDisabled : bool; vbrqDisabled : bool
}.

Definition isVBR (m : AudioMode) : bool :=
  match m with VBR => true | CBR => false end.

Definition ItemSettings (it : QItem) : Settings :=
  let isImg := startsWith (target it) "image/" in
  let isAud := startsWith (target it) "audio/" in
  let isVid := startsWith (target it) "video/" in
  let isPdf := String.eqb (target it) "application/pdf" in
  {| showQ := isImg; showAudio := isAud; showCrf := isVid; showPdf := isPdf;
     kbpsDisabled := String.eqb (target it) "audio/wav" || isVBR (mode (audio it));
     vbrqDisabled := negb (String.eqb (target it) "audio/mpeg")
                     || negb (isVBR (mode (audio it))) |}.

(** *** [Router] ([main.tsx]) *)

Inductive Page := HelpPage | AppPage.

(** [h] is [window.location.hash]; [r = h.replace(/^#/, '')]. *)
Definition Router (h : string) : Page :=
  let r := match h with
           | String "#" r => r
           | _ => h
           end in
  if startsWith r "/help" then HelpPage else AppPage.

(** ** A simulated browser

    A small deterministic environment used to run the model on concrete
    queues: decoders and file reads fail on files whose name starts with
    [bad], every PDF has three pages, the clock and the random generator
    count up, and numbers are exact rationals ([Math.round] rounds to the
    nearest integer, ties towards plus infinity). *)

Module Sim.

Definition isBad (f : File) : bool := startsWith (name f) "bad".

Definition content (f : File) : bytes :=
  map byte_of_ascii (String.list_ascii_of_string (name f)).

Definition guard {A} (f : File) (what : string) (a : A) (w : nat) : Completion A * nat :=
  (if isBad f then Throw (Error (what +:+ " failed")) else Normal a, w).

Definition encode (f : File) (target : string) : Blob :=
  {| blob_data := content f; blob_type := target |}.

#[export] Instance browser : Browser := {|
  World := nat;
  ImageBitmap := File;
  PDFDocument := nat;
  Number := Q;
  Number_of_Z := inject_Z;
  Number_div := Qdiv;
  Number_mul := Qmult;
  Number_le := Qle;
  Math_round x := Qfloor (x + (1 # 2))%Q;
  Date_now w := (1700000000000 + Z.of_nat w, S w)%Z;
  Math_random36 w := ("0.k" +:+ pretty w +:+ "x9f3a7", S w);
  FFmpeg_load w := (Normal tt, w);
  FFmpeg_writeFile path data w := (Normal tt, w);
  FFmpeg_exec args w := (Normal tt, w);
  FFmpeg_readFile path w :=
    (Normal (map byte_of_ascii (String.list_ascii_of_string path)), w);
  FFmpeg_unlink path w := (Normal tt, w);
  heic2any f toType quality := guard f "decode" (HeicBlob (encode f toType));
  createImageBitmap f := guard f "decode" f;
  Image_load f := guard f "load" tt;
  canvas_toBlob bmp target quality w := (Normal (Some (encode bmp target)), w);
  File_arrayBuffer f :=
    if isBad f then Throw (Error "read failed") else Normal (content f);
  fetchFile f :=
    if isBad f then Throw (Error "read failed") else Normal (content f);
  PDFDocument_load buf := Normal 3;
  getPageCount d := d;
  savePage d i :=
    Normal [Byte.x25; Byte.x50; Byte.x44; Byte.x46; byte_of_ascii (ascii_of_nat (49 + i))]
|}.

Definition start : St := {| _ff := false; world := 0; calls := [] |}.

Definition mkFile (n t : string) : File :=
  {| name := n; type := t; webkitRelativePath := EmptyString |}.

(** The queue after dropping the given files on an empty page. *)
Definition enqueue (fs : list File) : list QItem :=
  match fst (addFiles fs [] start) with
  | Normal its => its
  | Throw _ => []
  end.

(** Scenarios. *)
Definition png (n : string) : File := mkFile n "image/png".
Definition docPdf : File := mkFile "doc.pdf" "application/pdf".

(** Three files, the second one unreadable. *)
Definition batch : list QItem := enqueue [png "a.png"; png "bad.png"; docPdf].

(** An image and an unsupported file, the second one deselected. *)
Definition mixed : list QItem :=
  applyEdit (CheckBox "1700000000002-1-k3x9f3" false)
    (enqueue [png "a.png"; mkFile "notes.txt" "text/plain"]).

(** One image, converted once. *)
Definition convertedOnce : list QItem :=
  next (convertAll (enqueue [png "a.png"]) start).

(** A video and a HEIC photo without declared type, converted. *)
Definition media : list QItem :=
  next (convertAll (enqueue [mkFile "clip.mov" "video/quicktime";
                             mkFile "IMG_7.HEIC" EmptyString]) start).

Definition unsupported : list QItem := enqueue [mkFile "notes.txt" "text/plain"].

(** Two images converted to JPEG: with different stems, with the same stem. *)
Definition twoImages : list QItem :=
  next (convertAll (enqueue [png "a.png"; png "b.png"]) start).
Definition sameStem : list QItem :=
  next (convertAll (enqueue [png "a.png"; mkFile "a.gif" "image/gif"]) start).

(** A PDF converted with "keep", then switched to "split pages". *)
Definition keptThenSplit : list QItem :=
  applyEdit (PickPdfAction "1700000000000-0-k1x9f3" PdfAction.split)
    (next (convertAll (enqueue [docPdf]) start)).

Definition song : File := mkFile "song.wav" "audio/wav".
Definition vbr2 : AudioOpts :=
  {| mode := VBR; kbps := 192; vbrq := 2; rate := 44100; ch := 2 |}.

(** A PDF as [addFiles] enqueues it, with "split pages" chosen and no
    conversion run yet. *)
Definition pendingSplit : QItem :=
  {| id := "1700000000000-0-k1x9f3"; selected := true;
     file := docPdf; target := "application/pdf";
     status := ItemStatus.pending; outBlob := None; error := None;
     audio := {| mode := CBR; kbps := 192; vbrq := 2; rate := 44100; ch := 2 |};
     image := {| q := 90 |}; video := {| crf := 33 |};
     pdf := {| action := PdfAction.split |} |}.

(** The engine state once [song] has been written to the scratch space. *)
Definition prepared : St :=
  {| _ff := true; world := 1;
     calls := [Cload; CwriteFile "in_k0x9f3a7" (content song)] |}.

(** Two audio files. *)
Definition songs : list QItem :=
  enqueue [song; mkFile "talk.mp3" "audio/mpeg"].

Definition clip : File := mkFile "clip.mov" "video/quicktime".

(** A HEIC photo as [addFiles] enqueues it. *)
Definition heicItem : QItem :=
  {| id := "1700000000000-0-k1x9f3"; selected := true;
     file := mkFile "IMG_7.HEIC" EmptyString; target := "image/jpeg";
     status := ItemStatus.pending; outBlob := None; error := None;
     audio := {| mode := CBR; kbps := 192; vbrq := 2; rate := 44100; ch := 2 |};
     image := {| q := 90 |}; video := {| crf := 33 |};
     pdf := {| action := PdfAction.none |} |}.

(** An unreadable PDF with "split pages" chosen. *)
Definition badSplit : QItem :=
  {| id := "1700000000004-0-k5x9f3"; selected := true;
     file := mkFile "bad.pdf" "application/pdf"; target := "application/pdf";
     status := ItemStatus.pending; outBlob := None; error := None;
     audio := {| mode := CBR; kbps := 192; vbrq := 2; rate := 44100; ch := 2 |};
     image := {| q := 90 |}; video := {| crf := 33 |};
     pdf := {| action := PdfAction.split |} |}.

(** Two images with the same id, the first one not selected. *)
Definition twinA : QItem :=
  {| id := "1700000000000-0-k1x9f3"; selected := false;
     file := png "a.png"; target := "image/webp";
     status := ItemStatus.pending; outBlob := None; error := None;
     audio := {| mode := CBR; kbps := 192; vbrq := 2; rate := 44100; ch := 2 |};
     image := {| q := 90 |}; video := {| crf := 33 |};
     pdf := {| action := PdfAction.none |} |}.
Definition twinB : QItem :=
  {| id := "1700000000000-0-k1x9f3"; selected := true;
     file := png "b.png"; target := "image/jpeg";
     status := ItemStatus.pending; outBlob := None; error := None;
     audio := {| mode := CBR; kbps := 192; vbrq := 2; rate := 44100; ch := 2 |};
     image := {| q := 90 |}; video := {| crf := 33 |};
     pdf := {| action := PdfAction.none |} |}.
Definition twins : list QItem := [twinA; twinB].


Definition page (i : nat) : bytes :=
  [Byte.x25; Byte.x50; Byte.x44; Byte.x46; byte_of_ascii (ascii_of_nat (49 + i))].

End Sim.

(** ** Vocabulary of the statements *)

(** [name] ends, ignoring case, with a dot followed by [e]. *)
Definition hasExt (nm e : string) : Prop :=
  ∃ stem, toLowerCase nm = stem +:+ "." +:+ e.

(** The declared media type belongs to the family [fam], as in [audio/*]. *)
Definition inFamily (ty fam : string) : Prop :=
  ∃ rest, ty = fam +:+ "/" +:+ rest.

Definition heicName (nm : string) : Prop := hasExt nm "heic" ∨ hasExt nm "heif".
Definition audioFile (ty nm : string) : Prop :=
  inFamily ty "audio" ∨ ∃ e, e ∈ AUDIO_EXTS ∧ hasExt nm e.
Definition videoFile (ty nm : string) : Prop :=
  inFamily ty "video" ∨ ∃ e, e ∈ VIDEO_EXTS ∧ hasExt nm e.
Definition pdfFile (ty nm : string) : Prop :=
  ty = "application/pdf" ∨ hasExt nm "pdf".

(** The image rule in the words of the specification: the declared type or
    the extension matches the image set, and the file is not HEIC/HEIF by
    extension or by declared type. *)
Definition spec_isHeic (ty nm : string) : bool :=
  String.eqb ty "image/heic" || String.eqb ty "image/heif"
  || testExt ["heic"; "heif"] nm.
Definition spec_isImage (ty nm : string) : bool :=
  startsWith ty "image/" || testExt ["jpg"; "jpeg"; "png"; "webp"] nm.

(** What a run published, by kind. *)
Definition progressLog (log : list SetState) : list Z :=
  omap (fun e => match e with setProgress p => Some p | setItems _ => None end) log.
Definition itemsLog (log : list SetState) : list (list QItem) :=
  omap (fun e => match e with setItems l => Some l | setProgress _ => None end) log.


Definition notConverting (it : QItem) : Prop :=
  status it ≠ ItemStatus.converting.

(** Done or error: the conversion of the item has ended. *)
Definition completed (it : QItem) : Prop :=
  status it = ItemStatus.done ∨ status it = ItemStatus.error.

#[global] Instance notConverting_dec it : Decision (notConverting it).
Proof. unfold notConverting. apply _. Defined.

(** [b] is [a] with nothing changed but its conversion result. *)
Definition sameInput (a b : QItem) : Prop :=
  id b = id a ∧ selected b = selected a ∧ file b = file a ∧
  audio b = audio a ∧ image b = image a ∧ video b = video a ∧ pdf b = pdf a.

(** The target after a successful conversion of file [f]: unchanged, or
    forced to [image/jpeg] on the HEIC path, or to [video/webm] on the video
    path. *)
Definition targetRule (f : File) (t t' : string) : Prop :=
  t' = t ∨
  (t' = "image/jpeg" ∧ isPDF f = false ∧ isHeic f = true) ∨
  (t' = "video/webm" ∧ isPDF f = false ∧ isHeic f = false ∧
   startsWith (type f) "image/" = false ∧ isAudio f = false ∧ isVideo f = true).

Definition Succeeded (x x' : QItem) : Prop :=
  sameInput x x' ∧ status x' = ItemStatus.done ∧ error x' = error x ∧
  targetRule (file x) (target x) (target x').

Definition Failed (e : Exn) (x x' : QItem) : Prop :=
  x' = set_error (messageOf e) (set_status ItemStatus.error x).

(** The target of an item is one of the options its selector shows. *)
Definition targetOffered (it : QItem) : Prop := target it ∈ targetOptions it.

(** A write sequence applied to a name-to-bytes record: [files[k] = v] for
    each entry in turn. *)
Definition writes (es : list (string * bytes)) (files : gmap string bytes)
    : gmap string bytes :=
  foldl (fun m e => <[e.1 := e.2]> m) files es.

(** The name of the entry of a converted item (lines 158-170). *)
Definition wholeName (it : QItem) : string :=
  replaceExt (if String.eqb (webkitRelativePath (file it)) EmptyString
              then name (file it) else webkitRelativePath (file it))
             (extOf (target it)).

Definition isExec (c : Call) : bool :=
  match c with Cexec _ => true | _ => false end.

(** What the statements about percentages assume of the arithmetic of
    numbers: conversion, division by a positive integer, multiplication by
    a non-negative integer and [Math.round] are monotone; [x/x] is 1, [0/x]
    is 0, [1*x] is [x], [0*x] is 0; and [Math.round] leaves the integers
    from 0 to 100 unchanged. Correctly rounded floating-point operations
    satisfy them, and so do exact ones. *)
Class NumberLaws `{Browser} : Prop := {
  Number_of_Z_mono a b :
    (a ≤ b)%Z → Number_le (Number_of_Z a) (Number_of_Z b);
  Number_div_mono x y n :
    (0 < n)%Z → Number_le x y →
    Number_le (Number_div x (Number_of_Z n)) (Number_div y (Number_of_Z n));
  Number_mul_mono x y c :
    (0 ≤ c)%Z → Number_le x y →
    Number_le (Number_mul x (Number_of_Z c)) (Number_mul y (Number_of_Z c));
  Math_round_mono x y :
    Number_le x y → (Math_round x ≤ Math_round y)%Z;
  Number_div_self n :
    (0 < n)%Z →
    Number_le (Number_div (Number_of_Z n) (Number_of_Z n)) (Number_of_Z 1) ∧
    Number_le (Number_of_Z 1) (Number_div (Number_of_Z n) (Number_of_Z n));
  Number_div_0_l n :
    (0 < n)%Z →
    Number_le (Number_div (Number_of_Z 0) (Number_of_Z n)) (Number_of_Z 0) ∧
    Number_le (Number_of_Z 0) (Number_div (Number_of_Z 0) (Number_of_Z n));
  Number_mul_1_l c :
    Number_le (Number_mul (Number_of_Z 1) (Number_of_Z c)) (Number_of_Z c) ∧
    Number_le (Number_of_Z c) (Number_mul (Number_of_Z 1) (Number_of_Z c));
  Number_mul_0_l c :
    Number_le (Number_mul (Number_of_Z 0) (Number_of_Z c)) (Number_of_Z 0) ∧
    Number_le (Number_of_Z 0) (Number_mul (Number_of_Z 0) (Number_of_Z c));
  Math_round_of_Z c :
    (0 ≤ c ≤ 100)%Z → Math_round (Number_of_Z c) = c
}.

Section Vocabulary.
Context `{Browser}.

(** The entries one item contributes to the archive, in the order they are
    written: its stored output if it is done and has one, then one entry
    per page if it is a PDF to be split. Nothing for an item that is not
    selected. *)
Definition entriesOf (it : QItem) : Completion (list (string * bytes)) :=
  if negb (selected it) then Normal []
  else
    let whole :=
      match ItemStatus.eqb (status it) ItemStatus.done, outBlob it with
      | true, Some b => [(wholeName it, blob_data b)]
      | _, _ => []
      end in
    match isPDF (file it), action (pdf it) with
    | true, PdfAction.split =>
        cbind (File_arrayBuffer (file it)) (fun buf =>
        cbind (PDFDocument_load buf) (fun src =>
        cbind (cfold (fun acc i => cbind (savePage src i) (fun b =>
                        Normal (acc ++ [(pageName it i, b)])))
                 [] (seq 0 (getPageCount src))) (fun pages =>
        Normal (whole ++ pages))))
    | _, _ => Normal whole
    end.

Definition allEntries (items : list QItem) : Completion (list (string * bytes)) :=
  cfold (fun acc it => cbind (entriesOf it) (fun es => Normal (acc ++ es)))
    [] items.

(** A target edit picks one of the options the selector shows. *)
Definition offered (e : Edit) (items : list QItem) : Prop :=
  match e with
  | PickTarget i v => ∀ it, it ∈ items → id it = i → v ∈ targetOptions it
  | _ => True
  end.

(** The queues the component can hold: empty at first, then grown by
    [addFiles] (with ids that stay pairwise distinct), edited through the
    controls, converted, or cleared. *)
Inductive lifecycle : list QItem → Prop :=
| lc_empty : lifecycle []
| lc_addFiles items files s items' s' :
    lifecycle items →
    addFiles files items s = (Normal items', s') →
    NoDup (id <$> items') →
    lifecycle items'
| lc_edit items e :
    lifecycle items → offered e items → lifecycle (applyEdit e items)
| lc_convertAll items s :
    lifecycle items → lifecycle (next (convertAll items s))
| lc_clearAll items :
    lifecycle items → lifecycle (fst clearAll).

(** Lines 63-65 of [convertAudio]: the engine, the scratch name, and the
    input written under it. *)
Definition prepareAudio (file : File) : M string :=
  getFF ;;;
  r <- liftW Math_random36 ;;
  let inName := "in_" +:+ sliceFrom r 2 in
  buf <- liftC (fetchFile file) ;;
  core (CwriteFile inName buf) (FFmpeg_writeFile inName buf) ;;;
  ret inName.

(** Lines 66-75 of [convertAudio]: the codec-specific invocation, reading
    the result back, and the clean-up. *)
Definition encodeAudio (inName target : string) (opts : AudioOpts) : M Blob :=
  let base := baseArgs inName opts in
  let exec args := core (Cexec args) (FFmpeg_exec args) in
  out <-
    (if String.eqb target "audio/mpeg" then
       (match mode opts with
        | VBR => exec (base ++ ["-c:a"; "libmp3lame"; "-q:a"; String_ (vbrq opts); "out.mp3"])
        | CBR => exec (base ++ ["-c:a"; "libmp3lame"; "-b:a"; String_ (kbps opts) +:+ "k"; "out.mp3"])
        end) ;;; ret "out.mp3"
     else if String.eqb target "audio/aac" then
       exec (base ++ ["-c:a"; "aac"; "-b:a"; String_ (kbps opts) +:+ "k";
                      "-f"; "mp4"; "-movflags"; "+faststart"; "out.m4a"]) ;;;
       ret "out.m4a"
     else if String.eqb target "audio/ogg" || String.eqb target "audio/opus" then
       let out := if String.eqb target "audio/opus" then "out.opus" else "out.ogg" in
       exec (base ++ ["-c:a"; "libopus"; "-b:a"; String_ (kbps opts) +:+ "k"; out]) ;;;
       ret out
     else if String.eqb target "audio/wav" then
       exec (base ++ ["-c:a"; "pcm_s16le"; "out.wav"]) ;;; ret "out.wav"
     else throw (Error "Unsupported audio target")) ;;
  data <- core (CreadFile out) (FFmpeg_readFile out) ;;
  try_catch (core (Cunlink inName) (FFmpeg_unlink inName) ;;;
             core (Cunlink out) (FFmpeg_unlink out))
            (fun _ => ret tt) ;;;
  ret {| blob_data := data; blob_type := target |}.

(** What the loop publishes in consecutive rounds, the first of them
    counted [k]: in each round a queue [q], then the percentage of the
    round, then a queue [q'] (lines 120 and 147). *)
Fixpoint rounds (len k : nat) (steps : list (list QItem * list QItem))
    : list SetState :=
  match steps with
  | [] => []
  | (q, q') :: rest =>
      setItems q :: setProgress (percent k len) :: setItems q'
        :: rounds len (S k) rest
  end.
End Vocabulary.

(** ** Vocabulary of the further statements *)

(** [size / unit] in tenths, rounded to the nearest tenth (a half rounds
    up), written with one digit after the point. *)
Definition tenths (size unit : Z) : string :=
  let m := ((20 * size + unit) / (2 * unit))%Z in
  String_ (m / 10) +:+ "." +:+ String_ (m mod 10).

Definition isLoad (c : Call) : bool :=
  match c with Cload => true | _ => false end.


(** The branch of the conversion loop a file takes goes through FFmpeg:
    it is not a PDF, not HEIC, not of an image type, and it is audio or
    video (lines 123-139). *)
Definition usesEngine (f : File) : bool :=
  negb (isPDF f) && negb (isHeic f) && negb (startsWith (type f) "image/")
  && (isAudio f || isVideo f).

(** Some branch of the conversion loop takes the file. *)
Definition dispatched (f : File) : bool :=
  isPDF f || isHeic f || startsWith (type f) "image/" || isAudio f || isVideo f.



(** The ten targets the selector can offer. *)
Definition ALL_TARGETS : list string :=
  IMAGE_TARGETS ++ AUDIO_TARGETS ++ VIDEO_TARGETS ++ ["application/pdf"].

(** The item an edit is addressed to, when it is addressed to one. *)
Definition editId (e : Edit) : option string :=
  match e with
  | ToggleAll _ | SelectAllButton => None
  | CheckBox i _ | PickTarget i _ | SlideQ i _ | PickMode i _ | PickKbps i _
  | SlideVbrq i _ | PickRate i _ | PickCh i _ | SlideCrf i _
  | PickPdfAction i _ => Some i
  end.

(** What [addFiles] gives every new item besides its id, file and target. *)
Definition freshItem (it : QItem) : Prop :=
  selected it = true ∧ status it = ItemStatus.pending ∧
  outBlob it = None ∧ error it = None ∧
  image it = {| q := 90 |} ∧
  audio it = {| mode := CBR; kbps := 192; vbrq := 2; rate := 44100; ch := 2 |} ∧
  video it = {| crf := 33 |} ∧ pdf it = {| action := PdfAction.none |}.

Section Vocabulary2.
Context `{Browser}.

(** The engine has been loaded at most once, and not at all as long as
    [getFF] has not created it. *)
Definition loadedOnce (s : St) : Prop :=
  length (List.filter isLoad (calls s)) ≤ (if _ff s then 1 else 0).

(** The engine exists, and has been loaded as often as in [s0]. *)
Definition sameLoads (s0 s : St) : Prop :=
  _ff s = true ∧ List.filter isLoad (calls s) = List.filter isLoad (calls s0).

(** A computation keeps a property of the engine state, whether it
    returns or throws. *)
Definition keeps {A} (P : St → Prop) (c : M A) : Prop :=
  ∀ s, P s → P (c s).2.

(** What holds of the outcome of a computation and of the state it
    leaves. *)
Definition post {A} (c : M A) (s : St) (Q : Completion A → St → Prop) : Prop :=
  Q (c s).1 (c s).2.

(** The loop body run for one item object on its own, from the engine
    state [s]: the object afterwards, and the engine state left. *)
Definition convertOne (it : QItem) (s : St) : QItem * St :=
  let r := iteration 1 (initial [it] s) 0 in
  (from_option (fun x => x) it (next r !! 0), engine r).

(** The object at position [p] of a store converted on its own. *)
Definition convertAt (ls : list QItem * St) (p : nat) : list QItem * St :=
  match ls.1 !! p with
  | Some it => (<[p := (convertOne it ls.2).1]> ls.1, (convertOne it ls.2).2)
  | None => ls
  end.

(** The selected items converted one after the other, each on its own,
    the engine state passing from one to the next. *)
Fixpoint convertSeq (items : list QItem) (s : St) : list QItem * St :=
  match items with
  | [] => ([], s)
  | it :: rest =>
      let '(it', s1) := if selected it then convertOne it s else (it, s) in
      let '(rest', s2) := convertSeq rest s1 in
      (it' :: rest', s2)
  end.
End Vocabulary2.

(** * Properties *)

(** ** Strings *)

Section StringFacts.
Implicit Types s t u pre suf : string.

Lemma append_cons c s t : String c s +:+ t = String c (s +:+ t).
Proof. reflexivity. Qed.

Lemma append_nil_l s : EmptyString +:+ s = s.
Proof. reflexivity. Qed.

Lemma append_assoc s t u : (s +:+ t) +:+ u = s +:+ t +:+ u.
Proof.
  induction s as [|c s IH]; [done |]. rewrite !append_cons. by f_equal.
Qed.

Lemma length_append s t :
  String.length (s +:+ t) = (String.length s + String.length t)%nat.
Proof.
  induction s as [|c s IH]; [done |]. rewrite append_cons. simpl. by f_equal.
Qed.

Lemma append_inj_r s t u : s +:+ u = t +:+ u → s = t.
Proof.
  revert t. induction s as [|c s IH]; intros [|d t] Heq.
  - done.
  - apply (f_equal String.length) in Heq.
    rewrite !length_append in Heq. simpl in Heq. lia.
  - apply (f_equal String.length) in Heq.
    rewrite !length_append in Heq. simpl in Heq. lia.
  - rewrite !append_cons in Heq. injection Heq as -> Heq.
    f_equal. by apply IH.
Qed.

Lemma lastIndexOf_lower s c : (-1 ≤ lastIndexOf s c)%Z.
Proof.
  induction s as [|a s IH]; cbn [lastIndexOf]; [lia |].
  destruct (0 <=? lastIndexOf s c)%Z eqn:E; [lia |].
  destruct (Ascii.eqb a c); lia.
Qed.

(** [c] does not occur in [s] exactly when [lastIndexOf] answers [-1]. *)
Lemma lastIndexOf_absent s c :
  lastIndexOf s c = (-1)%Z ↔ c ∉ String.list_ascii_of_string s.
Proof.
  induction s as [|a s IH]; cbn [lastIndexOf String.list_ascii_of_string].
  - split; [intros _; apply not_elem_of_nil | done].
  - rewrite not_elem_of_cons, <- IH.
    pose proof (lastIndexOf_lower s c).
    destruct (0 <=? lastIndexOf s c)%Z eqn:E.
    + apply Z.leb_le in E. split; [lia | intros [_ ?]; lia].
    + apply Z.leb_gt in E.
      destruct (Ascii.eqb_spec a c) as [->|Hne].
      * split; [lia | intros [? _]; done].
      * split; [intros _; split; [congruence | lia] | done].
Qed.

Lemma lastIndexOf_last_occurrence pre suf c :
  c ∉ String.list_ascii_of_string suf →
  lastIndexOf (pre +:+ String c suf) c = Z.of_nat (String.length pre).
Proof.
  intros Habs%lastIndexOf_absent.
  induction pre as [|a pre IH].
  - rewrite append_nil_l. cbn [lastIndexOf]. rewrite Habs.
    by rewrite Ascii.eqb_refl.
  - rewrite append_cons. cbn [lastIndexOf String.length]. rewrite IH.
    destruct (0 <=? Z.of_nat (String.length pre))%Z eqn:E; [lia |].
    apply Z.leb_gt in E. lia.
Qed.

Lemma slice_prefix pre s : slice (pre +:+ s) 0 (String.length pre) = pre.
Proof.
  unfold slice. rewrite Nat.sub_0_r.
  induction pre as [|a pre IH].
  - rewrite append_nil_l. by destruct s.
  - rewrite append_cons. simpl. by rewrite IH.
Qed.

Lemma endsWith_cons a s t :
  endsWith (String a s) t = if String.eqb (String a s) t then true else endsWith s t.
Proof. reflexivity. Qed.

Lemma endsWith_refl t : endsWith t t = true.
Proof. destruct t; cbn [endsWith]; by rewrite String.eqb_refl. Qed.

Lemma endsWith_append pre t : endsWith (pre +:+ t) t = true.
Proof.
  induction pre as [|a pre IH].
  - apply endsWith_refl.
  - rewrite append_cons, endsWith_cons, IH. by destruct (String.eqb _ _).
Qed.

Lemma endsWith_spec s t : endsWith s t = true ↔ ∃ pre, s = pre +:+ t.
Proof.
  split.
  - induction s as [|a s IH]; cbn [endsWith].
    + destruct (String.eqb_spec EmptyString t) as [<-|]; [by exists EmptyString | done].
    + destruct (String.eqb_spec (String a s) t) as [<-|_]; [by exists EmptyString |].
      intros [pre ->]%IH. by exists (String a pre).
  - intros [pre ->]. apply endsWith_append.
Qed.

Lemma startsWith_spec s p : startsWith s p = true ↔ ∃ rest, s = p +:+ rest.
Proof.
  unfold startsWith. revert s. induction p as [|a p IH]; intros s.
  - split; [by exists s | intros _; by destruct s].
  - destruct s as [|b s].
    { cbn [String.prefix]. split; [done | intros [? Hr]].
      rewrite append_cons in Hr. discriminate. }
    cbn [String.prefix]. destruct (ascii_dec a b) as [->|Hne].
    + rewrite IH. split; intros [rest Hr]; exists rest.
      * by rewrite append_cons, Hr.
      * rewrite append_cons in Hr. congruence.
    + split; [done | intros [rest Hr]].
      rewrite append_cons in Hr. congruence.
Qed.

Lemma testExt_spec alts s :
  testExt alts s = true ↔
  ∃ e stem, e ∈ alts ∧ toLowerCase s = stem +:+ "." +:+ e.
Proof.
  unfold testExt. rewrite existsb_exists. split.
  - intros (e & Hin & [stem ?]%endsWith_spec).
    exists e, stem. by rewrite <- list_elem_of_In in Hin.
  - intros (e & stem & Hin & ?). exists e.
    rewrite <- list_elem_of_In. split; [done |].
    apply endsWith_spec. by exists stem.
Qed.

Lemma toLowerChar_idemp c : toLowerChar (toLowerChar c) = toLowerChar c.
Proof. by destruct c as [[] [] [] [] [] [] [] []]. Qed.

Lemma toLowerCase_idemp s : toLowerCase (toLowerCase s) = toLowerCase s.
Proof.
  induction s as [|a s IH]; simpl; [done |].
  by rewrite toLowerChar_idemp, IH.
Qed.
End StringFacts.

(** ** Extension replacement *)

Lemma replaceExt_last_dot (pre suf ext : string) :
  "."%char ∉ String.list_ascii_of_string suf →
  replaceExt (pre +:+ "." +:+ suf) ext = pre +:+ ext.
Proof.
  intros Habs. unfold replaceExt.
  change ("." +:+ suf) with (String "." suf).
  rewrite (lastIndexOf_last_occurrence _ _ _ Habs).
  destruct (0 <=? Z.of_nat (String.length pre))%Z eqn:E.
  - by rewrite Nat2Z.id, slice_prefix.
  - apply Z.leb_gt in E. lia.
Qed.

Lemma replaceExt_no_dot (nm ext : string) :
  "."%char ∉ String.list_ascii_of_string nm → replaceExt nm ext = nm +:+ ext.
Proof.
  intros Habs%lastIndexOf_absent. unfold replaceExt. by rewrite Habs.
Qed.

(** C9. For a name with a dot, [replaceExt] replaces everything from the last
    dot onward with the new extension (in particular
    [replaceExt "a.b.heic" ".jpg" = "a.b.jpg"]); for a name without a dot the
    new extension is appended. *)
Theorem replaceExt_roundtrip (pre suf nm ext : string) :
  ("."%char ∉ String.list_ascii_of_string suf →
   replaceExt (pre +:+ "." +:+ suf) ext = pre +:+ ext) ∧
  ("."%char ∉ String.list_ascii_of_string nm →
   replaceExt nm ext = nm +:+ ext) ∧
  replaceExt "a.b.heic" ".jpg" = "a.b.jpg".
Proof.
  split; [apply replaceExt_last_dot |].
  split; [apply replaceExt_no_dot | reflexivity].
Qed.

Lemma replaceExt_roundtrip_witness :
  replaceExt ("holiday.2024" +:+ "." +:+ "heic") ".jpg" = "holiday.2024" +:+ ".jpg" ∧
  replaceExt "README" ".jpg" = "README" +:+ ".jpg".
Proof.
  destruct (replaceExt_roundtrip "holiday.2024" "heic" "README" ".jpg")
    as (Hdot & Hnone & _).
  split; [apply Hdot | apply Hnone]; apply (bool_decide_unpack _); vm_compute; exact I.
Defined.

(** ** Type classifier *)

Lemma hasExt_endsWith nm e :
  hasExt nm e ↔ endsWith (toLowerCase nm) ("." +:+ e) = true.
Proof. unfold hasExt. by rewrite endsWith_spec. Qed.

Lemma heicName_bool nm :
  heicName nm ↔
  endsWith (toLowerCase nm) ".heic" || endsWith (toLowerCase nm) ".heif" = true.
Proof.
  unfold heicName. rewrite !hasExt_endsWith, orb_true_iff. reflexivity.
Qed.

Lemma inFamily_bool ty fam :
  inFamily ty fam ↔ startsWith ty (fam +:+ "/") = true.
Proof.
  unfold inFamily. rewrite startsWith_spec.
  split; intros [rest ->]; exists rest; by rewrite ?append_assoc.
Qed.

Lemma testExt_lower alts nm :
  testExt alts (toLowerCase nm) = true ↔ ∃ e, e ∈ alts ∧ hasExt nm e.
Proof.
  rewrite testExt_spec, toLowerCase_idemp. unfold hasExt. split.
  - intros (e & stem & ? & ?). exists e. split; [done | by exists stem].
  - intros (e & ? & stem & ?). by exists e, stem.
Qed.

Lemma audioFile_bool ty nm :
  audioFile ty nm ↔
  startsWith ty "audio/" || testExt AUDIO_EXTS (toLowerCase nm) = true.
Proof.
  unfold audioFile.
  by rewrite orb_true_iff, testExt_lower, (inFamily_bool ty "audio").
Qed.

Lemma videoFile_bool ty nm :
  videoFile ty nm ↔
  startsWith ty "video/" || testExt VIDEO_EXTS (toLowerCase nm) = true.
Proof.
  unfold videoFile.
  by rewrite orb_true_iff, testExt_lower, (inFamily_bool ty "video").
Qed.

Lemma pdfFile_bool ty nm :
  pdfFile ty nm ↔
  String.eqb ty "application/pdf" || endsWith (toLowerCase nm) ".pdf" = true.
Proof.
  unfold pdfFile.
  by rewrite orb_true_iff, String.eqb_eq, (hasExt_endsWith nm "pdf").
Qed.

Lemma not_true_false (P : Prop) (b : bool) : (P ↔ b = true) → ¬ P → b = false.
Proof. intros HP Hn. destruct b; [exfalso; by apply Hn, HP | done]. Qed.

(** C6 (amended). The classifier tests, in this order: a [.heic]/[.heif]
    name gives [[image/jpeg]]; otherwise a declared [image/*] type (other
    than the HEIC/HEIF types, which this statement leaves aside) gives the
    three image targets; otherwise an audio type or extension gives the audio
    targets; otherwise a video type or extension gives [[video/webm]];
    otherwise a PDF type or extension gives [[application/pdf]]; otherwise
    the list is empty. The extension of the name plays no part in the image
    rule. *)
Theorem inferTargets_precedence (ty nm : string) :
  (heicName nm → inferTargets ty nm = ["image/jpeg"]) ∧
  (¬ heicName nm → inFamily ty "image" →
   ty ≠ "image/heic" → ty ≠ "image/heif" →
   inferTargets ty nm = IMAGE_TARGETS) ∧
  (¬ heicName nm → ¬ inFamily ty "image" → audioFile ty nm →
   inferTargets ty nm = AUDIO_TARGETS) ∧
  (¬ heicName nm → ¬ inFamily ty "image" → ¬ audioFile ty nm →
   videoFile ty nm → inferTargets ty nm = VIDEO_TARGETS) ∧
  (¬ heicName nm → ¬ inFamily ty "image" → ¬ audioFile ty nm →
   ¬ videoFile ty nm → pdfFile ty nm →
   inferTargets ty nm = ["application/pdf"]) ∧
  (¬ heicName nm → ¬ inFamily ty "image" → ¬ audioFile ty nm →
   ¬ videoFile ty nm → ¬ pdfFile ty nm → inferTargets ty nm = []).
Proof.
  unfold inferTargets.
  pose proof (heicName_bool nm) as Hh.
  pose proof (inFamily_bool ty "image") as Hi.
  pose proof (audioFile_bool ty nm) as Ha.
  pose proof (videoFile_bool ty nm) as Hv.
  pose proof (pdfFile_bool ty nm) as Hp.
  change ("image" +:+ "/") with "image/" in Hi.
  repeat split.
  - intros ->%Hh. done.
  - intros ->%(not_true_false _ _ Hh) ->%Hi _ _. done.
  - intros ->%(not_true_false _ _ Hh) ->%(not_true_false _ _ Hi) ->%Ha. done.
  - intros ->%(not_true_false _ _ Hh) ->%(not_true_false _ _ Hi)
      ->%(not_true_false _ _ Ha) ->%Hv. done.
  - intros ->%(not_true_false _ _ Hh) ->%(not_true_false _ _ Hi)
      ->%(not_true_false _ _ Ha) ->%(not_true_false _ _ Hv) ->%Hp. done.
  - intros ->%(not_true_false _ _ Hh) ->%(not_true_false _ _ Hi)
      ->%(not_true_false _ _ Ha) ->%(not_true_false _ _ Hv)
      ->%(not_true_false _ _ Hp). done.
Qed.

Lemma not_hasExt nm e :
  endsWith (toLowerCase nm) ("." +:+ e) = false → ¬ hasExt nm e.
Proof. intros Hf Hx%hasExt_endsWith. congruence. Qed.

Lemma inferTargets_precedence_witness :
  inferTargets "image/png" "Cat.PNG" = IMAGE_TARGETS ∧
  inferTargets EmptyString "IMG_0042.HEIC" = ["image/jpeg"] ∧
  inferTargets EmptyString "talk.Mp3" = AUDIO_TARGETS.
Proof.
  split; [| split].
  - apply (inferTargets_precedence "image/png" "Cat.PNG").
    + intros [Hx|Hx]; revert Hx; by apply not_hasExt.
    + by exists "png".
    + done.
    + done.
  - apply (inferTargets_precedence EmptyString "IMG_0042.HEIC").
    left. by exists "img_0042".
  - apply (inferTargets_precedence EmptyString "talk.Mp3").
    + intros [Hx|Hx]; revert Hx; by apply not_hasExt.
    + intros [rest Hr]. discriminate Hr.
    + right. exists "mp3". split; [set_solver | by exists "talk"].
Defined.

(** C6, as stated, fails on a file recognised as an image by its extension
    only: with no declared type, [photo.png] falls through every rule. *)
Lemma image_by_extension_unsupported :
  spec_isImage EmptyString "photo.png" = true ∧
  spec_isHeic EmptyString "photo.png" = false ∧
  inferTargets EmptyString "photo.png" = [] ∧
  inferTargets EmptyString "photo.png" ≠ IMAGE_TARGETS.
Proof. by vm_compute. Qed.

(** ** The conversion loop *)

Section Loop.
Context `{Browser}.
Implicit Types (r : Run) (it x : QItem) (l nxt : list QItem) (p idx : nat).

Lemma findIndex_found {A} (P : A → bool) (l : list A) i a :
  l !! i = Some a → P a = true → (0 ≤ findIndex P l ≤ Z.of_nat i)%Z.
Proof.
  revert i. induction l as [|b l IH]; intros [|i] Hl HP; simplify_eq/=.
  - by rewrite HP.
  - destruct (P b); [lia |]. specialize (IH _ Hl HP).
    destruct (findIndex P l <? 0)%Z eqn:E; [apply Z.ltb_lt in E |]; lia.
Qed.

(** With pairwise distinct ids, the position found for the id of the
    object at [p] is [p]: [next[idx]] and [it] are the same object. *)
Lemma findIndex_own l p it :
  NoDup (id <$> l) → l !! p = Some it →
  findIndex (fun n => String.eqb (id n) (id it)) l = Z.of_nat p.
Proof.
  revert p. induction l as [|b l IH]; intros [|p] Hnd Hl; simplify_eq/=.
  - by rewrite String.eqb_refl.
  - apply NoDup_cons in Hnd as [Hb Hnd].
    destruct (String.eqb_spec (id b) (id it)) as [Heq|_].
    + exfalso. apply Hb. rewrite Heq. apply list_elem_of_fmap.
      exists it. split; [done |]. by eapply list_elem_of_lookup_2.
    + rewrite (IH _ Hnd Hl).
      destruct (Z.of_nat p <? 0)%Z eqn:E; [apply Z.ltb_lt in E |]; lia.
Qed.

Lemma alter_lookup {A} (f : A → A) (l : list A) i a :
  l !! i = Some a → alter f i l = <[i := f a]> l.
Proof.
  intros Hl. apply list_eq. intros j.
  destruct (decide (i = j)) as [<-|Hne].
  - rewrite list_lookup_alter_eq, Hl, list_lookup_insert_eq; [done |].
    by eapply lookup_lt_Some.
  - by rewrite list_lookup_alter_ne, list_lookup_insert_ne.
Qed.

Lemma tryBlock_normal it idx nxt s n' s' :
  tryBlock it idx nxt s = (Normal n', s') →
  ∃ f, n' = alter f idx nxt ∧
       ∀ x, file x = file it → target x = target it → Succeeded x (f x).
Proof.
  unfold tryBlock, bind.
  destruct (isPDF (file it)) eqn:Epdf.
  { destruct (action (pdf it)).
    - unfold liftC, ret. destruct (File_arrayBuffer (file it)) as [buf|e]; [|done].
      intros [= <- <-]. eexists. rewrite !list_alter_alter_eq. split; [done |].
      intros x _ _. repeat split; try done. by left.
    - unfold ret. intros [= <- <-].
      eexists. rewrite !list_alter_alter_eq. split; [done |].
      intros x _ _. repeat split; try done. by left. }
  destruct (isHeic (file it)) eqn:Eheic.
  { unfold await, ret.
    destruct (heic2any _ _ _ _) as [[res|e] w]; [|done].
    intros [= <- <-]. eexists. rewrite !list_alter_alter_eq. split; [done |].
    intros x Hf _. repeat split; try done. right; left. by rewrite Hf. }
  destruct (startsWith (type (file it)) "image/") eqn:Eimg.
  { destruct (convertImage _ _ _ s) as [[b|e] s1]; [|done].
    unfold ret. intros [= <- <-]. eexists. rewrite !list_alter_alter_eq.
    split; [done |]. intros x _ _. repeat split; try done. by left. }
  destruct (isAudio (file it)) eqn:Eaud.
  { destruct (convertAudio _ _ _ s) as [[b|e] s1]; [|done].
    unfold ret. intros [= <- <-]. eexists. rewrite !list_alter_alter_eq.
    split; [done |]. intros x _ _. repeat split; try done. by left. }
  destruct (isVideo (file it)) eqn:Evid.
  { destruct (convertVideoToWebM _ _ s) as [[b|e] s1]; [|done].
    unfold ret. intros [= <- <-]. eexists. rewrite !list_alter_alter_eq.
    split; [done |]. intros x Hf _. repeat split; try done.
    right; right. by rewrite Hf. }
  done.
Qed.

Lemma tryBlock_length it idx nxt s n' s' :
  tryBlock it idx nxt s = (Normal n', s') → length n' = length nxt.
Proof.
  intros (f & -> & _)%tryBlock_normal. apply length_alter.
Qed.

(** One iteration, whatever the ids: it ends normally, counts one more item
    and publishes the new percentage. *)
Lemma iteration_progress len r p it :
  uncaught r = None → next r !! p = Some it →
  uncaught (iteration len r p) = None ∧
  done (iteration len r p) = S (done r) ∧
  length (next (iteration len r p)) = length (next r) ∧
  progressLog (published (iteration len r p)) =
    progressLog (published r) ++ [percent (S (done r)) len].
Proof.
  intros Hu Hp. unfold iteration. rewrite Hu, Hp.
  pose proof (findIndex_found (fun n => String.eqb (id n) (id it)) _ _ _ Hp
                (String.eqb_refl _)) as [Hlo _].
  destruct (_ <? 0)%Z eqn:E; [apply Z.ltb_lt in E; lia |].
  destruct (tryBlock _ _ _ _) as [[n'|e] eng] eqn:Etry; simpl.
  - apply tryBlock_length in Etry. rewrite length_alter in Etry.
    unfold progressLog. rewrite omap_app. done.
  - rewrite !length_alter. unfold progressLog. by rewrite omap_app.
Qed.

(** One iteration when ids are pairwise distinct: only the object at [p]
    changes, and it ends as done or as error. *)
Lemma iteration_spec len r p it :
  uncaught r = None → NoDup (id <$> next r) → next r !! p = Some it →
  ∃ it',
    next (iteration len r p) = <[p := it']> (next r) ∧
    uncaught (iteration len r p) = None ∧
    done (iteration len r p) = S (done r) ∧
    published (iteration len r p) =
      published r ++
      [setItems (<[p := set_status ItemStatus.converting it]> (next r));
       setProgress (percent (S (done r)) len);
       setItems (<[p := it']> (next r))] ∧
    ((caught (iteration len r p) = caught r ∧ Succeeded it it') ∨
     (∃ e, caught (iteration len r p) = caught r ++ [(p, e)] ∧ Failed e it it')).
Proof.
  intros Hu Hnd Hp. unfold iteration. rewrite Hu, Hp.
  rewrite (findIndex_own _ _ _ Hnd Hp).
  destruct (_ <? 0)%Z eqn:E; [apply Z.ltb_lt in E; lia |].
  rewrite Nat2Z.id, (alter_lookup _ _ _ _ Hp).
  assert (Hp1 : <[p := set_status ItemStatus.converting it]> (next r) !! p
                = Some (set_status ItemStatus.converting it)).
  { apply list_lookup_insert_eq. by eapply lookup_lt_Some. }
  destruct (tryBlock _ _ _ _) as [[n'|e] eng] eqn:Etry; simpl.
  - apply tryBlock_normal in Etry as (f & -> & Hf).
    rewrite (alter_lookup _ _ _ _ Hp1), list_insert_insert_eq.
    eexists. repeat split; try done. left. split; [done |].
    destruct (Hf (set_status ItemStatus.converting it)) as (Hs & Hst & He & Ht);
      done.
  - rewrite (alter_lookup _ _ _ _ Hp1), list_insert_insert_eq.
    assert (Hp2 : <[p := set_status ItemStatus.error
                           (set_status ItemStatus.converting it)]> (next r) !! p
                  = Some (set_status ItemStatus.error
                            (set_status ItemStatus.converting it))).
    { apply list_lookup_insert_eq. by eapply lookup_lt_Some. }
    rewrite (alter_lookup _ _ _ _ Hp2), list_insert_insert_eq.
    eexists. repeat split; try done. right. by exists e.
Qed.

Lemma Succeeded_id x x' : Succeeded x x' → id x' = id x.
Proof. by intros ((? & _) & _). Qed.

Lemma Failed_id e x x' : Failed e x x' → id x' = id x.
Proof. by intros ->. Qed.

Lemma ids_insert l p it it' :
  l !! p = Some it → id it' = id it → id <$> <[p := it']> l = id <$> l.
Proof.
  intros Hp Hid. rewrite list_fmap_insert, Hid.
  apply list_insert_id. by rewrite list_lookup_fmap, Hp.
Qed.

(** The loop over references [ps]: progress accounting. *)
Lemma loop_progress len ps : ∀ r,
  uncaught r = None → (∀ p, p ∈ ps → p < length (next r)) →
  uncaught (foldl (iteration len) r ps) = None ∧
  done (foldl (iteration len) r ps) = done r + length ps ∧
  length (next (foldl (iteration len) r ps)) = length (next r) ∧
  progressLog (published (foldl (iteration len) r ps)) =
    progressLog (published r) ++
    ((fun k => percent k len) <$> seq (S (done r)) (length ps)).
Proof.
  induction ps as [|p ps IH]; intros r Hu Hlt; simpl.
  - by rewrite Nat.add_0_r, app_nil_r.
  - destruct (lookup_lt_is_Some_2 (next r) p) as [it Hp].
    { apply Hlt. left. }
    destruct (iteration_progress len r p it Hu Hp) as (Hu1 & Hd1 & Hl1 & Hg1).
    destruct (IH (iteration len r p)) as (Hu2 & Hd2 & Hl2 & Hg2).
    { done. }
    { intros p' Hp'. rewrite Hl1. apply Hlt. by right. }
    rewrite Hd2, Hl2, Hg2, Hg1, Hd1, Hl1, <- app_assoc.
    repeat split; try done. lia.
Qed.

(** The loop over pairwise distinct references [ps], on a store with
    pairwise distinct ids: the objects outside [ps] are untouched, each
    object of [ps] has succeeded or failed, and the exceptions caught are
    those of the failed ones. *)
Lemma loop_spec len ps : ∀ r,
  uncaught r = None → NoDup (id <$> next r) → NoDup ps →
  (∀ p, p ∈ ps → p < length (next r)) →
  ∃ cs,
    caught (foldl (iteration len) r ps) = caught r ++ cs ∧
    id <$> next (foldl (iteration len) r ps) = id <$> next r ∧
    (∀ p, p ∉ ps → next (foldl (iteration len) r ps) !! p = next r !! p) ∧
    (∀ p it, p ∈ ps → next r !! p = Some it →
       ∃ it', next (foldl (iteration len) r ps) !! p = Some it' ∧
              (Succeeded it it' ∨ ∃ e, (p, e) ∈ cs ∧ Failed e it it')) ∧
    (∀ p e, (p, e) ∈ cs →
       p ∈ ps ∧ ∃ it it', next r !! p = Some it ∧
                next (foldl (iteration len) r ps) !! p = Some it' ∧
                Failed e it it').
Proof.
  induction ps as [|p ps IH]; intros r Hu Hnd Hps Hlt; simpl.
  { exists []. rewrite app_nil_r.
    split; [done |]. split; [done |]. split; [done |]. split.
    - intros p it Hin. by apply elem_of_nil in Hin.
    - intros p e Hin. by apply elem_of_nil in Hin. }
  apply NoDup_cons in Hps as [Hp_ps Hps].
  destruct (lookup_lt_is_Some_2 (next r) p) as [it Hp].
  { apply Hlt. left. }
  destruct (iteration_spec len r p it Hu Hnd Hp)
    as (it1 & Hn1 & Hu1 & _ & _ & Hres).
  set (r1 := iteration len r p) in *.
  assert (Hid1 : id it1 = id it).
  { destruct Hres as [[_ Hs]|(e & _ & Hf)];
      [by apply Succeeded_id | by eapply Failed_id]. }
  assert (Hids : id <$> next r1 = id <$> next r).
  { rewrite Hn1. by apply ids_insert with it. }
  destruct (IH r1) as (cs' & Hc & Hi & Hout & Hin & Hcs); try done.
  { by rewrite Hids. }
  { intros p' Hp'. rewrite Hn1, length_insert. apply Hlt. by right. }
  assert (Hp1 : next (foldl (iteration len) r1 ps) !! p = Some it1).
  { rewrite (Hout p Hp_ps), Hn1. apply list_lookup_insert_eq.
    by eapply lookup_lt_Some. }
  assert (Hother : ∀ p', p' ≠ p → next r1 !! p' = next r !! p').
  { intros p' Hne. rewrite Hn1. by apply list_lookup_insert_ne. }
  destruct Hres as [[Hc1 Hs]|(e & Hc1 & Hf)].
  - exists cs'. rewrite Hc, Hc1, Hi, Hids.
    split; [done |]. split; [done |]. split; [| split].
    + intros p' Hp'. apply not_elem_of_cons in Hp' as [Hne Hp'].
      by rewrite (Hout p' Hp'), Hother.
    + intros p' it' [->|Hp']%elem_of_cons Hl.
      * simplify_eq. exists it1. split; [done | by left].
      * rewrite <- Hother in Hl by (intros ->; done). by apply Hin.
    + intros p' e' Hin'.
      destruct (Hcs p' e' Hin') as (Hp' & it0 & it0' & Hl0 & Hl0' & Hf0).
      split; [by right |].
      exists it0, it0'. rewrite <- Hother; [done | by intros ->].
  - exists ((p, e) :: cs'). rewrite Hc, Hc1, Hi, Hids, <- app_assoc.
    split; [done |]. split; [done |]. split; [| split].
    + intros p' Hp'. apply not_elem_of_cons in Hp' as [Hne Hp'].
      by rewrite (Hout p' Hp'), Hother.
    + intros p' it' [->|Hp']%elem_of_cons Hl.
      * simplify_eq. exists it1. split; [done |]. right. exists e.
        split; [left | done].
      * rewrite <- Hother in Hl by (intros ->; done).
        destruct (Hin p' it' Hp' Hl) as (it'' & Hl'' & [Hs|(e' & He' & Hf')]).
        -- exists it''. split; [done | by left].
        -- exists it''. split; [done |]. right. exists e'.
           split; [by right | done].
    + intros p' e' [[= -> ->]|Hin']%elem_of_cons.
      * split; [left |]. by exists it, it1.
      * destruct (Hcs p' e' Hin') as (Hp' & it0 & it0' & Hl0 & Hl0' & Hf0).
        split; [by right |].
        exists it0, it0'. rewrite <- Hother; [done | by intros ->].
Qed.
End Loop.

(** ** The snapshot [work] *)

Section Work.
Context `{Browser}.
Implicit Types (l : list QItem) (p : nat).

Lemma elem_of_workOf l p :
  p ∈ workOf l ↔ ∃ it, l !! p = Some it ∧ selected it = true.
Proof.
  unfold workOf. rewrite list_elem_of_In, filter_In, in_seq. split.
  - intros [_ Hs]. destruct (l !! p) as [it|]; [by exists it | done].
  - intros (it & Hl & Hs). rewrite Hl. split; [|done].
    apply lookup_lt_Some in Hl. lia.
Qed.

Lemma workOf_lt l p : p ∈ workOf l → p < length l.
Proof. intros (it & Hl & _)%elem_of_workOf. by eapply lookup_lt_Some. Qed.

Lemma NoDup_workOf l : NoDup (workOf l).
Proof.
  apply NoDup_ListNoDup, List.NoDup_filter, List.seq_NoDup.
Qed.

Lemma workOf_snoc l x :
  workOf (l ++ [x]) = workOf l ++ (if selected x then [length l] else []).
Proof.
  unfold workOf. rewrite length_app. simpl.
  rewrite List.seq_app, List.filter_app. f_equal.
  - apply List.filter_ext_in. intros p [_ Hp]%in_seq.
    by rewrite lookup_app_l by lia.
  - simpl. by rewrite list_lookup_middle.
Qed.


End Work.

(** ** Percentages *)

Section Percent.
Context `{NumberLaws}.

Lemma percent_mono (k k' n : nat) :
  0 < n → k ≤ k' → (percent k n ≤ percent k' n)%Z.
Proof.
  intros Hn Hk. unfold percent.
  apply Math_round_mono, Number_mul_mono; [done |].
  apply Number_div_mono; [lia |]. apply Number_of_Z_mono. lia.
Qed.

(** [Math.round(n/n*100)] is 100. *)
Lemma percent_full (n : nat) : 0 < n → percent n n = 100%Z.
Proof.
  intros Hn. unfold percent.
  destruct (Number_div_self (Z.of_nat n)) as [Hle Hge]; [lia |].
  destruct (Number_mul_1_l 100) as [Hle1 Hge1].
  apply (Number_mul_mono _ _ 100) in Hle; [| done].
  apply (Number_mul_mono _ _ 100) in Hge; [| done].
  apply Math_round_mono in Hle, Hge, Hle1, Hge1.
  rewrite Math_round_of_Z in Hle1, Hge1 by done. lia.
Qed.

(** [Math.round(0/n*100)] is 0. *)
Lemma percent_zero (n : nat) : 0 < n → percent 0 n = 0%Z.
Proof.
  intros Hn. unfold percent. change (Z.of_nat 0) with 0%Z.
  destruct (Number_div_0_l (Z.of_nat n)) as [Hle Hge]; [lia |].
  destruct (Number_mul_0_l 100) as [Hle0 Hge0].
  apply (Number_mul_mono _ _ 100) in Hle; [| done].
  apply (Number_mul_mono _ _ 100) in Hge; [| done].
  apply Math_round_mono in Hle, Hge, Hle0, Hge0.
  rewrite Math_round_of_Z in Hle0, Hge0 by done. lia.
Qed.
End Percent.

(** The exact rationals of the simulated browser satisfy the laws. *)
Lemma Sim_NumberLaws : NumberLaws (H := Sim.browser).
Proof.
  split.
  - intros a b Hab. change (inject_Z a <= inject_Z b)%Q.
    by rewrite <- Zle_Qle.
  - intros x y n Hn Hxy. change (x / inject_Z n <= y / inject_Z n)%Q.
    apply Qmult_le_compat_r; [done |].
    apply Qinv_le_0_compat. replace 0%Q with (inject_Z 0) by done.
    rewrite <- Zle_Qle. lia.
  - intros x y c Hc Hxy. change (x * inject_Z c <= y * inject_Z c)%Q.
    apply Qmult_le_compat_r; [done |].
    replace 0%Q with (inject_Z 0) by done. by rewrite <- Zle_Qle.
  - intros x y Hxy.
    change (Qfloor (x + (1 # 2)) ≤ Qfloor (y + (1 # 2)))%Z.
    apply Qfloor_resp_le.
    apply Qplus_le_compat; [done | apply Qle_refl].
  - intros n Hn.
    change ((inject_Z n / inject_Z n <= inject_Z 1)%Q ∧
            (inject_Z 1 <= inject_Z n / inject_Z n)%Q).
    assert (Hq : (inject_Z n / inject_Z n == inject_Z 1)%Q).
    { unfold Qdiv. rewrite Qmult_inv_r; [reflexivity |].
      replace 0%Q with (inject_Z 0) by done. rewrite inject_Z_injective. lia. }
    rewrite Hq. split; apply Qle_refl.
  - intros n Hn.
    change ((inject_Z 0 / inject_Z n <= inject_Z 0)%Q ∧
            (inject_Z 0 <= inject_Z 0 / inject_Z n)%Q).
    assert (Hq : (inject_Z 0 / inject_Z n == inject_Z 0)%Q).
    { unfold Qdiv. apply Qmult_0_l. }
    rewrite Hq. split; apply Qle_refl.
  - intros c.
    change ((inject_Z 1 * inject_Z c <= inject_Z c)%Q ∧
            (inject_Z c <= inject_Z 1 * inject_Z c)%Q).
    rewrite Qmult_1_l. split; apply Qle_refl.
  - intros c.
    change ((inject_Z 0 * inject_Z c <= inject_Z 0)%Q ∧
            (inject_Z 0 <= inject_Z 0 * inject_Z c)%Q).
    rewrite Qmult_0_l. split; apply Qle_refl.
  - intros c Hc. change (Qfloor (inject_Z c + (1 # 2)) = c).
    unfold Qfloor, Qplus, inject_Z. simpl.
    rewrite Z.mul_1_r. symmetry.
    apply (Z.div_unique _ 2 c 1); lia.
Qed.

(** ** Runs of [convertAll] *)

Section Runs.
Context `{Browser}.
Implicit Types (r : Run) (it x : QItem) (l : list QItem) (p : nat).






Lemma last_progress (n : nat) (pre : list Z) :
  NumberLaws → 0 < n →
  last (pre ++ ((fun k => percent k n) <$> seq 1 n)) = Some 100%Z.
Proof.
  intros Hlaws Hn. destruct n as [|n]; [lia |].
  rewrite seq_S, fmap_app, app_assoc. simpl.
  by rewrite last_snoc, percent_full by lia.
Qed.

Lemma convertAll_unfold items s :
  convertAll items s =
  foldl (iteration (length (workOf items))) (initial items s) (workOf items).
Proof. reflexivity. Qed.

(** C1. Failure isolation. In a run over a queue with pairwise distinct
    ids during which exactly one exception is caught, thrown while
    converting the selected item [k]: the run ends normally, every other
    selected item is done, item [k] is in error and its error field holds
    the message of the exception ([err?.message || String(err)], which is
    the message itself when there is a non-empty one), and the last
    percentage published is 100 (under the laws of numbers). *)
Theorem convertAll_failure_isolation (items : list QItem) (s : St)
    (k : nat) (e : Exn) :
  NoDup (id <$> items) →
  caught (convertAll items s) = [(k, e)] →
  uncaught (convertAll items s) = None ∧
  k ∈ workOf items ∧
  (∀ p, p ∈ workOf items → p ≠ k →
     status <$> next (convertAll items s) !! p = Some ItemStatus.done) ∧
  status <$> next (convertAll items s) !! k = Some ItemStatus.error ∧
  error <$> next (convertAll items s) !! k = Some (Some (messageOf e)) ∧
  (∀ m, message e = Some m → m ≠ EmptyString →
     error <$> next (convertAll items s) !! k = Some (Some m)) ∧
  (NumberLaws →
   last (progressLog (published (convertAll items s))) = Some 100%Z).
Proof.
  intros Hnd Hcaught. rewrite convertAll_unfold in *.
  set (n := length (workOf items)) in *.
  destruct (loop_progress n (workOf items) (initial items s))
    as (Hu & _ & _ & Hlog); [done | apply workOf_lt |].
  destruct (loop_spec n (workOf items) (initial items s))
    as (cs & Hc & _ & _ & Hin & Hcs);
    [done | done | apply NoDup_workOf | apply workOf_lt |].
  rewrite Hcaught in Hc. simpl in Hc. subst cs.
  destruct (Hcs k e) as (Hk & it & it' & Hit & Hit' & Hf); [left |].
  simpl in Hit.
  assert (Herr : error <$> next (foldl (iteration n) (initial items s)
                                   (workOf items)) !! k
                 = Some (Some (messageOf e))).
  { by rewrite Hit', Hf. }
  split; [done |]. split; [done |]. split; [| split; [| split; [| split]]].
  - intros p Hp Hne.
    destruct (lookup_lt_is_Some_2 items p (workOf_lt _ _ Hp)) as [x Hx].
    destruct (Hin p x Hp Hx) as (x' & Hx' & [Hs|(e' & He' & _)]).
    + rewrite Hx'. simpl. f_equal. by destruct Hs as (_ & ? & _).
    + apply list_elem_of_singleton in He'. congruence.
  - by rewrite Hit', Hf.
  - done.
  - intros m Hm Hne. rewrite Herr. unfold messageOf. rewrite Hm.
    destruct (String.eqb_spec m EmptyString); done.
  - intros Hlaws. rewrite Hlog. apply last_progress; [done |]. unfold n.
    destruct (workOf items); [by apply elem_of_nil in Hk | simpl; lia].
Qed.

Lemma Succeeded_completed x x' : Succeeded x x' → completed x'.
Proof. intros (_ & Hst & _). by left. Qed.

Lemma Failed_completed e x x' : Failed e x x' → completed x'.
Proof. intros ->. by right. Qed.

(** The loop over references [ps], round by round: what is published,
    in full and in order, and what each published queue holds. *)
Lemma loop_rounds len ps : ∀ r,
  uncaught r = None → NoDup (id <$> next r) → NoDup ps →
  (∀ p, p ∈ ps → p < length (next r)) →
  ∃ steps,
    length steps = length ps ∧
    published (foldl (iteration len) r ps) =
      published r ++ rounds len (S (done r)) steps ∧
    ∀ k p it q q',
      ps !! k = Some p → next r !! p = Some it → steps !! k = Some (q, q') →
      q !! p = Some (set_status ItemStatus.converting it) ∧
      (∃ it', q' = <[p := it']> q ∧ completed it' ∧
              next (foldl (iteration len) r ps) !! p = Some it') ∧
      (∀ j pj, j < k → ps !! j = Some pj →
         ∃ x, q !! pj = Some x ∧ completed x ∧
              next (foldl (iteration len) r ps) !! pj = Some x) ∧
      (∀ p', p' ∉ take (S k) ps → q !! p' = next r !! p').
Proof.
  induction ps as [|p0 ps IH]; intros r Hu Hnd Hps Hlt.
  { exists []. simpl. rewrite app_nil_r. repeat split; try done. }
  apply NoDup_cons in Hps as [Hp0 Hps].
  destruct (lookup_lt_is_Some_2 (next r) p0) as [it0 Hit0]; [apply Hlt; left |].
  destruct (iteration_spec len r p0 it0 Hu Hnd Hit0)
    as (it0' & Hn1 & Hu1 & Hd1 & Hpub1 & Hres).
  assert (Hc0 : completed it0').
  { destruct Hres as [[_ Hs]|(e & _ & Hf)];
      [by eapply Succeeded_completed | by eapply Failed_completed]. }
  assert (Hid0 : id it0' = id it0).
  { destruct Hres as [[_ Hs]|(e & _ & Hf)];
      [by apply Succeeded_id | by eapply Failed_id]. }
  set (r1 := iteration len r p0) in *.
  assert (Hnd1 : NoDup (id <$> next r1)).
  { by rewrite Hn1, (ids_insert _ _ _ _ Hit0 Hid0). }
  assert (Hlt1 : ∀ p, p ∈ ps → p < length (next r1)).
  { intros p Hp. rewrite Hn1, length_insert. apply Hlt. by right. }
  destruct (IH r1 Hu1 Hnd1 Hps Hlt1) as (steps & Hlen & Hpub & Hsteps).
  destruct (loop_spec len ps r1 Hu1 Hnd1 Hps Hlt1) as (_ & _ & _ & Hout & _).
  assert (Hfin0 : next (foldl (iteration len) r1 ps) !! p0 = Some it0').
  { rewrite (Hout p0 Hp0), Hn1. apply list_lookup_insert_eq.
    by eapply lookup_lt_Some. }
  exists ((<[p0 := set_status ItemStatus.converting it0]> (next r),
           <[p0 := it0']> (next r)) :: steps).
  split; [simpl; by rewrite Hlen |].
  split.
  { simpl. fold r1. rewrite Hpub, Hpub1, Hd1, <- app_assoc. done. }
  intros [|k] p it q q' Hk Hit Hst; simpl in Hk, Hst; simplify_eq.
  - split; [apply list_lookup_insert_eq; by eapply lookup_lt_Some |].
    split.
    { exists it0'. by rewrite list_insert_insert_eq. }
    split; [intros j pj Hj; lia |].
    intros p' Hp'. apply list_lookup_insert_ne.
    intros ->. apply Hp'. simpl. rewrite take_0. left.
  - assert (Hne : p ≠ p0).
    { intros ->. apply Hp0. by eapply list_elem_of_lookup_2. }
    assert (Hit1 : next r1 !! p = Some it).
    { by rewrite Hn1, list_lookup_insert_ne. }
    destruct (Hsteps k p it q q' Hk Hit1 Hst) as (Hq & Hq' & Hbefore & Hrest).
    split; [done |]. split; [done |]. split.
    + intros [|j] pj Hj Hpj; simpl in Hpj; simplify_eq.
      * exists it0'. split; [| done].
        rewrite Hrest, Hn1.
        { apply list_lookup_insert_eq. by eapply lookup_lt_Some. }
        intros Hin. apply Hp0. by apply (subseteq_take (S k) ps).
      * apply (Hbefore j pj); [lia | done].
    + intros p' Hp'. simpl in Hp'.
      apply not_elem_of_cons in Hp' as [Hne' Hp'].
      rewrite (Hrest p' Hp'), Hn1. by apply list_lookup_insert_ne.
Qed.

(** Every round is a block of three consecutive events of the log. *)
Lemma rounds_lookup len steps : ∀ k0 k q q',
  steps !! k = Some (q, q') →
  ∃ pre post,
    rounds len k0 steps =
      pre ++ [setItems q; setProgress (percent (k0 + k) len); setItems q']
          ++ post.
Proof.
  induction steps as [|[q0 q0'] steps IH]; intros k0 [|k] q q' Hk;
    simplify_eq/=.
  - exists [], (rounds len (S k0) steps). by rewrite Nat.add_0_r.
  - destruct (IH (S k0) k q q' Hk) as (pre & post & ->).
    exists ([setItems q0; setProgress (percent k0 len); setItems q0'] ++ pre),
           post.
    by rewrite <- Nat.add_succ_comm, <- app_assoc.
Qed.


Lemma applyEdit_status (e : Edit) (items : list QItem) :
  status <$> applyEdit e items = status <$> items.
Proof.
  destruct e; simpl; unfold updateById; rewrite <- ?list_fmap_compose;
    apply list_fmap_ext; intros ? x _; simpl;
    try destruct (String.eqb _ _); done.
Qed.

(** C3 (amended). An edit made through the controls never changes a
    status. A run of [convertAll] over a queue with pairwise distinct ids
    leaves every item that is not selected exactly as it was, whatever its
    status; every selected item, whatever its status before the run, is
    processed again: the run publishes a queue in which the item has
    status converting, then a percentage, then the same queue with the
    item as the run leaves it, which is done or in error. *)
Theorem convertAll_status_transitions (items : list QItem) (s : St) :
  (∀ e, status <$> applyEdit e items = status <$> items) ∧
  (NoDup (id <$> items) →
   (∀ p it, items !! p = Some it → selected it = false →
      next (convertAll items s) !! p = Some it) ∧
   (∀ p it, items !! p = Some it → selected it = true →
      ∃ it', next (convertAll items s) !! p = Some it' ∧
             sameInput it it' ∧
             (status it' = ItemStatus.done ∨ status it' = ItemStatus.error) ∧
             ∃ pre post c q,
               published (convertAll items s) =
                 pre ++ [setItems q; setProgress c; setItems (<[p := it']> q)]
                     ++ post ∧
               q !! p = Some (set_status ItemStatus.converting it))).
Proof.
  split; [intros e; apply applyEdit_status |].
  intros Hnd. rewrite convertAll_unfold.
  destruct (loop_spec (length (workOf items)) (workOf items) (initial items s))
    as (cs & _ & _ & Hout & Hin & _);
    [done | done | apply NoDup_workOf | apply workOf_lt |].
  split.
  - intros p it Hp Hsel. rewrite Hout; [done |].
    intros (it' & Hp' & Hsel')%elem_of_workOf. simpl in *. congruence.
  - intros p it Hp Hsel.
    assert (Hw : p ∈ workOf items).
    { apply elem_of_workOf. by exists it. }
    destruct (Hin p it) as (it' & Hp' & Hres); [done | done |].
    exists it'. split; [done |].
    split; [destruct Hres as [(Hs & _)|(e & _ & ->)]; done |].
    split; [destruct Hres as [(_ & Hst & _)|(e & _ & ->)];
            [by left | by right] |].
    destruct (loop_rounds (length (workOf items)) (workOf items)
                (initial items s))
      as (steps & Hlen & Hpub & Hsteps);
      [done | done | apply NoDup_workOf | apply workOf_lt |].
    apply list_elem_of_lookup_1 in Hw as [k Hk].
    destruct (lookup_lt_is_Some_2 steps k) as [[q q'] Hst].
    { rewrite Hlen. by eapply lookup_lt_Some. }
    destruct (Hsteps k p it q q' Hk Hp Hst) as (Hq & (x & -> & _ & Hx) & _).
    rewrite Hp' in Hx. injection Hx as <-.
    destruct (rounds_lookup (length (workOf items)) steps 1 k _ _ Hst)
      as (pre & post & Hsplit).
    exists (setProgress 0 :: pre), post, (percent (1 + k) (length (workOf items))), q.
    split; [| done]. rewrite Hpub. simpl. by rewrite Hsplit.
Qed.
End Runs.

Lemma convertAll_failure_isolation_witness :
  status <$> next (convertAll Sim.batch Sim.start) =
    [ItemStatus.done; ItemStatus.error; ItemStatus.done] ∧
  error <$> next (convertAll Sim.batch Sim.start) !! 1 = Some (Some "load failed") ∧
  last (progressLog (published (convertAll Sim.batch Sim.start))) = Some 100%Z.
Proof.
  assert (Hnd : NoDup (id <$> Sim.batch)).
  { apply (bool_decide_unpack _). vm_compute. exact I. }
  assert (Hc : caught (convertAll Sim.batch Sim.start)
               = [(1, Error "load failed")]).
  { vm_compute. reflexivity. }
  destruct (convertAll_failure_isolation Sim.batch Sim.start 1 _ Hnd Hc)
    as (_ & _ & _ & _ & Herr & _ & Hlast).
  split; [vm_compute; reflexivity |].
  split; [exact Herr | exact (Hlast Sim_NumberLaws)].
Defined.


Lemma convertAll_status_transitions_witness :
  (∃ it, Sim.mixed !! 1 = Some it ∧ status it = ItemStatus.pending ∧
         next (convertAll Sim.mixed Sim.start) !! 1 = Some it) ∧
  (∃ it it', Sim.convertedOnce !! 0 = Some it ∧ status it = ItemStatus.done ∧
     next (convertAll Sim.convertedOnce Sim.start) !! 0 = Some it' ∧
     ∃ pre post c q,
       published (convertAll Sim.convertedOnce Sim.start) =
         pre ++ [setItems q; setProgress c; setItems (<[0 := it']> q)] ++ post ∧
       q !! 0 = Some (set_status ItemStatus.converting it)).
Proof.
  split.
  - destruct (convertAll_status_transitions Sim.mixed Sim.start) as [_ Hrun].
    destruct Hrun as [Hkeep _].
    { apply (bool_decide_unpack _). vm_compute. exact I. }
    destruct (Sim.mixed !! 1) as [it|] eqn:Hit; [| by vm_compute in Hit].
    exists it. split; [done |].
    vm_compute in Hit. injection Hit as <-.
    split; [reflexivity |]. apply Hkeep; reflexivity.
  - destruct (convertAll_status_transitions Sim.convertedOnce Sim.start)
      as [_ Hrun].
    destruct Hrun as [_ Hagain].
    { apply (bool_decide_unpack _). vm_compute. exact I. }
    destruct (Sim.convertedOnce !! 0) as [it|] eqn:Hit; [| by vm_compute in Hit].
    assert (Hst : status it = ItemStatus.done ∧ selected it = true).
    { vm_compute in Hit. injection Hit as <-. split; reflexivity. }
    destruct (Hagain 0 it Hit (proj2 Hst)) as (it' & Hfin & _ & _ & Hlog).
    exists it, it'. split; [reflexivity |].
    split; [exact (proj1 Hst) |]. split; [exact Hfin | exact Hlog].
Defined.

(** C3, as stated, fails: a second run over an item that is already done sets
    it to converting again and publishes it so. *)
Lemma done_item_is_converted_again :
  status <$> Sim.convertedOnce = [ItemStatus.done] ∧
  (fun l : list QItem => status <$> l)
    <$> itemsLog (published (convertAll Sim.convertedOnce Sim.start)) =
    [[ItemStatus.converting]; [ItemStatus.done]].
Proof. by vm_compute. Qed.

(** ** Archive assembly *)

Section Archive.
Context `{Browser}.
Implicit Types (it : QItem) (files m : gmap string bytes)
               (es : list (string * bytes)) (k : string).

Lemma writes_app es1 es2 files :
  writes (es1 ++ es2) files = writes es2 (writes es1 files).
Proof. apply foldl_app. Qed.

Lemma writes_snoc es k v files :
  writes (es ++ [(k, v)]) files = <[k := v]> (writes es files).
Proof. by rewrite writes_app. Qed.

Lemma writes_lookup_notin es : ∀ files k,
  k ∉ es.*1 → writes es files !! k = files !! k.
Proof.
  induction es as [|[k' v'] es IH]; intros files k Hk; [done |].
  simpl in *. apply not_elem_of_cons in Hk as [Hne Hk].
  rewrite IH by done. by apply lookup_insert_ne.
Qed.

(** Each name holds the last entry written under it. *)
Lemma writes_lookup_last es1 k v es2 files :
  k ∉ es2.*1 → writes (es1 ++ (k, v) :: es2) files !! k = Some v.
Proof.
  intros Hk. rewrite writes_app. simpl.
  rewrite writes_lookup_notin by done. apply lookup_insert_eq.
Qed.

Lemma writes_lookup_NoDup es k v files :
  NoDup es.*1 → (k, v) ∈ es → writes es files !! k = Some v.
Proof.
  intros Hnd (es1 & es2 & ->)%list_elem_of_split.
  apply writes_lookup_last.
  rewrite fmap_app, fmap_cons in Hnd.
  apply NoDup_app in Hnd as (_ & _ & Hnd).
  by apply NoDup_cons in Hnd as [? _].
Qed.

Lemma writes_is_Some es : ∀ files k,
  is_Some (writes es files !! k) ↔ k ∈ es.*1 ∨ is_Some (files !! k).
Proof.
  induction es as [|[k' v'] es IH]; intros files k; simpl.
  - rewrite elem_of_nil. tauto.
  - rewrite IH, elem_of_cons, lookup_insert_is_Some. simpl.
    destruct (decide (k' = k)); intuition congruence.
Qed.

Lemma writes_size es : NoDup es.*1 → size (writes es ∅) = length es.
Proof.
  induction es as [|[k v] es IH] using rev_ind; intros Hnd; [done |].
  rewrite fmap_app in Hnd. apply NoDup_app in Hnd as (Hnd & Hk & _).
  rewrite writes_snoc, length_app, map_size_insert_None, IH by
    (done || (rewrite writes_lookup_notin; [done |];
              intros Hin; apply (Hk k Hin); simpl; left)).
  simpl. lia.
Qed.

(** The page loop of [zipItem] performs the writes the page loop of
    [entriesOf] lists. *)
Lemma pages_fold it src files0 (l : list nat) : ∀ acc,
  cfold (fun files i => cbind (savePage src i) (fun b =>
           Normal (<[pageName it i := b]> files)))
    (writes acc files0) l =
  cbind (cfold (fun acc i => cbind (savePage src i) (fun b =>
                  Normal (acc ++ [(pageName it i, b)]))) acc l)
    (fun ps => Normal (writes ps files0)).
Proof.
  induction l as [|i l IH]; intros acc; simpl; [done |].
  destruct (savePage src i) as [b|e]; simpl; [|done].
  by rewrite <- writes_snoc, IH.
Qed.

Lemma zipItem_entries files it :
  zipItem files it = cbind (entriesOf it) (fun es => Normal (writes es files)).
Proof.
  unfold zipItem, entriesOf. destruct (negb (selected it)); [done |].
  set (whole := match ItemStatus.eqb (status it) ItemStatus.done, outBlob it with
                | true, Some b => [(wholeName it, blob_data b)]
                | _, _ => []
                end).
  assert (Hw : match ItemStatus.eqb (status it) ItemStatus.done, outBlob it with
               | true, Some b =>
                   <[replaceExt
                       (if String.eqb (webkitRelativePath (file it)) EmptyString
                        then name (file it) else webkitRelativePath (file it))
                       (extOf (target it)) := blob_data b]> files
               | _, _ => files
               end = writes whole files).
  { unfold whole. by destruct (ItemStatus.eqb _ _), (outBlob it). }
  rewrite Hw. clear Hw.
  destruct (isPDF (file it)); [|done]. destruct (action (pdf it)); [done |].
  destruct (File_arrayBuffer (file it)) as [buf|e]; simpl; [|done].
  destruct (PDFDocument_load buf) as [src|e]; simpl; [|done].
  change (writes whole files) with (writes [] (writes whole files)) at 1.
  rewrite pages_fold.
  destruct (cfold _ [] (seq 0 (getPageCount src))) as [ps|e]; simpl; [|done].
  by rewrite writes_app.
Qed.

Lemma cfold_zipItem files0 (items : list QItem) : ∀ acc,
  cfold zipItem (writes acc files0) items =
  cbind (cfold (fun acc it => cbind (entriesOf it) (fun es => Normal (acc ++ es)))
           acc items)
    (fun es => Normal (writes es files0)).
Proof.
  induction items as [|it items IH]; intros acc; simpl; [done |].
  rewrite zipItem_entries.
  destruct (entriesOf it) as [es|e]; simpl; [|done].
  by rewrite <- writes_app, IH.
Qed.

Lemma downloadZip_entries items es :
  allEntries items = Normal es →
  cfold zipItem ∅ items = Normal (writes es ∅) ∧
  downloadZip items =
    Normal (if decide (writes es ∅ = ∅) then None else Some (writes es ∅)).
Proof.
  intros Hes. unfold downloadZip.
  change (cfold zipItem ∅ items) with (cfold zipItem (writes [] ∅) items).
  rewrite cfold_zipItem. unfold allEntries in Hes. by rewrite Hes.
Qed.

Lemma pages_ok it src (pg : nat → bytes) : ∀ n a acc,
  (∀ i, a ≤ i < a + n → savePage src i = Normal (pg i)) →
  cfold (fun acc i => cbind (savePage src i) (fun b =>
           Normal (acc ++ [(pageName it i, b)]))) acc (seq a n) =
  Normal (acc ++ ((fun i => (pageName it i, pg i)) <$> seq a n)).
Proof.
  induction n as [|n IH]; intros a acc Hpg; simpl.
  - by rewrite app_nil_r.
  - rewrite Hpg by lia. simpl. rewrite IH by (intros; apply Hpg; lia).
    by rewrite <- app_assoc.
Qed.

Lemma replaceExt_inj nm e1 e2 : replaceExt nm e1 = replaceExt nm e2 → e1 = e2.
Proof. unfold replaceExt. apply String.app_inj. Qed.

Lemma pageName_inj it i j : pageName it i = pageName it j → i = j.
Proof.
  unfold pageName, String_. intros Heq%replaceExt_inj.
  apply String.app_inj, append_inj_r in Heq.
  apply (inj pretty) in Heq. lia.
Qed.

Lemma pages_NoDup it (pg : nat → bytes) n :
  NoDup (((fun i => (pageName it i, pg i)) <$> seq 0 n).*1).
Proof.
  rewrite <- list_fmap_compose.
  apply NoDup_fmap_2; [| apply NoDup_seq].
  intros i j. apply pageName_inj.
Qed.

Lemma allEntries_incl (items : list QItem) : ∀ acc es,
  cfold (fun acc it => cbind (entriesOf it) (fun es => Normal (acc ++ es)))
    acc items = Normal es →
  acc ⊆ es ∧
  ∀ it, it ∈ items → ∃ es', entriesOf it = Normal es' ∧ es' ⊆ es.
Proof.
  induction items as [|it items IH]; intros acc es Hes; simpl in Hes.
  - injection Hes as <-. split; [done |]. intros it Hin.
    by apply elem_of_nil in Hin.
  - destruct (entriesOf it) as [es1|e] eqn:E1; [|done]. simpl in Hes.
    destruct (IH _ _ Hes) as [Hacc Hall]. split.
    + intros x Hx. apply Hacc, elem_of_app. by left.
    + intros it' [->|Hin]%elem_of_cons; [| by apply Hall].
      exists es1. split; [done |].
      intros x Hx. apply Hacc, elem_of_app. by right.
Qed.

Lemma entriesOf_whole it b es :
  selected it = true → status it = ItemStatus.done → outBlob it = Some b →
  entriesOf it = Normal es → (wholeName it, blob_data b) ∈ es.
Proof.
  unfold entriesOf. intros -> -> ->. simpl.
  destruct (isPDF (file it)); [| by intros [= <-]; left].
  destruct (action (pdf it)); [by intros [= <-]; left |].
  destruct (File_arrayBuffer (file it)) as [buf|]; [|done]. simpl.
  destruct (PDFDocument_load buf) as [src|]; [|done]. simpl.
  destruct (cfold _ _ _) as [ps|]; [|done]. simpl.
  intros [= <-]. left.
Qed.

(** C5 (amended). Archive names are computed, not made unique: a converted
    item is written under [replaceExt(path, ext(target))], a page under
    [replaceExt(name, -page-n.pdf)], in queue order, into one record keyed
    by name. When no exception interrupts the assembly, the archive has
    exactly the names written, each holding the last entry written under
    it; so every output is in the archive when the names are pairwise
    distinct, and an entry is replaced when a later one has its name. *)
Theorem archive_last_write_wins (items : list QItem)
    (es : list (string * bytes)) :
  allEntries items = Normal es →
  ∃ archive,
    cfold zipItem ∅ items = Normal archive ∧
    downloadZip items =
      Normal (if decide (archive = ∅) then None else Some archive) ∧
    (∀ it b, it ∈ items → selected it = true →
       status it = ItemStatus.done → outBlob it = Some b →
       (wholeName it, blob_data b) ∈ es) ∧
    (∀ k, is_Some (archive !! k) ↔ k ∈ es.*1) ∧
    (∀ es1 k v es2, es = es1 ++ (k, v) :: es2 → k ∉ es2.*1 →
       archive !! k = Some v) ∧
    (NoDup es.*1 → ∀ k v, (k, v) ∈ es → archive !! k = Some v).
Proof.
  intros Hes. exists (writes es ∅).
  destruct (downloadZip_entries items es Hes) as [Hfold Hzip].
  split; [done |]. split; [done |]. split; [| split; [| split]].
  - intros it b Hin Hsel Hst Hb.
    destruct (allEntries_incl items [] es Hes) as [_ Hall].
    destruct (Hall it Hin) as (es' & Hes' & Hsub).
    by apply Hsub, (entriesOf_whole it b).
  - intros k. rewrite writes_is_Some, lookup_empty.
    split; [intros [?|[? ?]]; done | by left].
  - intros es1 k v es2 -> Hk. by apply writes_lookup_last.
  - intros Hnd k v Hin. by apply writes_lookup_NoDup.
Qed.

Lemma entriesOf_split it buf src (pg : nat → bytes) :
  selected it = true → isPDF (file it) = true →
  action (pdf it) = PdfAction.split →
  File_arrayBuffer (file it) = Normal buf →
  PDFDocument_load buf = Normal src →
  (∀ i, i < getPageCount src → savePage src i = Normal (pg i)) →
  entriesOf it =
    Normal (match ItemStatus.eqb (status it) ItemStatus.done, outBlob it with
            | true, Some b => [(wholeName it, blob_data b)]
            | _, _ => []
            end ++
            ((fun i => (pageName it i, pg i)) <$> seq 0 (getPageCount src))).
Proof.
  intros Hsel Hpdf Hact Hbuf Hsrc Hpg. unfold entriesOf.
  rewrite Hsel, Hpdf, Hact, Hbuf. simpl. rewrite Hsrc. simpl.
  rewrite (pages_ok it src pg) by (intros; apply Hpg; lia). done.
Qed.

(** C7 (amended). A selected PDF item with the split action and no stored
    output to archive (it is not done, or it holds no output blob), whose
    source loads with [P] pages that all save: the assembler writes for it
    exactly [P] entries, under the pairwise distinct names
    [replaceExt(name, -page-i.pdf)] for [i] from 1 to [P], and nothing
    else; alone in the queue it yields an archive of exactly these [P]
    entries (no download when [P] is 0). *)
Theorem split_pdf_entries (it : QItem) (files : gmap string bytes)
    (buf : bytes) (src : PDFDocument) (pg : nat → bytes) :
  selected it = true → isPDF (file it) = true →
  action (pdf it) = PdfAction.split →
  (status it ≠ ItemStatus.done ∨ outBlob it = None) →
  File_arrayBuffer (file it) = Normal buf →
  PDFDocument_load buf = Normal src →
  (∀ i, i < getPageCount src → savePage src i = Normal (pg i)) →
  let pages := (fun i => (pageName it i, pg i)) <$> seq 0 (getPageCount src) in
  zipItem files it = Normal (writes pages files) ∧
  length pages = getPageCount src ∧
  NoDup pages.*1 ∧
  (∀ i, i < getPageCount src →
     pageName it i =
       replaceExt (name (file it))
         ("-page-" +:+ String_ (Z.of_nat i + 1) +:+ ".pdf") ∧
     writes pages files !! pageName it i = Some (pg i)) ∧
  (∀ k, k ∉ pages.*1 → writes pages files !! k = files !! k) ∧
  downloadZip [it] =
    Normal (if decide (getPageCount src = 0) then None
            else Some (writes pages ∅)) ∧
  size (writes pages ∅) = getPageCount src.
Proof.
  intros Hsel Hpdf Hact Hout Hbuf Hsrc Hpg pages.
  pose proof (entriesOf_split it buf src pg Hsel Hpdf Hact Hbuf Hsrc Hpg) as He.
  assert (Hnone : match ItemStatus.eqb (status it) ItemStatus.done, outBlob it with
                  | true, Some b => [(wholeName it, blob_data b)]
                  | _, _ => []
                  end = []).
  { destruct Hout as [Hst| ->]; [| by destruct (ItemStatus.eqb _ _)].
    by destruct (status it). }
  rewrite Hnone in He. simpl in He. fold pages in He.
  assert (Hlen : length pages = getPageCount src).
  { unfold pages. by rewrite length_fmap, length_seq. }
  assert (Hnd : NoDup pages.*1) by apply pages_NoDup.
  assert (Hsize : size (writes pages ∅) = getPageCount src).
  { by rewrite writes_size. }
  split; [by rewrite zipItem_entries, He |].
  split; [done |]. split; [done |]. split; [| split; [| split; [| done]]].
  - intros i Hi. split; [done |]. apply writes_lookup_NoDup; [done |].
    unfold pages. apply list_elem_of_fmap. exists i. split; [done |].
    apply elem_of_seq. lia.
  - intros k Hk. by apply writes_lookup_notin.
  - destruct (downloadZip_entries [it] pages) as [_ ->].
    { unfold allEntries. simpl. by rewrite He. }
    destruct (decide (getPageCount src = 0)) as [H0|Hpos].
    + rewrite decide_True; [done |]. apply map_size_empty_iff. lia.
    + rewrite decide_False; [done |]. rewrite <- map_size_empty_iff. lia.
Qed.

(** C10. The page entries of a selected PDF item with the split action do
    not depend on its status: whatever the status (pending and error
    included) and whatever else the item holds, when its source loads and
    its pages save, the assembler writes every page entry, and each is in
    the archive the queue yields. *)
Theorem split_pages_whatever_status (it : QItem) (st : ItemStatus)
    (files : gmap string bytes) (items : list QItem)
    (buf : bytes) (src : PDFDocument) (pg : nat → bytes) :
  selected it = true → isPDF (file it) = true →
  action (pdf it) = PdfAction.split →
  File_arrayBuffer (file it) = Normal buf →
  PDFDocument_load buf = Normal src →
  (∀ i, i < getPageCount src → savePage src i = Normal (pg i)) →
  (∃ m, zipItem files (set_status st it) = Normal m ∧
        ∀ i, i < getPageCount src →
             m !! pageName (set_status st it) i = Some (pg i)) ∧
  (set_status st it ∈ items → ∀ es, allEntries items = Normal es →
   ∃ m, cfold zipItem ∅ items = Normal m ∧
        ∀ i, i < getPageCount src →
             is_Some (m !! pageName (set_status st it) i) ∧
             downloadZip items = Normal (Some m)).
Proof.
  intros Hsel Hpdf Hact Hbuf Hsrc Hpg.
  pose proof (entriesOf_split (set_status st it) buf src pg
                Hsel Hpdf Hact Hbuf Hsrc Hpg) as He.
  set (whole := match ItemStatus.eqb (status (set_status st it)) ItemStatus.done,
                      outBlob (set_status st it) with
                | true, Some b => [(wholeName (set_status st it), blob_data b)]
                | _, _ => []
                end) in He.
  set (pages := (fun i => (pageName (set_status st it) i, pg i))
                  <$> seq 0 (getPageCount src)) in He.
  assert (Hpage : ∀ i, i < getPageCount src →
            (pageName (set_status st it) i, pg i) ∈ pages).
  { intros i Hi. unfold pages. apply list_elem_of_fmap. exists i.
    split; [done |]. apply elem_of_seq. lia. }
  split.
  - exists (writes (whole ++ pages) files).
    split; [by rewrite zipItem_entries, He |].
    intros i Hi.
    destruct (list_elem_of_split _ _ (Hpage i Hi)) as (ps1 & ps2 & Hps).
    rewrite Hps, app_assoc. apply writes_lookup_last.
    pose proof (pages_NoDup (set_status st it) pg (getPageCount src)) as Hnd.
    fold pages in Hnd. rewrite Hps, fmap_app, fmap_cons in Hnd.
    apply NoDup_app in Hnd as (_ & _ & Hnd).
    by apply NoDup_cons in Hnd as [? _].
  - intros Hin es Hes. exists (writes es ∅).
    destruct (downloadZip_entries items es Hes) as [Hfold Hzip].
    split; [done |]. intros i Hi.
    destruct (allEntries_incl items [] es Hes) as [_ Hall].
    destruct (Hall _ Hin) as (es' & Hes' & Hsub).
    rewrite He in Hes'. injection Hes' as <-.
    assert (Hk : pageName (set_status st it) i ∈ es.*1).
    { apply list_elem_of_fmap. exists (pageName (set_status st it) i, pg i).
      split; [done |]. apply Hsub, elem_of_app. right. by apply Hpage. }
    assert (Hsome : is_Some (writes es ∅ !! pageName (set_status st it) i)).
    { apply writes_is_Some. by left. }
    split; [done |]. rewrite Hzip, decide_False; [done |].
    intros Hempty. rewrite Hempty, lookup_empty in Hsome.
    by destruct Hsome.
Qed.
End Archive.

Lemma archive_last_write_wins_witness :
  ∃ archive,
    downloadZip (H := Sim.browser) Sim.twoImages = Normal (Some archive) ∧
    archive !! "a.jpg" = Some (Sim.content (Sim.png "a.png")) ∧
    archive !! "b.jpg" = Some (Sim.content (Sim.png "b.png")).
Proof.
  assert (Hes : allEntries (H := Sim.browser) Sim.twoImages =
                Normal [("a.jpg", Sim.content (Sim.png "a.png"));
                        ("b.jpg", Sim.content (Sim.png "b.png"))]).
  { vm_compute. reflexivity. }
  destruct (archive_last_write_wins Sim.twoImages _ Hes)
    as (archive & _ & Hzip & _ & Hdom & _ & Hall).
  exists archive.
  assert (Hnd : NoDup ["a.jpg"; "b.jpg"]).
  { apply (bool_decide_unpack _). vm_compute. exact I. }
  assert (Ha : archive !! "a.jpg" = Some (Sim.content (Sim.png "a.png"))).
  { apply (Hall Hnd). left. }
  split; [| split; [exact Ha | apply (Hall Hnd); right; left]].
  rewrite Hzip. destruct (decide (archive = ∅)) as [Hempty|]; [| done].
  rewrite Hempty, lookup_empty in Ha. discriminate Ha.
Defined.

(** C5, as stated, fails: [a.png] and [a.gif], both converted to JPEG, are
    both written under [a.jpg], and the archive keeps only the second. *)
Lemma archive_name_collision :
  (fun it => (selected it, status it, wholeName it)) <$> Sim.sameStem =
    [(true, ItemStatus.done, "a.jpg"); (true, ItemStatus.done, "a.jpg")] ∧
  (fun it => blob_data <$> outBlob it) <$> Sim.sameStem =
    [Some (Sim.content (Sim.png "a.png"));
     Some (Sim.content (Sim.mkFile "a.gif" "image/gif"))] ∧
  match downloadZip (H := Sim.browser) Sim.sameStem with
  | Normal (Some archive) => map_to_list archive
  | _ => []
  end = [("a.jpg", Sim.content (Sim.mkFile "a.gif" "image/gif"))].
Proof. by vm_compute. Qed.

Lemma split_pdf_entries_witness :
  downloadZip (H := Sim.browser) [Sim.pendingSplit] =
    Normal (Some (writes [("doc-page-1.pdf", Sim.page 0);
                          ("doc-page-2.pdf", Sim.page 1);
                          ("doc-page-3.pdf", Sim.page 2)] ∅)).
Proof.
  destruct (split_pdf_entries (H := Sim.browser) Sim.pendingSplit ∅
              (Sim.content Sim.docPdf) 3 Sim.page)
    as (_ & _ & _ & _ & _ & Hzip & _).
  - reflexivity.
  - reflexivity.
  - reflexivity.
  - left. discriminate.
  - reflexivity.
  - reflexivity.
  - intros i _. reflexivity.
  - exact Hzip.
Defined.

(** C7, as stated, fails: a PDF converted with "keep", then switched to
    "split pages", is archived as its three pages and as the whole
    document. *)
Lemma split_pdf_keeps_whole_document :
  (fun it => (selected it, isPDF (file it), action (pdf it), status it))
    <$> Sim.keptThenSplit =
    [(true, true, PdfAction.split, ItemStatus.done)] ∧
  match downloadZip (H := Sim.browser) Sim.keptThenSplit with
  | Normal (Some archive) =>
      (size archive, archive !! "doc.pdf", archive !! "doc-page-1.pdf")
  | _ => (0, None, None)
  end = (4, Some (Sim.content Sim.docPdf), Some (Sim.page 0)).
Proof. by vm_compute. Qed.

Lemma split_pages_whatever_status_witness :
  ∃ m, zipItem (H := Sim.browser) ∅
         (set_status ItemStatus.error Sim.pendingSplit) = Normal m ∧
       m !! "doc-page-3.pdf" = Some (Sim.page 2).
Proof.
  destruct (split_pages_whatever_status (H := Sim.browser) Sim.pendingSplit
              ItemStatus.error ∅ [] (Sim.content Sim.docPdf) 3 Sim.page)
    as [(m & Hm & Hpages) _].
  - reflexivity.
  - reflexivity.
  - reflexivity.
  - reflexivity.
  - reflexivity.
  - intros i _. reflexivity.
  - exists m. split; [exact Hm |]. apply (Hpages 2). simpl. lia.
Defined.

(** ** Targets along the life of a queue *)

Section Targets.
Context `{Browser}.
Implicit Types (it x : QItem) (items : list QItem).

Lemma inferTargets_cases ty nm :
  inferTargets ty nm = ["image/jpeg"] ∨ inferTargets ty nm = IMAGE_TARGETS ∨
  inferTargets ty nm = AUDIO_TARGETS ∨ inferTargets ty nm = VIDEO_TARGETS ∨
  inferTargets ty nm = ["application/pdf"] ∨ inferTargets ty nm = [].
Proof.
  unfold inferTargets.
  repeat match goal with
         | |- context [if ?b then _ else _] => destruct b
         end; tauto.
Qed.

(** The default target of [addFiles] is an option of the selector. *)
Lemma default_target_offered ty nm :
  let ts := inferTargets ty nm in
  orElse (head ts) "image/webp" ∈
    (if (0 <? length ts)%nat then ts
     else IMAGE_TARGETS ++ AUDIO_TARGETS ++ VIDEO_TARGETS ++ ["application/pdf"]).
Proof.
  intros ts. unfold ts.
  destruct (inferTargets_cases ty nm) as [-> | [-> | [-> | [-> | [-> | ->]]]]];
    simpl; set_solver.
Qed.

Lemma newItem_spec f idx s :
  ∃ it s', newItem f idx s = (Normal it, s') ∧ file it = f ∧
           target it = orElse (head (inferTargets (type f) (name f))) "image/webp" ∧
           status it = ItemStatus.pending ∧ selected it = true ∧
           outBlob it = None.
Proof.
  unfold newItem, bind, liftW, ret.
  destruct (Date_now (world s)) as [now w1]. simpl.
  destruct (Math_random36 w1) as [r w2]. simpl.
  eexists _, _. repeat split.
Qed.

Lemma mapItems_spec fs : ∀ idx s,
  ∃ its s', mapItems fs idx s = (Normal its, s') ∧ file <$> its = fs ∧
    Forall (fun it =>
              target it = orElse (head (inferTargets (type (file it))
                                          (name (file it)))) "image/webp" ∧
              status it = ItemStatus.pending ∧ selected it = true ∧
              outBlob it = None) its.
Proof.
  induction fs as [|f fs IH]; intros idx s; simpl.
  - by exists [], s.
  - destruct (newItem_spec f idx s) as (it & s1 & Hnew & Hf & Ht & Hrest).
    destruct (IH (S idx) s1) as (its & s2 & Hmap & Hfs & Hall).
    exists (it :: its), s2. unfold bind at 1. rewrite Hnew.
    unfold bind at 1. rewrite Hmap. split; [done |].
    split; [by rewrite fmap_cons, Hf, Hfs |].
    constructor; [| done]. by rewrite Hf.
Qed.

Lemma addFiles_spec files prev s :
  ∃ mapped s', addFiles files prev s = (Normal (prev ++ mapped), s') ∧
    file <$> mapped = files ∧
    Forall (fun it =>
              target it = orElse (head (inferTargets (type (file it))
                                          (name (file it)))) "image/webp" ∧
              status it = ItemStatus.pending ∧ selected it = true ∧
              outBlob it = None) mapped.
Proof.
  destruct (mapItems_spec files 0 s) as (its & s' & Hmap & Hfs & Hall).
  exists its, s'. unfold addFiles, bind. by rewrite Hmap.
Qed.

Lemma targetOptions_file x x' : file x' = file x → targetOptions x' = targetOptions x.
Proof. unfold targetOptions. by intros ->. Qed.

Lemma applyEdit_ids e items : id <$> applyEdit e items = id <$> items.
Proof.
  destruct e; simpl; unfold updateById; rewrite <- ?list_fmap_compose;
    apply list_fmap_ext; intros ? x _; simpl;
    try destruct (String.eqb _ _); done.
Qed.

Lemma applyEdit_offered e items :
  offered e items → Forall targetOffered items →
  Forall targetOffered (applyEdit e items).
Proof.
  intros Hoff Hall. rewrite Forall_forall in Hall.
  destruct e; simpl in *; unfold updateById; apply Forall_fmap, Forall_forall;
    intros x Hx; simpl; pose proof (Hall x Hx) as Hok;
    try (destruct (String.eqb_spec (id x) i)); try done.
  apply (Hoff x Hx e).
Qed.

Lemma forced_jpeg_offered x :
  isHeic (file x) = true → "image/jpeg" ∈ targetOptions x.
Proof.
  unfold isHeic, targetOptions, inferTargets. intros Hh.
  destruct (endsWith _ ".heic"); [simpl; set_solver |].
  destruct (endsWith _ ".heif"); [simpl; set_solver |].
  rewrite !orb_false_r in Hh. apply orb_true_iff in Hh.
  destruct Hh as [->%String.eqb_eq | ->%String.eqb_eq]; simpl; set_solver.
Qed.

Lemma forced_webm_offered x :
  isHeic (file x) = false → startsWith (type (file x)) "image/" = false →
  isAudio (file x) = false → isVideo (file x) = true →
  "video/webm" ∈ targetOptions x.
Proof.
  unfold isHeic, isAudio, isVideo, targetOptions, inferTargets.
  intros Hh -> -> ->.
  apply orb_false_iff in Hh as [Hh ->]. apply orb_false_iff in Hh as [_ ->].
  simpl. set_solver.
Qed.

Lemma Succeeded_offered x x' :
  Succeeded x x' → targetOffered x → targetOffered x'.
Proof.
  intros ((_ & _ & Hf & _) & _ & _ & Ht) Hok. unfold targetOffered.
  rewrite (targetOptions_file x x' Hf).
  destruct Ht as [-> | [(-> & _ & Hh) | (-> & _ & Hh & Hi & Ha & Hv)]].
  - done.
  - by apply forced_jpeg_offered.
  - by apply forced_webm_offered.
Qed.

Lemma convertAll_offered items s :
  NoDup (id <$> items) → Forall targetOffered items →
  id <$> next (convertAll items s) = id <$> items ∧
  Forall targetOffered (next (convertAll items s)).
Proof.
  intros Hnd Hall. rewrite convertAll_unfold.
  destruct (loop_spec (length (workOf items)) (workOf items) (initial items s))
    as (cs & _ & Hids & Hout & Hin & _);
    [done | done | apply NoDup_workOf | apply workOf_lt |].
  split; [done |]. simpl in *.
  apply Forall_lookup. intros p x' Hx'.
  assert (Hlen : length (next (foldl (iteration (length (workOf items)))
                                 (initial items s) (workOf items)))
                 = length items).
  { by rewrite <- (length_fmap id), Hids, length_fmap. }
  destruct (lookup_lt_is_Some_2 items p) as [x Hx].
  { rewrite <- Hlen. by eapply lookup_lt_Some. }
  pose proof (proj1 (Forall_lookup _ _) Hall p x Hx) as Hok.
  destruct (decide (p ∈ workOf items)) as [Hp|Hp].
  - destruct (Hin p x Hp Hx) as (x'' & Hx'' & Hres).
    rewrite Hx' in Hx''. injection Hx'' as <-.
    destruct Hres as [Hs|(e & _ & ->)]; [by eapply Succeeded_offered | done].
  - rewrite (Hout p Hp), Hx in Hx'. by injection Hx' as <-.
Qed.

Lemma lifecycle_invariant items :
  lifecycle items → NoDup (id <$> items) ∧ Forall targetOffered items.
Proof.
  induction 1 as [| items files s items' s' _ [Hnd Hall] Hadd Hnd'
                  | items e _ [Hnd Hall] Hoff
                  | items s _ [Hnd Hall]
                  | items _ _].
  - split; [constructor | constructor].
  - split; [done |].
    destruct (addFiles_spec files items s) as (mapped & s1 & Heq & _ & Hnew).
    rewrite Heq in Hadd. injection Hadd as <- _.
    apply Forall_app. split; [done |].
    eapply Forall_impl; [exact Hnew |]. intros x (Ht & _).
    unfold targetOffered, targetOptions. rewrite Ht.
    apply default_target_offered.
  - split; [by rewrite applyEdit_ids | by apply applyEdit_offered].
  - destruct (convertAll_offered items s Hnd Hall) as [Hids Hall'].
    split; [by rewrite Hids | done].
  - split; constructor.
Qed.

(** C4 (amended). [addFiles] gives every new item the first valid target of
    its file, or [image/webp] when the classifier has none for it. From
    then on, in every queue the component can hold (ids pairwise
    distinct), the target of every item is one of the options its selector
    shows: a valid target of the classifier for a supported file (the
    targets forced by a conversion, [image/jpeg] and [video/webm], are
    among them), and any of the ten known targets for an unsupported
    file. *)
Theorem target_validity (items : list QItem) :
  lifecycle items →
  (∀ files prev s, ∃ mapped s',
      addFiles files prev s = (Normal (prev ++ mapped), s') ∧
      file <$> mapped = files ∧
      Forall (fun it =>
                target it = orElse (head (inferTargets (type (file it))
                                            (name (file it)))) "image/webp")
             mapped) ∧
  ∀ it, it ∈ items →
    target it ∈ targetOptions it ∧
    (inferTargets (type (file it)) (name (file it)) ≠ [] →
     target it ∈ inferTargets (type (file it)) (name (file it))) ∧
    (inferTargets (type (file it)) (name (file it)) = [] →
     target it ∈ IMAGE_TARGETS ++ AUDIO_TARGETS ++ VIDEO_TARGETS
                 ++ ["application/pdf"]).
Proof.
  intros [_ Hall]%lifecycle_invariant. split.
  - intros files prev s.
    destruct (addFiles_spec files prev s) as (mapped & s' & Heq & Hf & Hnew).
    exists mapped, s'. split; [done |]. split; [done |].
    eapply Forall_impl; [exact Hnew |]. by intros x (Ht & _).
  - intros it Hin. rewrite Forall_forall in Hall.
    pose proof (Hall it Hin) as Hok. split; [done |].
    unfold targetOffered, targetOptions in Hok.
    destruct (inferTargets (type (file it)) (name (file it))) as [|t ts];
      simpl in Hok; split; done.
Qed.
End Targets.

Lemma target_validity_witness :
  Forall (fun it => target it ∈ inferTargets (type (file it)) (name (file it)))
    Sim.media.
Proof.
  set (files := [Sim.mkFile "clip.mov" "video/quicktime";
                 Sim.mkFile "IMG_7.HEIC" EmptyString]).
  assert (Hadd : ∃ s', addFiles files [] Sim.start
                       = (Normal (Sim.enqueue files), s')).
  { destruct (addFiles_spec files [] Sim.start) as (mapped & s' & Heq & _).
    exists s'. unfold Sim.enqueue. by rewrite Heq. }
  destruct Hadd as [s' Hadd].
  assert (Hlife : lifecycle (H := Sim.browser) Sim.media).
  { apply lc_convertAll.
    apply (lc_addFiles [] files Sim.start (Sim.enqueue files) s').
    - apply lc_empty.
    - exact Hadd.
    - apply (bool_decide_unpack _). vm_compute. exact I. }
  destruct (target_validity Sim.media Hlife) as [_ Hall].
  assert (Hsupported :
            Forall (fun it => inferTargets (type (file it)) (name (file it)) ≠ [])
              Sim.media).
  { apply (bool_decide_unpack _). vm_compute. exact I. }
  rewrite Forall_forall in Hsupported.
  apply Forall_forall. intros it Hin.
  destruct (Hall it Hin) as (_ & Hsupp & _). apply Hsupp, Hsupported, Hin.
Defined.

(** C4, as stated, fails right after [addFiles]: a file the classifier does
    not support is enqueued with the target [image/webp], which is not in
    its (empty) list of valid targets. *)
Lemma unsupported_file_default_target :
  (fun it => (target it, inferTargets (type (file it)) (name (file it))))
    <$> Sim.unsupported = [("image/webp", [])] ∧
  ¬ Forall (fun it => target it ∈ inferTargets (type (file it)) (name (file it)))
      Sim.unsupported.
Proof.
  split; [by vm_compute |].
  intros Hall.
  assert (Hone : ∃ it, Sim.unsupported = [it] ∧ target it = "image/webp" ∧
                       inferTargets (type (file it)) (name (file it)) = []).
  { eexists. split; [vm_compute; reflexivity | split; reflexivity]. }
  destruct Hone as (it & Heq & Ht & Hi). rewrite Heq in Hall.
  apply Forall_cons in Hall as [Hin _]. rewrite Hi in Hin.
  by apply elem_of_nil in Hin.
Qed.

(** ** Audio flags *)

Section Digits.
Lemma pretty_N_char_digit d : isDigit (pretty_N_char d) = true.
Proof. unfold pretty_N_char. by repeat case_match. Qed.

Lemma pretty_N_go_head x : ∀ s,
  (0 < x)%N → ∃ d rest, pretty_N_go x s = String (pretty_N_char d) rest.
Proof.
  induction (N.lt_wf_0 x) as [x _ IH]; intros s Hx.
  rewrite pretty_N_go_step by done.
  destruct (decide (x `div` 10 = 0)%N) as [->|Hne].
  - rewrite pretty_N_go_0. by eexists _, _.
  - apply IH; [apply N.div_lt; lia | by apply N.neq_0_lt_0].
Qed.

Lemma pretty_N_head (x : N) : ∃ c rest, pretty x = String c rest ∧ isDigit c = true.
Proof.
  unfold pretty, pretty_N. destruct (decide (x = 0)%N) as [->|Hne].
  - by exists "0"%char, EmptyString.
  - destruct (pretty_N_go_head x EmptyString) as (d & rest & ->); [lia |].
    exists (pretty_N_char d), rest. split; [done | apply pretty_N_char_digit].
Qed.

(** [String(n)] is never one of the option flags. *)
Lemma String__not_flag (z : Z) (c : ascii) (rest : string) :
  isDigit c = false → String_ z ≠ String "-" (String c rest).
Proof.
  intros Hc. unfold String_, pretty, pretty_Z. destruct z as [|p|p].
  - done.
  - destruct (pretty_N_head (Npos p)) as (c' & rest' & Heq & Hd).
    unfold pretty, pretty_positive. rewrite Heq. intros [= -> _]. done.
  - destruct (pretty_N_head (Npos p)) as (c' & rest' & Heq & Hd).
    unfold pretty, pretty_positive. rewrite Heq.
    intros [= -> _]. congruence.
Qed.
End Digits.

Section Audio.
Context `{Browser}.
Implicit Types (s : St) (opts : AudioOpts).

Lemma convertAudio_split file target opts s :
  convertAudio file target opts s =
  bind (prepareAudio file) (fun inName => encodeAudio inName target opts) s.
Proof.
  unfold convertAudio, prepareAudio, encodeAudio, bind.
  destruct (getFF s) as [[[]|e] s1]; [|done].
  destruct (liftW Math_random36 s1) as [[r|e] s2]; [|done].
  destruct (liftC (fetchFile file) s2) as [[buf|e] s3]; [|done].
  destruct (core _ _ s3) as [[[]|e] s4]; done.
Qed.

Lemma getFF_calls s :
  ∃ pre, calls (getFF s).2 = calls s ++ pre ∧ ∀ args, Cexec args ∉ pre.
Proof.
  unfold getFF. destruct (_ff s).
  - exists []. split; [by rewrite app_nil_r | intros args; apply not_elem_of_nil].
  - unfold core. simpl. destruct (FFmpeg_load (world s)) as [c w]. simpl.
    exists [Cload]. split; [done |]. intros args Hin.
    apply list_elem_of_singleton in Hin. discriminate.
Qed.

(** The preparation makes no [exec] call. *)
Lemma prepareAudio_calls file s :
  ∃ pre, calls (prepareAudio file s).2 = calls s ++ pre ∧
         ∀ args, Cexec args ∉ pre.
Proof.
  unfold prepareAudio, bind, liftW, liftC, core, ret.
  destruct (getFF_calls s) as (pre & Hpre & Hno).
  destruct (getFF s) as [[[]|e] s1]; simpl in Hpre; [| by exists pre].
  destruct (Math_random36 (world s1)) as [r w2]. simpl.
  destruct (fetchFile file) as [buf|e]; simpl; [| by exists pre].
  destruct (FFmpeg_writeFile _ buf w2) as [[[]|e] w3]; simpl;
    rewrite Hpre, <- app_assoc;
    (eexists; split; [done |]);
    intros args [Hin|Hin%list_elem_of_singleton]%elem_of_app;
    try discriminate; by apply (Hno args).
Qed.

Lemma prepareAudio_name file s inName s1 :
  prepareAudio file s = (Normal inName, s1) → ∃ r, inName = "in_" +:+ r.
Proof.
  unfold prepareAudio, bind, liftW, liftC, core, ret.
  destruct (getFF s) as [[[]|e] s0]; [|done].
  destruct (Math_random36 (world s0)) as [r w2]. simpl.
  destruct (fetchFile file) as [buf|e]; simpl; [|done].
  destruct (FFmpeg_writeFile _ buf w2) as [[[]|e] w3]; simpl; [|done].
  intros [= <- _]. by eexists.
Qed.

Lemma no_exec_filter (l : list Call) :
  (∀ args, Cexec args ∉ l) → List.filter isExec l = [].
Proof.
  induction l as [|c l IH]; intros Hno; [done |]. simpl.
  destruct c; simpl;
    try (apply IH; intros args Hin; apply (Hno args); by right).
  exfalso. apply (Hno args). left.
Qed.

Lemma exec_in_filter (l : list Call) args :
  Cexec args ∈ l → Cexec args ∈ List.filter isExec l.
Proof.
  rewrite !list_elem_of_In, filter_In. by intros Hin.
Qed.

(** Reading the result back and cleaning up make no [exec] call. *)
Lemma finish_calls inName out target s :
  ∃ post,
    calls ((data <- core (CreadFile out) (FFmpeg_readFile out) ;;
            try_catch (core (Cunlink inName) (FFmpeg_unlink inName) ;;;
                       core (Cunlink out) (FFmpeg_unlink out))
                      (fun _ => ret tt) ;;;
            ret {| blob_data := data; blob_type := target |}) s).2
    = calls s ++ post ∧
    ∀ args, Cexec args ∉ post.
Proof.
  unfold bind, try_catch, core, ret.
  destruct (FFmpeg_readFile out (world s)) as [[data|e] w1]; simpl.
  2:{ exists [CreadFile out]. split; [done |].
      intros args Hin%list_elem_of_singleton. discriminate. }
  destruct (FFmpeg_unlink inName w1) as [[[]|e] w2]; simpl.
  2:{ exists [CreadFile out; Cunlink inName].
      split; [by rewrite <- app_assoc |].
      intros args Hin. repeat (apply elem_of_cons in Hin as [Hin|Hin];
                               [discriminate |]).
      by apply elem_of_nil in Hin. }
  destruct (FFmpeg_unlink out w2) as [[[]|e] w3]; simpl;
    (exists [CreadFile out; Cunlink inName; Cunlink out];
     split; [by rewrite <- !app_assoc |];
     intros args Hin;
     repeat (apply elem_of_cons in Hin as [Hin|Hin]; [discriminate |]);
     by apply elem_of_nil in Hin).
Qed.

Lemma exec_finish inName args out target s :
  ∃ new,
    calls ((o <- (core (Cexec args) (FFmpeg_exec args) ;;; ret out) ;;
            data <- core (CreadFile o) (FFmpeg_readFile o) ;;
            try_catch (core (Cunlink inName) (FFmpeg_unlink inName) ;;;
                       core (Cunlink o) (FFmpeg_unlink o))
                      (fun _ => ret tt) ;;;
            ret {| blob_data := data; blob_type := target |}) s).2
    = calls s ++ new ∧
    List.filter isExec new = [Cexec args].
Proof.
  unfold bind at 1 2. unfold core at 1. unfold ret at 1.
  destruct (FFmpeg_exec args (world s)) as [[[]|e] w1]; simpl.
  - match goal with
    | |- context [calls (?c ?s1).2] =>
        destruct (finish_calls inName out target s1) as (post & Hpost & Hno)
    end.
    rewrite Hpost. simpl. exists (Cexec args :: post).
    split; [by rewrite <- app_assoc |].
    simpl. by rewrite no_exec_filter.
  - by exists [Cexec args].
Qed.

(** The invocation made for each target. *)
Lemma encodeAudio_calls inName target opts s :
  ∃ new,
    calls (encodeAudio inName target opts s).2 = calls s ++ new ∧
    ((target ∈ AUDIO_TARGETS ∧
      List.filter isExec new =
        [Cexec (baseArgs inName opts ++
                (if String.eqb target "audio/mpeg" then
                   match mode opts with
                   | VBR => ["-c:a"; "libmp3lame"; "-q:a"; String_ (vbrq opts); "out.mp3"]
                   | CBR => ["-c:a"; "libmp3lame"; "-b:a"; String_ (kbps opts) +:+ "k"; "out.mp3"]
                   end
                 else if String.eqb target "audio/aac" then
                   ["-c:a"; "aac"; "-b:a"; String_ (kbps opts) +:+ "k";
                    "-f"; "mp4"; "-movflags"; "+faststart"; "out.m4a"]
                 else if String.eqb target "audio/wav" then
                   ["-c:a"; "pcm_s16le"; "out.wav"]
                 else
                   ["-c:a"; "libopus"; "-b:a"; String_ (kbps opts) +:+ "k";
                    if String.eqb target "audio/opus" then "out.opus" else "out.ogg"]))])
     ∨
     ((target ∉ AUDIO_TARGETS) ∧ new = [] ∧
      (encodeAudio inName target opts s).1 = Throw (Error "Unsupported audio target"))).
Proof.
  unfold encodeAudio.
  destruct (String.eqb_spec target "audio/mpeg") as [->|Hmp3].
  { destruct (mode opts); cbv beta iota zeta;
      match goal with
      | |- context [core (Cexec ?a) _] =>
          destruct (exec_finish inName a "out.mp3" "audio/mpeg" s)
            as (new & Hnew & Hf)
      end;
      (exists new; split; [exact Hnew |]; left; split; [set_solver | exact Hf]). }
  destruct (String.eqb_spec target "audio/aac") as [->|Haac].
  { cbv beta iota zeta.
    match goal with
    | |- context [core (Cexec ?a) _] =>
        destruct (exec_finish inName a "out.m4a" "audio/aac" s)
          as (new & Hnew & Hf)
    end.
    exists new. split; [exact Hnew |]. left. split; [set_solver | exact Hf]. }
  destruct (String.eqb_spec target "audio/ogg") as [->|Hogg].
  { cbv beta iota zeta.
    destruct (exec_finish inName
                (baseArgs inName opts ++
                 ["-c:a"; "libopus"; "-b:a"; String_ (kbps opts) +:+ "k"; "out.ogg"])
                "out.ogg" "audio/ogg" s) as (new & Hnew & Hf).
    exists new. split; [exact Hnew |]. left. split; [set_solver | exact Hf]. }
  destruct (String.eqb_spec target "audio/opus") as [->|Hopus].
  { cbv beta iota zeta.
    destruct (exec_finish inName
                (baseArgs inName opts ++
                 ["-c:a"; "libopus"; "-b:a"; String_ (kbps opts) +:+ "k"; "out.opus"])
                "out.opus" "audio/opus" s) as (new & Hnew & Hf).
    exists new. split; [exact Hnew |]. left. split; [set_solver | exact Hf]. }
  destruct (String.eqb_spec target "audio/wav") as [->|Hwav].
  { cbv beta iota zeta.
    destruct (exec_finish inName
                (baseArgs inName opts ++ ["-c:a"; "pcm_s16le"; "out.wav"])
                "out.wav" "audio/wav" s) as (new & Hnew & Hf).
    exists new. split; [exact Hnew |]. left. split; [set_solver | exact Hf]. }
  exists []. split; [by rewrite app_nil_r |]. right.
  split; [| done]. unfold AUDIO_TARGETS.
  rewrite !not_elem_of_cons. repeat split; try done. apply not_elem_of_nil.
Qed.

Local Ltac no_flag :=
  rewrite !not_elem_of_cons; repeat split;
  first [ done
        | apply not_elem_of_nil
        | discriminate
        | (let Heq := fresh in
           intros Heq; symmetry in Heq; revert Heq; by apply String__not_flag) ].

(** C8. Every [exec] call of an audio conversion starts with the input, the
    sample rate and the channel count. For MP3 in VBR mode the call uses
    [-q:a] with the quality index and no [-b:a]; for WAV it uses
    [pcm_s16le] with neither [-b:a] nor [-q:a]. A target outside the five
    audio targets throws and makes no [exec] call. Whenever the
    preparation (engine, scratch name, input write) completes, a supported
    target leads to exactly one [exec] call and an unsupported one to the
    error "Unsupported audio target". *)
Theorem convertAudio_flags (file : File) (target : string) (opts : AudioOpts)
    (s : St) :
  ∃ new,
    calls (convertAudio file target opts s).2 = calls s ++ new ∧
    (∀ args, Cexec args ∈ new →
       ∃ inName codec,
         args = ["-i"; inName; "-ar"; String_ (rate opts);
                 "-ac"; String_ (ch opts)] ++ codec) ∧
    (target = "audio/mpeg" → mode opts = VBR →
     ∀ args, Cexec args ∈ new →
       (∃ inName, args = baseArgs inName opts ++
                    ["-c:a"; "libmp3lame"; "-q:a"; String_ (vbrq opts); "out.mp3"]) ∧
       ("-q:a" ∈ args) ∧ ("-b:a" ∉ args)) ∧
    (target = "audio/wav" →
     ∀ args, Cexec args ∈ new →
       (∃ inName, args = baseArgs inName opts ++ ["-c:a"; "pcm_s16le"; "out.wav"]) ∧
       ("-b:a" ∉ args) ∧ ("-q:a" ∉ args)) ∧
    ((target ∉ AUDIO_TARGETS) →
     (∃ e, (convertAudio file target opts s).1 = Throw e) ∧
     ∀ args, Cexec args ∉ new) ∧
    (∀ inName s1, prepareAudio file s = (Normal inName, s1) →
       (target ∈ AUDIO_TARGETS → ∃ args, List.filter isExec new = [Cexec args]) ∧
       (target ∉ AUDIO_TARGETS →
        (convertAudio file target opts s).1
          = Throw (Error "Unsupported audio target"))).
Proof.
  rewrite convertAudio_split. unfold bind.
  destruct (prepareAudio_calls file s) as (pre & Hpre & Hnopre).
  destruct (prepareAudio file s) as [[inName|e] s1] eqn:Hprep; simpl in Hpre.
  2:{ exists pre. split; [done |].
      split; [intros args Hin; by destruct (Hnopre args) |].
      split; [intros _ _ args Hin; by destruct (Hnopre args) |].
      split; [intros _ args Hin; by destruct (Hnopre args) |].
      split; [intros _; split; [by exists e | done] |].
      intros inName' s1' [=]. }
  destruct (prepareAudio_name file s inName s1 Hprep) as [r Hname].
  destruct (encodeAudio_calls inName target opts s1) as (new & Hnew & Hcase).
  exists (pre ++ new). split; [by rewrite Hnew, Hpre, app_assoc |].
  assert (Hexec : ∀ args, Cexec args ∈ pre ++ new →
                    Cexec args ∈ List.filter isExec new).
  { intros args [Hin|Hin]%elem_of_app; [by destruct (Hnopre args) |].
    by apply exec_in_filter. }
  assert (Hfilter : List.filter isExec (pre ++ new) = List.filter isExec new).
  { by rewrite List.filter_app, (no_exec_filter pre). }
  change ("in_" +:+ r) with (String "i" (String "n" (String "_" r))) in Hname.
  destruct Hcase as [[Hsupp Hf] | (Hunsupp & -> & Hthrow)].
  - rewrite Hf in Hexec.
    split; [| split; [| split; [| split]]].
    + intros args [= ->]%Hexec%list_elem_of_singleton.
      exists inName. eexists. unfold baseArgs. reflexivity.
    + intros -> Hmode args [= ->]%Hexec%list_elem_of_singleton.
      rewrite Hmode. simpl.
      split; [by exists inName |]. split.
      * repeat first [apply list_elem_of_here | apply list_elem_of_further].
      * rewrite Hname. no_flag.
    + intros -> args [= ->]%Hexec%list_elem_of_singleton. simpl.
      split; [by exists inName |].
      rewrite Hname. split; no_flag.
    + intros Hno. done.
    + intros inName' s1' _. split; [| done].
      intros _. rewrite Hfilter, Hf. by eexists.
  - rewrite app_nil_r in *.
    split; [intros args Hin; by destruct (Hnopre args) |].
    split.
    { intros -> _. exfalso. apply Hunsupp. left. }
    split.
    { intros ->. exfalso. apply Hunsupp. by do 4 right; left. }
    split; [intros _; split; [by eexists | done] |].
    intros inName' s1' _. split; [done | by intros _].
Qed.
End Audio.

Lemma convertAudio_flags_witness :
  List.filter isExec (calls (convertAudio Sim.song "audio/mpeg" Sim.vbr2 Sim.start).2)
    = [Cexec ["-i"; "in_k0x9f3a7"; "-ar"; "44100"; "-ac"; "2";
              "-c:a"; "libmp3lame"; "-q:a"; "2"; "out.mp3"]] ∧
  (convertAudio Sim.song "audio/flac" Sim.vbr2 Sim.start).1
    = Throw (Error "Unsupported audio target").
Proof.
  split; [vm_compute; reflexivity |].
  destruct (convertAudio_flags Sim.song "audio/flac" Sim.vbr2 Sim.start)
    as (new & _ & _ & _ & _ & _ & Hprep).
  destruct (Hprep "in_k0x9f3a7" Sim.prepared) as [_ Hthrow].
  { reflexivity. }
  apply Hthrow. apply (bool_decide_unpack _). vm_compute. exact I.
Defined.

(** ** File sizes *)

Section Human.
Implicit Types (size d : Z) (q : Q).

Lemma inject_Z_nonzero d : (0 < d)%Z → ¬ inject_Z d == 0.
Proof.
  intros Hd Hz. change 0%Q with (inject_Z 0) in Hz.
  apply (proj1 (inject_Z_injective d 0)) in Hz. lia.
Qed.

(** A quotient [size / d] divided by 1024 once more. *)
Lemma ratio_div size d q :
  (0 < d)%Z → q == inject_Z size / inject_Z d →
  q / inject_Z 1024 == inject_Z size / inject_Z (d * 1024).
Proof.
  intros Hd ->. rewrite inject_Z_mult. field.
  apply inject_Z_nonzero; lia.
Qed.

Lemma ratio_ge_1024 size d q :
  (0 < d)%Z → q == inject_Z size / inject_Z d →
  Qle_bool (inject_Z 1024) q = (1024 * d <=? size)%Z.
Proof.
  intros Hd Hq. rewrite Hq.
  assert (Hpos : (0 < inject_Z d)%Q).
  { change 0%Q with (inject_Z 0). rewrite <- Zlt_Qlt. lia. }
  destruct (1024 * d <=? size)%Z eqn:E.
  - apply Z.leb_le in E. apply Qle_bool_iff, Qle_shift_div_l; [done |].
    rewrite <- inject_Z_mult, <- Zle_Qle. lia.
  - apply Z.leb_gt in E. apply not_true_is_false. intros Hle%Qle_bool_iff.
    apply (Qmult_le_compat_r _ _ (inject_Z d)) in Hle; [| by apply Qlt_le_weak].
    unfold Qdiv in Hle. rewrite <- Qmult_assoc, (Qmult_comm (/ _)) in Hle.
    rewrite Qmult_inv_r, Qmult_1_r in Hle by (by apply inject_Z_nonzero).
    rewrite <- inject_Z_mult, <- Zle_Qle in Hle. lia.
Qed.

(** The integer nearest to ten times [size / d]. *)
Lemma ratio_tenths size d q :
  (0 < d)%Z → q == inject_Z size / inject_Z d →
  Qfloor (q * inject_Z 10 + (1 # 2)) = ((20 * size + d) / (2 * d))%Z.
Proof.
  intros Hd Hq. rewrite Zdiv_Qdiv. apply Qfloor_comp. rewrite Hq.
  rewrite inject_Z_plus, !inject_Z_mult. field.
  apply inject_Z_nonzero; lia.
Qed.

Lemma round_integer size :
  Qfloor (inject_Z size * inject_Z 1 + (1 # 2)) = size.
Proof.
  transitivity ((2 * size + 1) / 2)%Z.
  - rewrite Zdiv_Qdiv. apply Qfloor_comp.
    rewrite inject_Z_plus, !inject_Z_mult. field.
  - symmetry. apply (Z.div_unique _ 2 size 1); lia.
Qed.

Lemma toFixed_0 size : toFixed (inject_Z size) 0 = String_ size.
Proof. unfold toFixed. cbn [Z.of_nat Z.pow]. by rewrite round_integer. Qed.

Lemma toFixed_1 size d q :
  (0 < d)%Z → q == inject_Z size / inject_Z d →
  toFixed q 1 = tenths size d.
Proof.
  intros Hd Hq. unfold toFixed, tenths, fraction.
  change (10 ^ Z.of_nat 1)%Z with 10%Z.
  rewrite (ratio_tenths size d q Hd Hq), append_nil_l.
  by rewrite Z.mod_mod.
Qed.

Lemma ratio_1 size : inject_Z size == inject_Z size / inject_Z 1.
Proof. field. Qed.

(** The loop on a size: one division for each power of 1024 the size
    reaches, three at most. *)
Lemma human_loop_steps size :
  let q1 := (inject_Z size / inject_Z 1024)%Q in
  let q2 := (q1 / inject_Z 1024)%Q in
  let q3 := (q2 / inject_Z 1024)%Q in
  human_loop 3 (inject_Z size) 0 =
    if (size <? 1024)%Z then (inject_Z size, 0)
    else if (size <? 1024 ^ 2)%Z then (q1, 1)
    else if (size <? 1024 ^ 3)%Z then (q2, 2)
    else (q3, 3).
Proof.
  cbv zeta.
  pose proof (ratio_1 size) as H0.
  pose proof (ratio_div size 1 _ eq_refl H0) as H1.
  pose proof (ratio_div size (1 * 1024) _ eq_refl H1) as H2.
  cbn [human_loop length UNITS Nat.sub Nat.ltb Nat.leb andb].
  rewrite (ratio_ge_1024 size 1 _ eq_refl H0).
  rewrite (ratio_ge_1024 size (1 * 1024) _ eq_refl H1).
  rewrite (ratio_ge_1024 size (1 * 1024 * 1024) _ eq_refl H2).
  rewrite !andb_true_r.
  change (1024 * 1)%Z with 1024%Z.
  change (1024 * (1 * 1024))%Z with (1024 ^ 2)%Z.
  change (1024 * (1 * 1024 * 1024))%Z with (1024 ^ 3)%Z.
  rewrite !Z.ltb_antisym.
  destruct (1024 <=? size)%Z; [| done]. simpl negb. cbv iota.
  destruct (1024 ^ 2 <=? size)%Z; [| done]. simpl negb. cbv iota.
  by destruct (1024 ^ 3 <=? size)%Z.
Qed.

(** More fuel than the three iterations changes nothing. *)
Lemma human_loop_fuel fuel q i :
  3 ≤ i + fuel → human_loop fuel q i = human_loop (3 - i) q i.
Proof.
  revert q i. induction fuel as [|fuel IH]; intros q i Hf.
  - replace (3 - i) with 0 by lia. done.
  - destruct (decide (3 ≤ i)) as [Hi|Hi].
    + replace (3 - i) with 0 by lia. cbn [human_loop length UNITS Nat.sub].
      replace (i <? 3)%nat with false; [by rewrite andb_false_r |].
      symmetry. apply Nat.ltb_ge. lia.
    + replace (3 - i) with (S (3 - S i)) by lia. cbn [human_loop].
      destruct (_ && _); [| done]. apply IH. lia.
Qed.

(** X1. [human] on a file size (a non-negative integer below 2^53, as
    the sizes of files are): below 1024 the size itself, in bytes;
    from 1024 on, the size divided by the largest of 1024, 1024^2 and
    1024^3 that it reaches, rounded to a tenth, with the unit KB, MB or GB.
    Sizes of 1024^4 and more stay in GB. The loop makes at most three
    iterations: any greater bound on their number gives the same pair. *)
Theorem human_units (size : Z) :
  (0 ≤ size < 2 ^ 53)%Z →
  ((size < 1024)%Z → human (inject_Z size) = String_ size +:+ " B") ∧
  ((1024 ≤ size < 1024 ^ 2)%Z →
   human (inject_Z size) = tenths size 1024 +:+ " KB") ∧
  ((1024 ^ 2 ≤ size < 1024 ^ 3)%Z →
   human (inject_Z size) = tenths size (1024 ^ 2) +:+ " MB") ∧
  ((1024 ^ 3 ≤ size)%Z →
   human (inject_Z size) = tenths size (1024 ^ 3) +:+ " GB") ∧
  (∀ fuel, 3 ≤ fuel →
     human_loop fuel (inject_Z size) 0 = human_loop 3 (inject_Z size) 0).
Proof.
  intros Hsize.
  pose proof (ratio_1 size) as H0.
  pose proof (ratio_div size 1 _ eq_refl H0) as H1.
  pose proof (ratio_div size (1 * 1024) _ eq_refl H1) as H2.
  pose proof (ratio_div size (1 * 1024 * 1024) _ eq_refl H2) as H3.
  assert (Hfuel : ∀ fuel, 3 ≤ fuel →
            human_loop fuel (inject_Z size) 0 = human_loop 3 (inject_Z size) 0).
  { intros fuel Hf. by rewrite (human_loop_fuel fuel) by lia. }
  split; [| split; [| split; [| split; [| exact Hfuel]]]];
    unfold human; change (length UNITS - 1) with 3; rewrite human_loop_steps.
  - intros Hlt. rewrite (proj2 (Z.ltb_lt _ _)) by lia.
    cbn [Nat.ltb Nat.leb nth UNITS]. by rewrite toFixed_0.
  - intros [Hge Hlt].
    rewrite (proj2 (Z.ltb_ge _ _)), (proj2 (Z.ltb_lt _ _)) by lia.
    cbn [Nat.ltb Nat.leb nth UNITS].
    by rewrite (toFixed_1 size (1 * 1024) _ eq_refl H1).
  - intros [Hge Hlt].
    rewrite (proj2 (Z.ltb_ge _ 1024)), (proj2 (Z.ltb_ge _ (1024 ^ 2))),
      (proj2 (Z.ltb_lt _ _)) by lia.
    cbn [Nat.ltb Nat.leb nth UNITS].
    by rewrite (toFixed_1 size (1 * 1024 * 1024) _ eq_refl H2).
  - intros Hge.
    rewrite (proj2 (Z.ltb_ge _ 1024)), (proj2 (Z.ltb_ge _ (1024 ^ 2))),
      (proj2 (Z.ltb_ge _ (1024 ^ 3))) by lia.
    cbn [Nat.ltb Nat.leb nth UNITS].
    by rewrite (toFixed_1 size (1 * 1024 * 1024 * 1024) _ eq_refl H3).
Qed.

(** X2. The mantissa is not kept below 1024: a size less than a twentieth
    of a KB (of a MB) under 1024 KB (1024 MB) is rounded up to [1024.0]
    in the smaller unit. *)
Theorem human_rounds_up_to_1024 (size : Z) :
  ((1024 ^ 2 * 20 - 1024 ≤ size * 20 ∧ size < 1024 ^ 2)%Z →
   human (inject_Z size) = "1024.0 KB") ∧
  ((1024 ^ 3 * 20 - 1024 ^ 2 ≤ size * 20 ∧ size < 1024 ^ 3)%Z →
   human (inject_Z size) = "1024.0 MB").
Proof.
  assert (Hkb : (1024 ≤ size < 1024 ^ 2)%Z →
                human (inject_Z size) = tenths size 1024 +:+ " KB").
  { intros [Hge Hlt]. unfold human. change (length UNITS - 1) with 3.
    rewrite human_loop_steps.
    rewrite (proj2 (Z.ltb_ge _ _)), (proj2 (Z.ltb_lt _ _)) by lia.
    cbn [Nat.ltb Nat.leb nth UNITS].
    by rewrite (toFixed_1 size (1 * 1024) _ eq_refl
                  (ratio_div size 1 _ eq_refl (ratio_1 size))). }
  assert (Hmb : (1024 ^ 2 ≤ size < 1024 ^ 3)%Z →
                human (inject_Z size) = tenths size (1024 ^ 2) +:+ " MB").
  { intros [Hge Hlt]. unfold human. change (length UNITS - 1) with 3.
    rewrite human_loop_steps.
    rewrite (proj2 (Z.ltb_ge _ 1024)), (proj2 (Z.ltb_ge _ (1024 ^ 2))),
      (proj2 (Z.ltb_lt _ _)) by lia.
    cbn [Nat.ltb Nat.leb nth UNITS].
    by rewrite (toFixed_1 size (1 * 1024 * 1024) _ eq_refl
                  (ratio_div size (1 * 1024) _ eq_refl
                     (ratio_div size 1 _ eq_refl (ratio_1 size)))). }
  change (1024 ^ 2)%Z with 1048576%Z in *.
  change (1024 ^ 3)%Z with 1073741824%Z in *.
  split; intros [Hlo Hhi].
  - rewrite Hkb by lia.
    unfold tenths.
    replace ((20 * size + 1024) / (2 * 1024))%Z with 10240%Z; [done |].
    apply (Z.div_unique _ _ _ (20 * size + 1024 - 10240 * (2 * 1024))); lia.
  - rewrite Hmb by lia.
    unfold tenths.
    replace ((20 * size + 1048576) / (2 * 1048576))%Z with 10240%Z; [done |].
    apply (Z.div_unique _ _ _ (20 * size + 1048576 - 10240 * (2 * 1048576))); lia.
Qed.
End Human.

Lemma human_units_witness :
  human (inject_Z 1536) = "1.5 KB" ∧ human (inject_Z 700) = "700 B" ∧
  human (inject_Z (5 * 1024 ^ 4)) = "5120.0 GB".
Proof.
  split; [| split].
  - destruct (human_units 1536) as (_ & H & _); [lia |]. apply H. lia.
  - destruct (human_units 700) as (H & _); [lia |]. apply H. lia.
  - destruct (human_units (5 * 1024 ^ 4)) as (_ & _ & _ & H & _); [lia |].
    apply H. lia.
Defined.

Lemma human_rounds_up_to_1024_witness :
  human (inject_Z 1048575) = "1024.0 KB" ∧ human (inject_Z 1073741823) = "1024.0 MB".
Proof.
  destruct (human_rounds_up_to_1024 1048575) as [Hkb _].
  destruct (human_rounds_up_to_1024 1073741823) as [_ Hmb].
  split; [apply Hkb | apply Hmb]; lia.
Defined.

(** ** Badges and routing *)

Section Badges.
Implicit Types (s t pre : string) (c : ascii).

Lemma String_split_absent s c :
  c ∉ String.list_ascii_of_string s → String_split s c = [s].
Proof.
  induction s as [|a s IH]; cbn [String_split String.list_ascii_of_string];
    [done |].
  intros [Hne Hs]%not_elem_of_cons.
  destruct (Ascii.eqb_spec a c) as [->|_]; [done |].
  by rewrite IH.
Qed.

Lemma String_split_first pre s c :
  c ∉ String.list_ascii_of_string pre →
  String_split (pre +:+ String c s) c = pre :: String_split s c.
Proof.
  induction pre as [|a pre IH]; cbn [String.list_ascii_of_string].
  - intros _. rewrite append_nil_l. cbn [String_split].
    by rewrite Ascii.eqb_refl.
  - intros [Hne Hs]%not_elem_of_cons.
    rewrite append_cons. cbn [String_split].
    destruct (Ascii.eqb_spec a c) as [->|_]; [done |].
    by rewrite IH.
Qed.

Lemma String_split_cons s c : ∃ x r, String_split s c = x :: r.
Proof.
  induction s as [|a s (x & r & IH)]; cbn [String_split]; [by eexists _, _ |].
  destruct (Ascii.eqb a c); [by eexists _, _ |].
  rewrite IH. by eexists _, _.
Qed.

Lemma toUpperCase_nonempty s : s ≠ EmptyString → toUpperCase s ≠ EmptyString.
Proof. by destruct s. Qed.

Lemma orElse_nonempty x d : d ≠ EmptyString → orElse x d ≠ EmptyString.
Proof.
  intros Hd. unfold orElse. destruct x as [s|]; [| done].
  by destruct (String.eqb_spec s EmptyString).
Qed.

(** X3. The badge of a declared media type: the part between the first
    and the second slash, in upper case; [FILE] when the type has no
    slash (the empty type included) or when that part is empty. The badge is
    never empty, and the file cell of the table computes the same label
    as [TypeBadge]. *)
Theorem TypeBadge_label (t : string) :
  TypeBadge t ≠ EmptyString ∧
  ("/"%char ∉ String.list_ascii_of_string t → TypeBadge t = "FILE") ∧
  (∀ fam sub rest,
     t = fam +:+ "/" +:+ sub +:+ rest →
     "/"%char ∉ String.list_ascii_of_string fam →
     "/"%char ∉ String.list_ascii_of_string sub →
     rest = EmptyString ∨ (∃ more, rest = "/" +:+ more) →
     TypeBadge t = if String.eqb sub EmptyString then "FILE"
                   else toUpperCase sub) ∧
  (∀ f, type f = t → fileBadge f = TypeBadge t).
Proof.
  assert (Hsame : ∀ f, type f = t → fileBadge f = TypeBadge t).
  { intros f <-. unfold fileBadge, TypeBadge.
    destruct (String.eqb_spec (type f) EmptyString) as [->|_]; done. }
  split; [| split; [| split; [| exact Hsame]]].
  - unfold TypeBadge. by apply orElse_nonempty.
  - intros Habs. unfold TypeBadge.
    destruct (String.eqb t EmptyString); [done |].
    by rewrite String_split_absent.
  - intros fam sub rest -> Hfam Hsub Hrest. unfold TypeBadge.
    assert (Hsplit : String_split (fam +:+ "/" +:+ sub +:+ rest) "/" !! 1
                     = Some sub).
    { change ("/" +:+ sub +:+ rest) with (String "/" (sub +:+ rest)).
      rewrite String_split_first by done.
      destruct Hrest as [->|[more ->]].
      - assert (Hnil : sub +:+ EmptyString = sub).
        { clear. induction sub as [|a sub IH]; [done |].
          by rewrite append_cons, IH. }
        rewrite Hnil. by rewrite String_split_absent.
      - change ("/" +:+ more) with (String "/" more).
        by rewrite String_split_first. }
    rewrite Hsplit.
    destruct (String.eqb_spec (fam +:+ "/" +:+ sub +:+ rest) EmptyString)
      as [Hempty|_].
    { destruct fam; discriminate Hempty. }
    simpl. destruct (String.eqb_spec sub EmptyString) as [->|Hne]; [done |].
    destruct (String.eqb_spec (toUpperCase sub) EmptyString) as [Hup|_];
      [by apply toUpperCase_nonempty in Hup | done].
Qed.

(** X4. The router shows the help page exactly for a hash that starts
    with [#/help] or with [/help] (so for [#/help], [#/help/x] and
    [#/helpful] alike), and the converter for every other hash, the empty
    one included. *)
Theorem Router_help (h : string) :
  (Router h = HelpPage ↔
   (∃ rest, h = "#/help" +:+ rest) ∨ (∃ rest, h = "/help" +:+ rest)) ∧
  (Router h = AppPage ↔ Router h ≠ HelpPage).
Proof.
  split; [| destruct (Router h); split; done].
  unfold Router.
  destruct h as [|c h].
  { simpl. split; [done | intros [[rest Hr]|[rest Hr]]; discriminate Hr]. }
  destruct (Ascii.eqb_spec c "#") as [->|Hne].
  - destruct (startsWith h "/help") eqn:E.
    + apply startsWith_spec in E as [rest ->]. split; [| done].
      intros _. left. by exists rest.
    + split; [done |]. intros [[rest Hr]|[rest Hr]]; [| discriminate Hr].
      injection Hr as ->.
      assert (startsWith ("/help" +:+ rest) "/help" = true) as Ht
        by (apply startsWith_spec; by exists rest).
      congruence.
  - assert (Hr : match String c h with
                 | String "#" r => r
                 | _ => String c h
                 end = String c h).
    { destruct c as [[] [] [] [] [] [] [] []]; done. }
    rewrite Hr.
    destruct (startsWith (String c h) "/help") eqn:E.
    + apply startsWith_spec in E as [rest Hrest]. split; [| done].
      intros _. right. by exists rest.
    + split; [done |]. intros [[rest Hrest]|[rest Hrest]].
      * injection Hrest as -> _. done.
      * assert (startsWith (String c h) "/help" = true) as Ht
          by (apply startsWith_spec; by exists rest).
        congruence.
Qed.
End Badges.

Lemma TypeBadge_label_witness :
  TypeBadge "image/png" = "PNG" ∧ TypeBadge "text/plain/x" = "PLAIN" ∧
  TypeBadge "image/" = "FILE".
Proof.
  split; [| split].
  - destruct (TypeBadge_label "image/png") as (_ & _ & H & _).
    apply (H "image" "png" EmptyString); [done | | | by left];
      apply (bool_decide_unpack _); vm_compute; exact I.
  - destruct (TypeBadge_label "text/plain/x") as (_ & _ & H & _).
    apply (H "text" "plain" "/x"); [done | | | right; by exists "x"];
      apply (bool_decide_unpack _); vm_compute; exact I.
  - destruct (TypeBadge_label "image/") as (_ & _ & H & _).
    apply (H "image" EmptyString EmptyString); [done | | | by left];
      apply (bool_decide_unpack _); vm_compute; exact I.
Defined.

(** ** The engine along a run *)

Section Keeps.
Context `{Browser}.
Variable P : St → Prop.

(** [P] does not look at the world. *)
Hypothesis P_world : ∀ s w,
  P s → P {| _ff := _ff s; world := w; calls := calls s |}.

Lemma keeps_ret {A} (a : A) : keeps P (ret a).
Proof. by intros s Hs. Qed.

Lemma keeps_throw {A} e : keeps P (throw (A := A) e).
Proof. by intros s Hs. Qed.

Lemma keeps_liftC {A} (c : Completion A) : keeps P (liftC c).
Proof. by intros s Hs. Qed.

Lemma keeps_liftW {A} (f : World → A * World) : keeps P (liftW f).
Proof.
  intros s Hs. unfold liftW. destruct (f (world s)) as [a w]. by apply P_world.
Qed.

Lemma keeps_await {A} (f : World → Completion A * World) : keeps P (await f).
Proof.
  intros s Hs. unfold await. destruct (f (world s)) as [c w]. by apply P_world.
Qed.

Lemma keeps_bind {A B} (c : M A) (k : A → M B) :
  keeps P c → (∀ a, keeps P (k a)) → keeps P (bind c k).
Proof.
  intros Hc Hk s Hs. unfold bind. specialize (Hc s Hs).
  destruct (c s) as [[a|e] s1]; [by apply Hk | done].
Qed.

Lemma keeps_try_catch {A} (c : M A) (h : Exn → M A) :
  keeps P c → (∀ e, keeps P (h e)) → keeps P (try_catch c h).
Proof.
  intros Hc Hh s Hs. unfold try_catch. specialize (Hc s Hs).
  destruct (c s) as [[a|e] s1]; [done | by apply Hh].
Qed.

Lemma keeps_loadImageBitmap file : keeps P (loadImageBitmap file).
Proof.
  unfold loadImageBitmap.
  apply keeps_try_catch; [apply keeps_await |].
  intros _. apply keeps_bind; [apply keeps_await |].
  intros _. apply keeps_await.
Qed.

Lemma keeps_convertImage file target qPercent :
  keeps P (convertImage file target qPercent).
Proof.
  unfold convertImage.
  apply keeps_bind; [apply keeps_loadImageBitmap |]. intros bmp.
  apply keeps_bind; [apply keeps_await |]. intros [b|];
    [apply keeps_ret | apply keeps_throw].
Qed.

(** The branches of the loop body that do not go through FFmpeg. *)
Lemma keeps_tryBlock_other it idx nxt :
  usesEngine (file it) = false → keeps P (tryBlock it idx nxt).
Proof.
  unfold usesEngine, tryBlock. intros Huse.
  assert (Hlast : ∀ r : list QItem * option Blob,
            keeps P (let '(next, out) := r in
                     let next := match out with
                                 | Some b => alter (set_outBlob b) idx next
                                 | None => next
                                 end in
                     ret (alter (set_status ItemStatus.done) idx next))).
  { intros [n o]. apply keeps_ret. }
  apply keeps_bind; [| exact Hlast].
  destruct (isPDF (file it)).
  { destruct (action (pdf it)); [| apply keeps_ret].
    apply keeps_bind; [apply keeps_liftC |]. intros buf. apply keeps_ret. }
  destruct (isHeic (file it)).
  { apply keeps_bind; [apply keeps_await |]. intros res. apply keeps_ret. }
  destruct (startsWith (type (file it)) "image/").
  { apply keeps_bind; [apply keeps_convertImage |]. intros out.
    apply keeps_ret. }
  simpl in Huse. apply orb_false_iff in Huse as [-> ->].
  apply keeps_throw.
Qed.

(** What [P] has to allow for the branches that do go through FFmpeg:
    the creation and loading of the engine by [getFF], and any other call
    on it. *)
Hypothesis P_getFF : keeps P getFF.
Hypothesis P_core : ∀ s w c,
  isLoad c = false →
  P s → P {| _ff := _ff s; world := w; calls := calls s ++ [c] |}.

Lemma keeps_core {A} c (f : World → Completion A * World) :
  isLoad c = false → keeps P (core c f).
Proof.
  intros Hc s Hs. unfold core. destruct (f (world s)) as [r w].
  by apply P_core.
Qed.

Lemma keeps_finish {A} inName out (k : bytes → M A) :
  (∀ data, keeps P (k data)) →
  keeps P (data <- core (CreadFile out) (FFmpeg_readFile out) ;;
           try_catch (core (Cunlink inName) (FFmpeg_unlink inName) ;;;
                      core (Cunlink out) (FFmpeg_unlink out))
                     (fun _ => ret tt) ;;;
           k data).
Proof.
  intros Hk. apply keeps_bind; [by apply keeps_core |]. intros data.
  apply keeps_bind; [| intros _; apply Hk].
  apply keeps_try_catch; [| intros _; apply keeps_ret].
  apply keeps_bind; [by apply keeps_core |]. intros _. by apply keeps_core.
Qed.

Lemma keeps_convertAudio file target opts :
  keeps P (convertAudio file target opts).
Proof.
  unfold convertAudio.
  apply keeps_bind; [apply P_getFF |]. intros _.
  apply keeps_bind; [apply keeps_liftW |]. intros r.
  apply keeps_bind; [apply keeps_liftC |]. intros buf.
  apply keeps_bind; [by apply keeps_core |]. intros _.
  apply keeps_bind.
  - repeat match goal with
           | |- keeps _ (if ?b then _ else _) => destruct b
           | |- keeps _ (bind _ _) => apply keeps_bind; [| intros _]
           | |- keeps _ (match ?m with CBR => _ | VBR => _ end) => destruct m
           | |- keeps _ (core _ _) => by apply keeps_core
           | |- keeps _ (ret _) => apply keeps_ret
           | |- keeps _ (throw _) => apply keeps_throw
           end.
  - intros out. apply keeps_finish. intros data. apply keeps_ret.
Qed.

Lemma keeps_convertVideoToWebM file crf :
  keeps P (convertVideoToWebM file crf).
Proof.
  unfold convertVideoToWebM.
  apply keeps_bind; [apply P_getFF |]. intros _.
  apply keeps_bind; [apply keeps_liftW |]. intros r.
  apply keeps_bind; [apply keeps_liftC |]. intros buf.
  apply keeps_bind; [by apply keeps_core |]. intros _.
  apply keeps_bind; [by apply keeps_core |]. intros _.
  apply keeps_finish. intros data. apply keeps_ret.
Qed.

Lemma keeps_tryBlock it idx nxt : keeps P (tryBlock it idx nxt).
Proof.
  unfold tryBlock.
  apply keeps_bind; [| intros [n o]; apply keeps_ret].
  destruct (isPDF (file it)).
  { destruct (action (pdf it)); [| apply keeps_ret].
    apply keeps_bind; [apply keeps_liftC |]. intros buf. apply keeps_ret. }
  destruct (isHeic (file it)).
  { apply keeps_bind; [apply keeps_await |]. intros res. apply keeps_ret. }
  destruct (startsWith (type (file it)) "image/").
  { apply keeps_bind; [apply keeps_convertImage |]. intros out.
    apply keeps_ret. }
  destruct (isAudio (file it)).
  { apply keeps_bind; [apply keeps_convertAudio |]. intros out.
    apply keeps_ret. }
  destruct (isVideo (file it)); [| apply keeps_throw].
  apply keeps_bind; [apply keeps_convertVideoToWebM |]. intros out.
  apply keeps_ret.
Qed.
End Keeps.

Section EngineRuns.
Context `{Browser}.
Implicit Types (r : Run) (it x : QItem) (l nxt : list QItem) (p idx : nat)
               (s : St).

(** The loop body touches the store only at [idx], and what it does
    there and to the engine depends neither on [idx] nor on the store. *)
Lemma tryBlock_local it s :
  ∃ (res : Completion (QItem → QItem)) s',
    (∀ idx nxt,
       tryBlock it idx nxt s =
         (match res with
          | Normal f => Normal (alter f idx nxt)
          | Throw e => Throw e
          end, s')) ∧
    (∀ f x, res = Normal f →
       sameInput x (f x) ∧ status (f x) = ItemStatus.done ∧
       error (f x) = error x).
Proof.
  unfold tryBlock, bind.
  destruct (isPDF (file it)).
  { destruct (action (pdf it)).
    - unfold liftC, ret. destruct (File_arrayBuffer (file it)) as [buf|e].
      + eexists (Normal _), _. split.
        * intros idx nxt. rewrite !list_alter_alter_eq. reflexivity.
        * by intros f x [= <-].
      + exists (Throw e), s. split; [done | by intros f x [=]].
    - unfold ret. eexists (Normal _), _. split.
      + intros idx nxt. rewrite !list_alter_alter_eq. reflexivity.
      + by intros f x [= <-]. }
  destruct (isHeic (file it)).
  { unfold await, ret. destruct (heic2any _ _ _ _) as [[res|e] w].
    - eexists (Normal _), _. split.
      + intros idx nxt. rewrite !list_alter_alter_eq. reflexivity.
      + by intros f x [= <-].
    - eexists (Throw e), _. split; [done | by intros f x [=]]. }
  destruct (startsWith (type (file it)) "image/").
  { destruct (convertImage _ _ _ s) as [[b|e] s1].
    - unfold ret. eexists (Normal _), _. split.
      + intros idx nxt. rewrite !list_alter_alter_eq. reflexivity.
      + by intros f x [= <-].
    - eexists (Throw e), _. split; [done | by intros f x [=]]. }
  destruct (isAudio (file it)).
  { destruct (convertAudio _ _ _ s) as [[b|e] s1].
    - unfold ret. eexists (Normal _), _. split.
      + intros idx nxt. rewrite !list_alter_alter_eq. reflexivity.
      + by intros f x [= <-].
    - eexists (Throw e), _. split; [done | by intros f x [=]]. }
  destruct (isVideo (file it)).
  { destruct (convertVideoToWebM _ _ s) as [[b|e] s1].
    - unfold ret. eexists (Normal _), _. split.
      + intros idx nxt. rewrite !list_alter_alter_eq. reflexivity.
      + by intros f x [= <-].
    - eexists (Throw e), _. split; [done | by intros f x [=]]. }
  eexists (Throw _), _. split; [done | by intros f x [=]].
Qed.

Lemma fmap_alter_same {A B} (g : A → B) (f : A → A) (k : list A) (i : nat) :
  (∀ a, g (f a) = g a) → g <$> alter f i k = g <$> k.
Proof.
  intros Hg. revert i. induction k as [|a k IH]; intros [|i]; csimpl; [done.. | |].
  - by rewrite Hg.
  - by rewrite (IH i).
Qed.

(** A run never changes the file of an item, whatever the ids. *)
Lemma iteration_files len r p :
  file <$> next (iteration len r p) = file <$> next r.
Proof.
  unfold iteration.
  destruct (uncaught r); [done |].
  destruct (next r !! p) as [it|]; [| done].
  destruct (_ <? 0)%Z; [done |].
  destruct (tryBlock_local it (engine r)) as (res & s' & Hloc & Hres).
  rewrite Hloc. destruct res as [f|e]; simpl.
  - rewrite !fmap_alter_same; [done | done |].
    intros x. by destruct (Hres f x eq_refl) as ((_ & _ & ? & _) & _).
  - by rewrite !fmap_alter_same.
Qed.

Lemma iteration_keeps (P : St → Prop) len r p :
  (∀ it idx nxt, next r !! p = Some it → keeps P (tryBlock it idx nxt)) →
  P (engine r) → P (engine (iteration len r p)).
Proof.
  intros Hk HP. unfold iteration.
  destruct (uncaught r); [done |].
  destruct (next r !! p) as [it|]; [| done].
  destruct (_ <? 0)%Z; [done |].
  match goal with
  | |- context [tryBlock it ?idx ?nxt (engine r)] =>
      pose proof (Hk it idx nxt eq_refl (engine r) HP) as Hs;
      destruct (tryBlock it idx nxt (engine r)) as [c eng]
  end.
  done.
Qed.

(** A property of the engine state that the loop body keeps for the
    files of the items it is run for holds along the whole loop. *)
Lemma loop_keeps (P : St → Prop) (F : File → Prop) len ps :
  (∀ it idx nxt, F (file it) → keeps P (tryBlock it idx nxt)) →
  ∀ r, (∀ p it, p ∈ ps → next r !! p = Some it → F (file it)) →
       P (engine r) → P (engine (foldl (iteration len) r ps)).
Proof.
  intros Hk. induction ps as [|p ps IH]; intros r HF HP; [done |].
  simpl. apply IH.
  - intros p' it' Hin Hl.
    assert (Hf : (file <$> next r) !! p' = Some (file it')).
    { by rewrite <- (iteration_files len r p), list_lookup_fmap, Hl. }
    rewrite list_lookup_fmap in Hf.
    destruct (next r !! p') as [it0|] eqn:E0; [| done].
    injection Hf as <-. apply (HF p' it0); [by right | done].
  - apply iteration_keeps; [| done].
    intros it idx nxt Hl. apply Hk, (HF p it); [left | done].
Qed.

Lemma loadedOnce_world s w :
  loadedOnce s → loadedOnce {| _ff := _ff s; world := w; calls := calls s |}.
Proof. done. Qed.

Lemma loadedOnce_getFF : keeps loadedOnce getFF.
Proof.
  intros s Hs. unfold getFF, loadedOnce in *.
  destruct (_ff s) eqn:E; simpl; [by rewrite E |].
  unfold core. simpl. destruct (FFmpeg_load (world s)) as [c w]. simpl.
  rewrite List.filter_app, length_app. simpl. lia.
Qed.

Lemma loadedOnce_core s w c :
  isLoad c = false → loadedOnce s →
  loadedOnce {| _ff := _ff s; world := w; calls := calls s ++ [c] |}.
Proof.
  intros Hc Hs. unfold loadedOnce in *. simpl.
  rewrite List.filter_app, length_app. simpl. rewrite Hc. simpl. lia.
Qed.

Lemma sameLoads_getFF s0 : keeps (sameLoads s0) getFF.
Proof. intros s [Hff Hs]. unfold getFF. by rewrite Hff. Qed.

Lemma sameLoads_core s0 s w c :
  isLoad c = false → sameLoads s0 s →
  sameLoads s0 {| _ff := _ff s; world := w; calls := calls s ++ [c] |}.
Proof.
  intros Hc [Hff Hs]. split; [done |]. simpl.
  by rewrite List.filter_app, Hs; simpl; rewrite Hc, app_nil_r.
Qed.

(** X5. The FFmpeg engine is a singleton that is loaded at most once.
    From a state in which it has been loaded at most once (and not at all
    before [getFF] created it), any run of [convertAll], over any queue,
    leads to such a state again: the call log of the engine holds at most
    one [load]. [getFF] marks the engine as created before it loads it,
    whether the load succeeds or throws; and once it is created, no run
    loads it again. *)
Theorem engine_loaded_once (items : list QItem) (s : St) :
  loadedOnce s →
  loadedOnce (engine (convertAll items s)) ∧
  length (List.filter isLoad (calls (engine (convertAll items s)))) ≤ 1 ∧
  _ff (getFF s).2 = true ∧
  (_ff s = true →
   _ff (engine (convertAll items s)) = true ∧
   List.filter isLoad (calls (engine (convertAll items s))) =
     List.filter isLoad (calls s)).
Proof.
  intros Hs. rewrite convertAll_unfold.
  assert (Hinv : loadedOnce (engine (foldl (iteration (length (workOf items)))
                                       (initial items s) (workOf items)))).
  { apply (loop_keeps loadedOnce (fun _ => True)); [| done | done].
    intros it idx nxt _.
    apply keeps_tryBlock;
      [apply loadedOnce_world | apply loadedOnce_getFF | apply loadedOnce_core]. }
  split; [done |]. split; [| split].
  - unfold loadedOnce in Hinv. destruct (_ff _); lia.
  - unfold getFF. destruct (_ff s) eqn:E; [done |].
    unfold core. simpl. by destruct (FFmpeg_load (world s)).
  - intros Hff.
    apply (loop_keeps (sameLoads s) (fun _ => True)); [| done | done].
    intros it idx nxt _.
    apply keeps_tryBlock;
      [by intros s1 w [? ?] | apply sameLoads_getFF | apply sameLoads_core].
Qed.

(** X6. A run in which no selected item is an audio or video file (by
    the tests of the conversion loop) never touches FFmpeg: the engine is
    neither created nor called. *)
Theorem no_media_no_engine (items : list QItem) (s : St) :
  (∀ it, it ∈ items → selected it = true → usesEngine (file it) = false) →
  _ff (engine (convertAll items s)) = _ff s ∧
  calls (engine (convertAll items s)) = calls s.
Proof.
  intros Hno. rewrite convertAll_unfold.
  apply (loop_keeps (fun s1 => _ff s1 = _ff s ∧ calls s1 = calls s)
           (fun f => usesEngine f = false)); [| | done].
  - intros it idx nxt Huse. by apply keeps_tryBlock_other.
  - intros p it (it' & Hl & Hsel)%elem_of_workOf Hl'. simpl in Hl'.
    simplify_eq. apply Hno; [| done]. by eapply list_elem_of_lookup_2.
Qed.
End EngineRuns.

Lemma engine_loaded_once_witness :
  length (List.filter isLoad (calls (engine (convertAll Sim.songs Sim.start)))) ≤ 1.
Proof.
  destruct (engine_loaded_once Sim.songs Sim.start) as (_ & Hone & _).
  - unfold loadedOnce. simpl. lia.
  - exact Hone.
Defined.

Lemma no_media_no_engine_witness :
  calls (engine (convertAll Sim.batch Sim.start)) = [] ∧
  _ff (engine (convertAll Sim.batch Sim.start)) = false.
Proof.
  destruct (no_media_no_engine Sim.batch Sim.start) as [Hff Hcalls].
  - intros it Hin _. revert it Hin. apply Forall_forall.
    apply (bool_decide_unpack _). vm_compute. exact I.
  - split; [exact Hcalls | exact Hff].
Defined.

(** ** The scratch-file protocol of the FFmpeg conversions *)

Section Scratch.
Context `{Browser}.
Implicit Types (s : St) (opts : AudioOpts).

(** Rules to follow a computation step by step. *)













End Scratch.

(** ** Items one by one *)

Section OneByOne.
Context `{Browser}.
Implicit Types (r : Run) (it x : QItem) (l nxt k : list QItem) (p idx : nat)
               (s : St).

(** The loop body for one object, in terms of what [tryBlock] does to
    it. *)
Lemma convertOne_spec it s :
  ∃ (res : Completion (QItem → QItem)) s',
    (∀ idx nxt,
       tryBlock it idx nxt s =
         (match res with
          | Normal f => Normal (alter f idx nxt)
          | Throw e => Throw e
          end, s')) ∧
    (∀ f x, res = Normal f →
       sameInput x (f x) ∧ status (f x) = ItemStatus.done ∧
       error (f x) = error x) ∧
    convertOne it s =
      (match res with
       | Normal f => f (set_status ItemStatus.converting it)
       | Throw e =>
           set_error (messageOf e)
             (set_status ItemStatus.error
                (set_status ItemStatus.converting it))
       end, s').
Proof.
  destruct (tryBlock_local it s) as (res & s' & Hloc & Hres).
  exists res, s'. split; [done |]. split; [done |].
  unfold convertOne, iteration. simpl. rewrite String.eqb_refl. simpl.
  rewrite Hloc. by destruct res.
Qed.

Lemma convertOne_id it s : id (convertOne it s).1 = id it.
Proof.
  destruct (convertOne_spec it s) as (res & s' & _ & Hres & ->).
  destruct res as [f|e]; [| done]. simpl.
  by destruct (Hres f (set_status ItemStatus.converting it) eq_refl)
    as ((? & _) & _).
Qed.

(** One iteration on a store with pairwise distinct ids converts the
    object at [p] on its own. *)
Lemma iteration_convertOne len r p it :
  uncaught r = None → NoDup (id <$> next r) → next r !! p = Some it →
  next (iteration len r p) = <[p := (convertOne it (engine r)).1]> (next r) ∧
  engine (iteration len r p) = (convertOne it (engine r)).2 ∧
  uncaught (iteration len r p) = None.
Proof.
  intros Hu Hnd Hp.
  destruct (convertOne_spec it (engine r)) as (res & s' & Hloc & _ & ->).
  unfold iteration. rewrite Hu, Hp, (findIndex_own _ _ _ Hnd Hp).
  destruct (_ <? 0)%Z eqn:E; [apply Z.ltb_lt in E; lia |].
  rewrite Nat2Z.id, Hloc.
  assert (Hlt : p < length (next r)) by (by eapply lookup_lt_Some).
  destruct res as [f|e]; simpl.
  - split; [| done]. rewrite (alter_lookup _ _ _ _ Hp).
    rewrite (alter_lookup f _ p (set_status ItemStatus.converting it))
      by (by apply list_lookup_insert_eq).
    by rewrite list_insert_insert_eq.
  - split; [| done]. rewrite (alter_lookup _ _ _ _ Hp).
    rewrite (alter_lookup (set_status ItemStatus.error) _ p
               (set_status ItemStatus.converting it))
      by (by apply list_lookup_insert_eq).
    rewrite list_insert_insert_eq.
    rewrite (alter_lookup _ _ p
               (set_status ItemStatus.error
                  (set_status ItemStatus.converting it)))
      by (by apply list_lookup_insert_eq).
    by rewrite list_insert_insert_eq.
Qed.

Lemma loop_convertAt len ps : ∀ r,
  uncaught r = None → NoDup (id <$> next r) →
  (∀ p, p ∈ ps → p < length (next r)) →
  (next (foldl (iteration len) r ps), engine (foldl (iteration len) r ps))
    = foldl convertAt (next r, engine r) ps.
Proof.
  induction ps as [|p ps IH]; intros r Hu Hnd Hlt; [done |]. simpl.
  destruct (lookup_lt_is_Some_2 (next r) p) as [it Hp].
  { apply Hlt. left. }
  destruct (iteration_convertOne len r p it Hu Hnd Hp) as (Hn & He & Hu1).
  rewrite IH.
  - assert (Hstep : convertAt (next r, engine r) p
                    = (next (iteration len r p), engine (iteration len r p))).
    { unfold convertAt. simpl. by rewrite Hp, Hn, He. }
    by rewrite Hstep.
  - done.
  - rewrite Hn. rewrite (ids_insert _ _ it); [done | done |].
    apply convertOne_id.
  - intros p' Hp'. rewrite Hn, length_insert. apply Hlt. by right.
Qed.

Lemma convertSeq_length l : ∀ s, length (convertSeq l s).1 = length l.
Proof.
  induction l as [|x l IH]; intros s; [done |]. simpl.
  destruct (if selected x then convertOne x s else (x, s)) as [x' s1].
  specialize (IH s1). destruct (convertSeq l s1) as [l' s2]. simpl in *.
  by rewrite IH.
Qed.

Lemma convertSeq_snoc l x : ∀ s,
  convertSeq (l ++ [x]) s =
    let '(l', s1) := convertSeq l s in
    let '(x', s2) := if selected x then convertOne x s1 else (x, s1) in
    (l' ++ [x'], s2).
Proof.
  induction l as [|y l IH]; intros s; simpl.
  - by destruct (if selected x then convertOne x s else (x, s)).
  - destruct (if selected y then convertOne y s else (y, s)) as [y' s1].
    rewrite IH. destruct (convertSeq l s1) as [l' s2].
    by destruct (if selected x then convertOne x s2 else (x, s2)).
Qed.

Lemma foldl_convertAt_seq l : ∀ s k,
  foldl convertAt (l ++ k, s) (workOf l) =
    ((convertSeq l s).1 ++ k, (convertSeq l s).2).
Proof.
  induction l as [|x l IH] using rev_ind; intros s k; [done |].
  rewrite workOf_snoc, foldl_app, <- app_assoc, IH, convertSeq_snoc.
  pose proof (convertSeq_length l s) as Hlen.
  destruct (convertSeq l s) as [l' s1]. simpl in *.
  destruct (selected x); simpl.
  - unfold convertAt. simpl.
    rewrite <- Hlen, list_lookup_middle by done.
    destruct (convertOne x s1) as [x' s2]. simpl.
    rewrite <- app_assoc. simpl. f_equal.
    by rewrite insert_app_r_alt, Nat.sub_diag by lia.
  - by rewrite <- app_assoc.
Qed.

(** What [convertSeq] leaves at each position. *)
Lemma convertSeq_lookup l : ∀ s p it,
  l !! p = Some it →
  ∃ sp, (convertSeq l s).1 !! p =
          Some (if selected it then (convertOne it sp).1 else it).
Proof.
  induction l as [|x l IH]; intros s p it Hp; [done |]. simpl.
  destruct (if selected x then convertOne x s else (x, s)) as [x' s1] eqn:Ex.
  destruct p as [|p]; simpl in Hp.
  - injection Hp as ->. exists s.
    destruct (convertSeq l s1) as [l' s2].
    change (Some x' = Some (if selected it then (convertOne it s).1 else it)).
    destruct (selected it); [by rewrite Ex | by injection Ex as <- _].
  - destruct (IH s1 p it Hp) as [sp Hsp]. exists sp.
    by destruct (convertSeq l s1) as [l' s2].
Qed.

(** What a run leaves at each position of a queue with pairwise
    distinct ids. *)
Lemma convertAll_item (items : list QItem) (s : St) p it :
  NoDup (id <$> items) → items !! p = Some it →
  ∃ sp, next (convertAll items s) !! p =
          Some (if selected it then (convertOne it sp).1 else it).
Proof.
  intros Hnd Hp. rewrite convertAll_unfold.
  pose proof (loop_convertAt (length (workOf items)) (workOf items)
                (initial items s) eq_refl Hnd (workOf_lt items)) as Hloop.
  simpl in Hloop.
  pose proof (foldl_convertAt_seq items s []) as Hseq.
  rewrite !app_nil_r in Hseq. rewrite Hseq in Hloop.
  injection Hloop as -> _. by apply convertSeq_lookup.
Qed.

(** X9. With pairwise distinct ids, a run of [convertAll] leaves the
    queue and the engine as converting the selected items one after the
    other does, in queue order, each as if it were alone in the queue, the
    engine state passing from one to the next; the items that are not
    selected are left as they are. *)
Theorem convertAll_sequential (items : list QItem) (s : St) :
  NoDup (id <$> items) →
  next (convertAll items s) = (convertSeq items s).1 ∧
  engine (convertAll items s) = (convertSeq items s).2.
Proof.
  intros Hnd. rewrite convertAll_unfold.
  pose proof (loop_convertAt (length (workOf items)) (workOf items)
                (initial items s) eq_refl Hnd (workOf_lt items)) as Hloop.
  simpl in Hloop.
  pose proof (foldl_convertAt_seq items s []) as Hseq.
  rewrite !app_nil_r in Hseq. rewrite Hseq in Hloop.
  by injection Hloop as -> ->.
Qed.

Lemma dispatched_false f :
  dispatched f = false →
  isPDF f = false ∧ isHeic f = false ∧ startsWith (type f) "image/" = false ∧
  isAudio f = false ∧ isVideo f = false.
Proof.
  unfold dispatched. intros Hd.
  apply orb_false_iff in Hd as [Hd ?]. apply orb_false_iff in Hd as [Hd ?].
  apply orb_false_iff in Hd as [Hd ?]. by apply orb_false_iff in Hd as [? ?].
Qed.

(** X10. The classifier and the conversion loop agree on which files
    are supported, although they test the kinds in different orders: the
    classifier has no target for a file exactly when no branch of the loop
    takes it. In a run over a queue with pairwise distinct ids, such an
    item, when selected, ends in error with the message "Unsupported
    type", everything else about it unchanged. *)
Theorem unsupported_agree (items : list QItem) (s : St) :
  (∀ f, inferTargets (type f) (name f) = [] ↔ dispatched f = false) ∧
  (NoDup (id <$> items) →
   ∀ p it, items !! p = Some it → selected it = true →
     inferTargets (type (file it)) (name (file it)) = [] →
     next (convertAll items s) !! p =
       Some (set_error "Unsupported type" (set_status ItemStatus.error it))).
Proof.
  assert (Hagree : ∀ f, inferTargets (type f) (name f) = []
                        ↔ dispatched f = false).
  { intros f. unfold dispatched, inferTargets, isPDF, isHeic, isAudio, isVideo.
    cbv zeta.
    assert (Ht : startsWith (type f) "image/" = false →
                 String.eqb (type f) "image/heic" = false ∧
                 String.eqb (type f) "image/heif" = false).
    { intros Eimg.
      split; apply String.eqb_neq; intros Heq; by rewrite Heq in Eimg. }
    revert Ht.
    generalize (endsWith (toLowerCase (name f)) ".heic") as h1.
    generalize (endsWith (toLowerCase (name f)) ".heif") as h2.
    generalize (String.eqb (type f) "image/heic") as t1.
    generalize (String.eqb (type f) "image/heif") as t2.
    generalize (startsWith (type f) "image/") as img.
    generalize (startsWith (type f) "audio/"
                || testExt AUDIO_EXTS (toLowerCase (name f))) as aud.
    generalize (startsWith (type f) "video/"
                || testExt VIDEO_EXTS (toLowerCase (name f))) as vid.
    generalize (String.eqb (type f) "application/pdf"
                || endsWith (toLowerCase (name f)) ".pdf") as pdf.
    intros pdf vid aud img t2 t1 h2 h1 Ht.
    destruct h1, h2, img; simpl; rewrite ?orb_true_r; try done.
    destruct (Ht eq_refl) as [-> ->].
    destruct aud, vid, pdf; simpl; done. }
  split; [exact Hagree |].
  intros Hnd p it Hp Hsel Hnone.
  destruct (convertAll_item items s p it Hnd Hp) as [sp ->].
  rewrite Hsel. f_equal.
  apply Hagree, dispatched_false in Hnone as (Hpdf & Hheic & Himg & Haud & Hvid).
  unfold convertOne, iteration. simpl. rewrite String.eqb_refl. simpl.
  unfold tryBlock. by rewrite Hpdf, Hheic, Himg, Haud, Hvid.
Qed.

(** X11. PDF documents in a run over a queue with pairwise distinct
    ids. The PDF test comes first in the loop, so it decides whatever the
    declared type and the target are. With the action "keep", the output
    of a selected PDF item is the file itself, byte for byte, typed
    [application/pdf], and the item is done; when the file cannot be read
    the item ends in error with the message of the exception. With the
    action "split pages" the file is not read at all: the item is done,
    and it keeps the output it had, if any. *)
Theorem convertAll_pdf (items : list QItem) (s : St) (p : nat) (it : QItem) :
  NoDup (id <$> items) → items !! p = Some it → selected it = true →
  isPDF (file it) = true →
  (action (pdf it) = PdfAction.none →
   ∀ buf, File_arrayBuffer (file it) = Normal buf →
     next (convertAll items s) !! p =
       Some (set_status ItemStatus.done
               (set_outBlob {| blob_data := buf; blob_type := "application/pdf" |}
                  it))) ∧
  (action (pdf it) = PdfAction.none →
   ∀ e, File_arrayBuffer (file it) = Throw e →
     next (convertAll items s) !! p =
       Some (set_error (messageOf e) (set_status ItemStatus.error it))) ∧
  (action (pdf it) = PdfAction.split →
   next (convertAll items s) !! p = Some (set_status ItemStatus.done it)).
Proof.
  intros Hnd Hp Hsel Hpdf.
  destruct (convertAll_item items s p it Hnd Hp) as [sp ->].
  rewrite Hsel.
  destruct (convertOne_spec it sp) as (res & s' & Hloc & _ & ->).
  pose proof (Hloc 0 [set_status ItemStatus.converting it]) as H0.
  unfold tryBlock, bind, liftC, ret in H0. rewrite Hpdf in H0.
  split; [| split].
  - intros Hact buf Hbuf. rewrite Hact, Hbuf in H0.
    destruct res as [f|e]; simplify_eq/=. by rewrite <- H0.
  - intros Hact e Hbuf. rewrite Hact, Hbuf in H0.
    destruct res as [f|e']; by simplify_eq/=.
  - intros Hact. rewrite Hact in H0.
    destruct res as [f|e]; simplify_eq/=. by rewrite <- H0.
Qed.

(** X12. What a conversion depends on. The loop body run for an item
    gives the same result for any item with the same file that agrees
    with it on the options of the branch the file takes: the action for a
    PDF; nothing at all for a HEIC file (the target and the quality are
    ignored); the target and the quality for another image; the target
    and the audio options for an audio file; the CRF alone for a video
    (the target is ignored). *)
Theorem conversion_depends_on (it it' : QItem) (idx : nat)
    (nxt : list QItem) (s : St) :
  file it' = file it →
  (isPDF (file it) = true → action (pdf it') = action (pdf it)) →
  (isPDF (file it) = false → isHeic (file it) = false →
   startsWith (type (file it)) "image/" = true →
   target it' = target it ∧ q (image it') = q (image it)) →
  (isPDF (file it) = false → isHeic (file it) = false →
   startsWith (type (file it)) "image/" = false → isAudio (file it) = true →
   target it' = target it ∧ audio it' = audio it) →
  (isPDF (file it) = false → isHeic (file it) = false →
   startsWith (type (file it)) "image/" = false → isAudio (file it) = false →
   isVideo (file it) = true → crf (video it') = crf (video it)) →
  tryBlock it' idx nxt s = tryBlock it idx nxt s.
Proof.
  intros Hf Hpdf Himg Haud Hvid. unfold tryBlock. rewrite Hf.
  destruct (isPDF (file it)); [by rewrite Hpdf |].
  destruct (isHeic (file it)); [done |].
  destruct (startsWith (type (file it)) "image/").
  { by destruct Himg as [-> ->]. }
  destruct (isAudio (file it)).
  { by destruct Haud as [-> ->]. }
  destruct (isVideo (file it)); [| done].
  by rewrite Hvid.
Qed.
End OneByOne.

Lemma convertAll_sequential_witness :
  next (convertAll Sim.batch Sim.start) = (convertSeq Sim.batch Sim.start).1 ∧
  engine (convertAll Sim.batch Sim.start) = (convertSeq Sim.batch Sim.start).2.
Proof.
  apply (convertAll_sequential Sim.batch Sim.start).
  apply (bool_decide_unpack _). vm_compute. exact I.
Defined.

Lemma unsupported_agree_witness :
  error <$> next (convertAll Sim.unsupported Sim.start) !! 0
    = Some (Some "Unsupported type") ∧
  status <$> next (convertAll Sim.unsupported Sim.start) !! 0
    = Some ItemStatus.error.
Proof.
  destruct (unsupported_agree Sim.unsupported Sim.start) as [_ Hrun].
  destruct (Sim.unsupported !! 0) as [it|] eqn:Hit; [| by vm_compute in Hit].
  rewrite (Hrun ltac:(apply (bool_decide_unpack _); vm_compute; exact I) 0 it Hit).
  - done.
  - vm_compute in Hit. by injection Hit as <-.
  - vm_compute in Hit. by injection Hit as <-.
Defined.

Lemma convertAll_pdf_witness :
  outBlob <$> next (convertAll Sim.batch Sim.start) !! 2
    = Some (Some {| blob_data := Sim.content Sim.docPdf;
                    blob_type := "application/pdf" |}).
Proof.
  destruct (Sim.batch !! 2) as [it|] eqn:Hit; [| by vm_compute in Hit].
  assert (Hfile : file it = Sim.docPdf ∧ selected it = true ∧
                  action (pdf it) = PdfAction.none).
  { vm_compute in Hit. by injection Hit as <-. }
  destruct Hfile as (Hf & Hsel & Hact).
  destruct (convertAll_pdf Sim.batch Sim.start 2 it) as (Hkeep & _).
  - apply (bool_decide_unpack _). vm_compute. exact I.
  - exact Hit.
  - exact Hsel.
  - by rewrite Hf.
  - rewrite (Hkeep Hact (Sim.content Sim.docPdf)); [done |]. by rewrite Hf.
Defined.

Lemma conversion_depends_on_witness :
  tryBlock (set_image {| q := 10 |} (set_target "image/png" Sim.heicItem))
    0 [Sim.heicItem] Sim.start
  = tryBlock Sim.heicItem 0 [Sim.heicItem] Sim.start.
Proof.
  apply (conversion_depends_on Sim.heicItem).
  - reflexivity.
  - intros Hpdf. vm_compute in Hpdf. discriminate Hpdf.
  - intros _ Hheic. vm_compute in Hheic. discriminate Hheic.
  - intros _ Hheic. vm_compute in Hheic. discriminate Hheic.
  - intros _ Hheic. vm_compute in Hheic. discriminate Hheic.
Defined.

(** ** Controls and edits *)

Section Controls.
Context `{Browser}.
Implicit Types (it x : QItem) (items l : list QItem) (s : St).

(** X13. The audio controls against the conversion. The VBR-Q slider is
    disabled exactly when the target is not MP3 or the mode is not VBR,
    and then its value has no effect on the conversion. The mode has no
    effect unless the target is MP3. The Kbps select is disabled for WAV
    and in VBR mode; for the targets MP3 and WAV its value then has no
    effect, but a conversion to AAC, OGG or Opus that returns has passed
    [-b:a] with the bit rate to the engine whatever the mode, so also
    when the select is disabled. *)
Theorem audio_controls (it : QItem) (s : St) :
  (vbrqDisabled (ItemSettings it) = true →
   ∀ v, convertAudio (file it) (target it) (set_vbrq v (audio it)) s =
        convertAudio (file it) (target it) (audio it) s) ∧
  (target it ≠ "audio/mpeg" →
   ∀ m, convertAudio (file it) (target it) (set_mode m (audio it)) s =
        convertAudio (file it) (target it) (audio it) s) ∧
  (kbpsDisabled (ItemSettings it) = true →
   target it = "audio/mpeg" ∨ target it = "audio/wav" →
   ∀ v, convertAudio (file it) (target it) (set_kbps v (audio it)) s =
        convertAudio (file it) (target it) (audio it) s) ∧
  (target it ∈ ["audio/aac"; "audio/ogg"; "audio/opus"] →
   ∀ b, (convertAudio (file it) (target it) (audio it) s).1 = Normal b →
     ∃ args,
       Cexec args ∈ calls (convertAudio (file it) (target it) (audio it) s).2 ∧
       "-b:a" ∈ args ∧ String_ (kbps (audio it)) +:+ "k" ∈ args).
Proof.
  split; [| split; [| split]].
  - unfold ItemSettings. cbn [vbrqDisabled]. intros Hdis v.
    unfold convertAudio, baseArgs.
    cbn [mode kbps vbrq rate ch set_vbrq].
    destruct (String.eqb (target it) "audio/mpeg"); [| done].
    by destruct (mode (audio it)).
  - intros Hne%String.eqb_neq m. unfold convertAudio, baseArgs.
    cbn [mode kbps vbrq rate ch set_mode]. by rewrite Hne.
  - unfold ItemSettings. cbn [kbpsDisabled]. intros Hdis Ht v.
    unfold convertAudio, baseArgs.
    cbn [mode kbps vbrq rate ch set_kbps].
    destruct Ht as [Ht|Ht]; rewrite Ht in *; simpl in Hdis |- *; [| done].
    by destruct (mode (audio it)).
  - intros Ht b Hb. rewrite convertAudio_split in Hb |- *.
    unfold bind in Hb |- *.
    destruct (prepareAudio (file it) s) as [[inName|e] s1]; [| done].
    destruct (encodeAudio_calls inName (target it) (audio it) s1)
      as (new & Hnew & [[_ Hexec] | (Hno & _)]).
    2:{ exfalso. apply Hno.
        repeat (apply elem_of_cons in Ht as [->|Ht]);
          [| | | by apply elem_of_nil in Ht];
          repeat first [apply list_elem_of_here | apply list_elem_of_further]. }
    eexists. split.
    { rewrite Hnew. apply elem_of_app. right.
      apply list_elem_of_In.
      apply (proj1 (proj1 (filter_In isExec _ new) ltac:(rewrite Hexec; by left))). }
    repeat (apply elem_of_cons in Ht as [->|Ht]);
      [| | | by apply elem_of_nil in Ht];
      (split; apply elem_of_app; right; simpl;
       repeat first [apply list_elem_of_here | apply list_elem_of_further]).
Qed.

Lemma applyEdit_updateById e i :
  editId e = Some i →
  ∃ f, (∀ l, applyEdit e l = updateById i f l) ∧
       (∀ x, id (f x) = id x ∧ file (f x) = file x ∧
             status (f x) = status x ∧ outBlob (f x) = outBlob x ∧
             error (f x) = error x).
Proof. destruct e; intros [= <-]; by eexists. Qed.

Lemma updateById_commute i j (f g : QItem → QItem) l :
  i ≠ j → (∀ x, id (f x) = id x) → (∀ x, id (g x) = id x) →
  updateById i f (updateById j g l) = updateById j g (updateById i f l).
Proof.
  intros Hne Hf Hg. unfold updateById. rewrite !map_map.
  apply map_ext. intros x.
  destruct (String.eqb_spec (id x) j) as [Hj|Hj];
    destruct (String.eqb_spec (id x) i) as [Hi|Hi]; try congruence.
  - rewrite Hg. destruct (String.eqb_spec (id x) i); [congruence |].
    by destruct (String.eqb_spec (id x) j).
  - rewrite Hf. destruct (String.eqb_spec (id x) j); [congruence |].
    by destruct (String.eqb_spec (id x) i).
  - destruct (String.eqb_spec (id x) i); [congruence |].
    by destruct (String.eqb_spec (id x) j).
Qed.

(** X14. An edit made through a control of one item is local to the
    items with that id: the other items stay as they are, and nothing
    changes when no item has the id. It never touches an id, a file, a
    status, an output or an error message. Edits addressed to different
    ids commute. *)
Theorem edit_locality (e : Edit) (i : string) (items : list QItem) :
  editId e = Some i →
  (∀ p it, items !! p = Some it → id it ≠ i →
     applyEdit e items !! p = Some it) ∧
  (i ∉ id <$> items → applyEdit e items = items) ∧
  Forall2 (fun a b => id b = id a ∧ file b = file a ∧ status b = status a ∧
                      outBlob b = outBlob a ∧ error b = error a)
    items (applyEdit e items) ∧
  (∀ e' j, editId e' = Some j → i ≠ j →
     applyEdit e (applyEdit e' items) = applyEdit e' (applyEdit e items)).
Proof.
  intros He.
  destruct (applyEdit_updateById e i He) as (f & Hf & Hkeep).
  rewrite Hf. split; [| split; [| split]].
  - intros p it Hp Hne. unfold updateById.
    change (map ?g items) with (g <$> items).
    rewrite list_lookup_fmap, Hp. simpl.
    by destruct (String.eqb_spec (id it) i).
  - intros Hnot. unfold updateById. rewrite <- (map_id items) at 2.
    apply map_ext_in. intros x Hx%list_elem_of_In.
    destruct (String.eqb_spec (id x) i) as [<-|]; [| done].
    exfalso. apply Hnot, list_elem_of_fmap. by exists x.
  - unfold updateById. change (map ?g items) with (g <$> items).
    apply Forall2_fmap_r, Forall_Forall2_diag, Forall_forall.
    intros x _. unfold compose. cbv beta.
    destruct (String.eqb (id x) i); [| done].
    by destruct (Hkeep x) as (? & ? & ? & ? & ?).
  - intros e' j He' Hne.
    destruct (applyEdit_updateById e' j He') as (g & Hg & Hkeep').
    rewrite !Hf, !Hg. apply updateById_commute; [done | |];
      intros x; [by destruct (Hkeep x) | by destruct (Hkeep' x)].
Qed.

Lemma filter_set_selected b l :
  List.filter selected (map (set_selected b) l) =
    if b then map (set_selected b) l else [].
Proof.
  induction l as [|x l IH]; simpl; [by destruct b |].
  rewrite IH. by destruct b.
Qed.

Lemma forallb_set_selected b l :
  l ≠ [] → forallb selected (map (set_selected b) l) = b.
Proof.
  induction l as [|x [|y l] IH]; intros Hne; [done | |].
  - simpl. by destruct b.
  - specialize (IH ltac:(done)). simpl in *. rewrite IH. by destruct b.
Qed.

(** X15. The selection buttons on a queue that is not empty. The button
    labelled "Select all" or "Unselect all" unselects every item when all
    are selected, and selects every item otherwise (so also when only
    some are selected); afterwards "Convert selected" is disabled exactly
    when all were selected before. The checkbox of the table header
    leaves the queue all checked or not according to the value it is
    given. *)
Theorem selection_buttons (items : list QItem) :
  items ≠ [] →
  (allChecked items = true →
   selectedCount (applyEdit SelectAllButton items) = 0) ∧
  (allChecked items = false →
   allChecked (applyEdit SelectAllButton items) = true ∧
   selectedCount (applyEdit SelectAllButton items) = length items) ∧
  convertDisabled (applyEdit SelectAllButton items) = allChecked items ∧
  (∀ v, allChecked (applyEdit (ToggleAll v) items) = v).
Proof.
  intros Hne.
  assert (Hlen : (0 <? length items)%nat = true).
  { apply Nat.ltb_lt. destruct items; [done | simpl; lia]. }
  assert (Hall : ∀ b, allChecked (map (set_selected b) items) = b).
  { intros b. unfold allChecked.
    by rewrite length_map, Hlen, forallb_set_selected. }
  assert (Hcount : ∀ b, selectedCount (map (set_selected b) items)
                        = if b then length items else 0).
  { intros b. unfold selectedCount. rewrite filter_set_selected.
    destruct b; [apply length_map | done]. }
  change (applyEdit SelectAllButton items)
    with (map (set_selected (negb (allChecked items))) items).
  split; [| split; [| split]].
  - intros ->. apply Hcount.
  - intros ->. split; [apply Hall | apply Hcount].
  - unfold convertDisabled. rewrite filter_set_selected.
    destruct (allChecked items); simpl; [done |].
    by rewrite length_map, Hlen.
  - intros v. apply Hall.
Qed.
End Controls.

Lemma edit_locality_witness :
  applyEdit (SlideQ "1700000000000-0-k1x9f3" 50) Sim.batch !! 1 = Sim.batch !! 1.
Proof.
  destruct (edit_locality (SlideQ "1700000000000-0-k1x9f3" 50)
              "1700000000000-0-k1x9f3" Sim.batch eq_refl) as (Hother & _).
  destruct (Sim.batch !! 1) as [it|] eqn:Hit; [| by vm_compute in Hit].
  apply Hother; [done |].
  vm_compute in Hit. injection Hit as <-. discriminate.
Defined.

Lemma selection_buttons_witness :
  allChecked Sim.mixed = false ∧
  allChecked (applyEdit SelectAllButton Sim.mixed) = true ∧
  selectedCount (applyEdit SelectAllButton Sim.mixed) = length Sim.mixed.
Proof.
  assert (Hsome : allChecked Sim.mixed = false) by (vm_compute; reflexivity).
  destruct (selection_buttons Sim.mixed) as (_ & Hpart & _).
  - intros Hnil. vm_compute in Hnil. discriminate Hnil.
  - split; [exact Hsome | exact (Hpart Hsome)].
Defined.

(** ** New items *)

Section Ids.
Implicit Types (d x y s : string) (c : ascii).

Lemma pretty_N_go_digits (n : N) : ∀ s,
  Forall (fun c => isDigit c = true) (String.list_ascii_of_string s) →
  Forall (fun c => isDigit c = true)
    (String.list_ascii_of_string (pretty_N_go n s)).
Proof.
  induction (N.lt_wf_0 n) as [n _ IH]; intros s Hs.
  destruct (decide (n = 0)%N) as [->|Hne]; [by rewrite pretty_N_go_0 |].
  rewrite pretty_N_go_step by lia.
  apply IH; [apply N.div_lt; lia |].
  cbn [String.list_ascii_of_string]. constructor; [| done].
  apply pretty_N_char_digit.
Qed.

Lemma pretty_N_digits (n : N) :
  Forall (fun c => isDigit c = true) (String.list_ascii_of_string (pretty n)).
Proof.
  unfold pretty, pretty_N. destruct (decide (n = 0)%N); [by repeat constructor |].
  by apply pretty_N_go_digits.
Qed.

(** [String(z)] is a digit string, after a minus sign for a negative
    integer. *)
Lemma String__shape (z : Z) :
  ∃ d c d', d = String c d' ∧ isDigit c = true ∧
            Forall (fun c => isDigit c = true) (String.list_ascii_of_string d) ∧
            (String_ z = d ∨ String_ z = String "-" d).
Proof.
  assert (Hn : ∀ n : N, ∃ d c d', d = String c d' ∧ isDigit c = true ∧
                 Forall (fun c => isDigit c = true)
                   (String.list_ascii_of_string d) ∧ pretty n = d).
  { intros n. destruct (pretty_N_head n) as (c & d' & Heq & Hc).
    exists (pretty n), c, d'. split; [done |]. split; [done |].
    split; [apply pretty_N_digits | done]. }
  unfold String_, pretty, pretty_Z. destruct z as [|p|p].
  - exists "0", "0"%char, EmptyString. repeat split; [by repeat constructor | by left].
  - destruct (Hn (Npos p)) as (d & c & d' & Hd & Hc & Hall & Heq).
    exists d, c, d'. repeat split; try done. by left.
  - destruct (Hn (Npos p)) as (d & c & d' & Hd & Hc & Hall & Heq).
    exists d, c, d'. repeat split; try done. right.
    unfold pretty, pretty_positive. by rewrite Heq.
Qed.

(** Two digit strings followed by a dash: the digit strings and the
    rests are the same. *)
Lemma digits_dash d : ∀ d' x y,
  Forall (fun c => isDigit c = true) (String.list_ascii_of_string d) →
  Forall (fun c => isDigit c = true) (String.list_ascii_of_string d') →
  d +:+ String "-" x = d' +:+ String "-" y → d = d' ∧ x = y.
Proof.
  induction d as [|c d IH]; intros [|c' d'] x y Hd Hd' Heq.
  - rewrite !append_nil_l in Heq. by injection Heq as ->.
  - rewrite append_nil_l, append_cons in Heq. injection Heq as <- _.
    cbn [String.list_ascii_of_string] in Hd'.
    by apply Forall_cons in Hd' as [? _].
  - rewrite append_nil_l, append_cons in Heq. injection Heq as -> _.
    cbn [String.list_ascii_of_string] in Hd.
    by apply Forall_cons in Hd as [? _].
  - rewrite !append_cons in Heq. injection Heq as -> Heq.
    cbn [String.list_ascii_of_string] in Hd, Hd'.
    apply Forall_cons in Hd as [_ Hd]. apply Forall_cons in Hd' as [_ Hd'].
    destruct (IH d' x y Hd Hd' Heq) as [-> ->]. done.
Qed.

Lemma String__dash (a b : Z) x y :
  String_ a +:+ String "-" x = String_ b +:+ String "-" y → a = b ∧ x = y.
Proof.
  destruct (String__shape a) as (d & c & d0 & Hd & Hc & Hall & Ha).
  destruct (String__shape b) as (d' & c' & d0' & Hd' & Hc' & Hall' & Hb).
  intros Heq.
  assert (Hgoal : String_ a = String_ b ∧ x = y).
  { destruct Ha as [Ha|Ha], Hb as [Hb|Hb]; rewrite Ha, Hb in Heq |- *.
    - by apply digits_dash.
    - rewrite Hd, !append_cons in Heq. injection Heq as -> _. done.
    - rewrite Hd', !append_cons in Heq. injection Heq as <- _. done.
    - rewrite !append_cons in Heq. injection Heq as Heq.
      by destruct (digits_dash d d' x y Hall Hall' Heq) as [-> ->]. }
  destruct Hgoal as [Hs ->]. split; [| done].
  by apply (inj pretty) in Hs.
Qed.

(** Ids made by [addFiles] with different indexes are different,
    whatever the clock and the random generator gave. *)
Lemma id_index_inj (a b : Z) (i j : nat) x y :
  String_ a +:+ "-" +:+ String_ (Z.of_nat i) +:+ "-" +:+ x =
  String_ b +:+ "-" +:+ String_ (Z.of_nat j) +:+ "-" +:+ y →
  i = j.
Proof.
  change ("-" +:+ ?t) with (String "-" t).
  intros [_ Heq]%String__dash.
  apply String__dash in Heq as [Heq _]. lia.
Qed.
End Ids.

Section NewItems.
Context `{Browser}.
Implicit Types (it : QItem) (s : St) (fs : list File).

Lemma newItem_fresh f idx s :
  ∃ it s' now r,
    newItem f idx s = (Normal it, s') ∧
    _ff s' = _ff s ∧ calls s' = calls s ∧
    file it = f ∧ freshItem it ∧
    target it = orElse (head (inferTargets (type f) (name f))) "image/webp" ∧
    id it = String_ now +:+ "-" +:+ String_ (Z.of_nat idx) +:+ "-" +:+ r.
Proof.
  unfold newItem, bind, liftW, ret.
  destruct (Date_now (world s)) as [now w1]. simpl.
  destruct (Math_random36 w1) as [r w2]. simpl.
  eexists _, _, now, (slice r 2 8). by repeat split.
Qed.

Lemma mapItems_fresh fs : ∀ idx s,
  ∃ its s',
    mapItems fs idx s = (Normal its, s') ∧
    _ff s' = _ff s ∧ calls s' = calls s ∧
    file <$> its = fs ∧ Forall freshItem its ∧
    Forall (fun it =>
              target it = orElse (head (inferTargets (type (file it))
                                          (name (file it)))) "image/webp") its ∧
    ∀ k it, its !! k = Some it →
      ∃ now r, id it = String_ now +:+ "-" +:+ String_ (Z.of_nat (idx + k))
                       +:+ "-" +:+ r.
Proof.
  induction fs as [|f fs IH]; intros idx s; simpl.
  - exists [], s. by repeat split.
  - destruct (newItem_fresh f idx s)
      as (it & s1 & now & r & Hnew & Hff1 & Hc1 & Hf & Hfresh & Ht & Hid).
    destruct (IH (S idx) s1) as (its & s2 & Hmap & Hff2 & Hc2 & Hfs & Hall & Hts & Hids).
    exists (it :: its), s2. unfold bind at 1. rewrite Hnew.
    unfold bind at 1. rewrite Hmap.
    split; [done |]. split; [congruence |]. split; [congruence |].
    split; [by rewrite fmap_cons, Hf, Hfs |].
    split; [by constructor |].
    split; [constructor; [by rewrite Hf | done] |].
    intros [|k] it' Hk; simpl in Hk.
    + injection Hk as <-. exists now, r. by rewrite Nat.add_0_r.
    + destruct (Hids k it' Hk) as (now' & r' & Hid').
      exists now', r'. rewrite Hid'. do 4 f_equal. lia.
Qed.

(** X16. [addFiles] never throws and never touches the engine. It keeps
    the items of the queue, in order, and appends one item for each file,
    in the order of the files: selected, pending, without output or error,
    with the default options (quality 90, CBR at 192 kbps, VBR quality 2,
    44100 Hz, two channels, CRF 33, PDF action "keep") and the first
    valid target of its file, or [image/webp]. The ids of the items of
    one call are pairwise distinct, whatever the clock and the random
    generator return. *)
Theorem addFiles_appends (files : list File) (prev : list QItem) (s : St) :
  ∃ mapped s',
    addFiles files prev s = (Normal (prev ++ mapped), s') ∧
    _ff s' = _ff s ∧ calls s' = calls s ∧
    file <$> mapped = files ∧
    Forall freshItem mapped ∧
    Forall (fun it =>
              target it = orElse (head (inferTargets (type (file it))
                                          (name (file it)))) "image/webp")
      mapped ∧
    NoDup (id <$> mapped).
Proof.
  destruct (mapItems_fresh files 0 s)
    as (its & s' & Hmap & Hff & Hc & Hfs & Hall & Hts & Hids).
  exists its, s'. unfold addFiles, bind. rewrite Hmap.
  split; [done |]. split; [done |]. split; [done |]. split; [done |].
  split; [done |]. split; [done |].
  apply NoDup_alt. intros i j x Hi Hj.
  rewrite list_lookup_fmap in Hi, Hj.
  destruct (its !! i) as [a|] eqn:Ea; [| done].
  destruct (its !! j) as [b|] eqn:Eb; [| done].
  simpl in Hi, Hj.
  destruct (Hids i a Ea) as (n1 & r1 & H1).
  destruct (Hids j b Eb) as (n2 & r2 & H2).
  assert (Heq : id a = id b) by congruence.
  rewrite H1, H2 in Heq. by apply id_index_inj in Heq.
Qed.
End NewItems.

(** ** Names, extensions and kinds *)

Section Names.
Implicit Types (nm e s : string).

Lemma replaceExt_stem nm : ∃ stem, ∀ e, replaceExt nm e = stem +:+ e.
Proof. unfold replaceExt. by eexists. Qed.

Lemma extOf_cases t :
  extOf t ∈ [".pdf"; ".webm"; ".wav"; ".opus"; ".ogg"; ".m4a"; ".mp3";
             ".webp"; ".png"; ".jpg"; ".bin"].
Proof.
  unfold extOf. cbv zeta.
  repeat first [apply list_elem_of_here
               | match goal with
                 | |- (if ?b then _ else _) ∈ _ :: _ =>
                     destruct b; [apply list_elem_of_here |];
                     apply list_elem_of_further
                 end].
Qed.

(** X17. Replacing the extension twice is replacing it once with the
    second extension, when the first extension is a dot followed by a
    part without a dot; the extensions the archive uses for the targets
    ([.bin] included) are of this kind. *)
Theorem replaceExt_twice (nm e1 e2 : string) :
  "."%char ∉ String.list_ascii_of_string e1 →
  replaceExt (replaceExt nm ("." +:+ e1)) e2 = replaceExt nm e2 ∧
  ∀ t1 t2,
    replaceExt (replaceExt nm (extOf t1)) (extOf t2) = replaceExt nm (extOf t2).
Proof.
  assert (Htwice : ∀ e, "."%char ∉ String.list_ascii_of_string e →
            ∀ e', replaceExt (replaceExt nm ("." +:+ e)) e' = replaceExt nm e').
  { intros e He e'. destruct (replaceExt_stem nm) as [stem Hstem].
    rewrite !Hstem. by apply replaceExt_last_dot. }
  intros He1. split; [by apply Htwice |].
  intros t1 t2.
  assert (Hdot : ∃ e, extOf t1 = "." +:+ e ∧
                      "."%char ∉ String.list_ascii_of_string e).
  { pose proof (extOf_cases t1) as Hc.
    repeat (apply elem_of_cons in Hc as [->|Hc];
            [eexists; split;
             [reflexivity | apply (bool_decide_unpack _); vm_compute; exact I] |]).
    by apply elem_of_nil in Hc. }
  destruct Hdot as (e & -> & He). by apply Htwice.
Qed.

Lemma toLower_toUpper s :
  isAscii s = true → toLowerCase (toUpperCase s) = toLowerCase s.
Proof.
  unfold isAscii. induction s as [|c s IH]; simpl; [done |].
  intros [_ Hs]%andb_prop. rewrite (IH Hs). f_equal.
  by destruct c as [[] [] [] [] [] [] [] []].
Qed.

(** X18. The classifier and the tests of the conversion loop look at
    the name of a file only through its lower-case form: two files with
    the same declared type whose names have the same lower-case form are
    classified alike. So a file whose name is made of ASCII characters is
    classified as the file with that name in upper case. *)
Theorem classifier_ignores_case (f f' : File) :
  type f' = type f → toLowerCase (name f') = toLowerCase (name f) →
  inferTargets (type f') (name f') = inferTargets (type f) (name f) ∧
  isHeic f' = isHeic f ∧ isAudio f' = isAudio f ∧ isVideo f' = isVideo f ∧
  isPDF f' = isPDF f ∧
  (isAscii (name f) = true →
   inferTargets (type f) (toUpperCase (name f)) =
     inferTargets (type f) (name f)).
Proof.
  intros Ht Hn.
  unfold inferTargets, isHeic, isAudio, isVideo, isPDF.
  rewrite Ht, Hn. repeat split. intros Hascii.
  by rewrite (toLower_toUpper _ Hascii).
Qed.
End Names.

Lemma replaceExt_twice_witness :
  replaceExt (replaceExt "holiday.heic" ".jpg") ".png" = "holiday.png".
Proof.
  destruct (replaceExt_twice "holiday.heic" "jpg" ".png") as [Htwice _].
  - apply (bool_decide_unpack _). vm_compute. exact I.
  - transitivity (replaceExt "holiday.heic" ".png");
      [exact Htwice | reflexivity].
Defined.

Lemma classifier_ignores_case_witness :
  inferTargets EmptyString "TALK.Mp3" = inferTargets EmptyString "talk.mp3" ∧
  isAudio (Sim.mkFile "TALK.Mp3" EmptyString) = isAudio (Sim.mkFile "talk.mp3" EmptyString) ∧
  inferTargets EmptyString (toUpperCase "talk.mp3") =
    inferTargets EmptyString "talk.mp3".
Proof.
  destruct (classifier_ignores_case (Sim.mkFile "talk.mp3" EmptyString)
              (Sim.mkFile "TALK.Mp3" EmptyString)) as (Hi & _ & Ha & _ & _ & Hup).
  - reflexivity.
  - reflexivity.
  - split; [exact Hi |]. split; [exact Ha |]. apply Hup. reflexivity.
Defined.

(** ** More on the archive and on progress *)

Section Archive2.
Context `{Browser}.
Implicit Types (it : QItem) (items : list QItem) (files : gmap string bytes).

Lemma targetOptions_known it : targetOptions it ⊆ ALL_TARGETS.
Proof.
  unfold targetOptions, ALL_TARGETS.
  destruct (inferTargets_cases (type (file it)) (name (file it)))
    as [-> | [-> | [-> | [-> | [-> | ->]]]]]; simpl; intros t Ht;
    repeat (apply elem_of_cons in Ht as [->|Ht];
            [repeat first [apply list_elem_of_here | apply list_elem_of_further] |]);
    by apply elem_of_nil in Ht.
Qed.

(** X19. The extension of an archive entry. Each of the ten targets has
    an extension of its own, and [.bin] is the extension of the targets
    outside the ten. In every queue the component can hold (ids pairwise
    distinct, targets picked among the options shown), the target of every
    item is one of the ten, so no entry is ever named [.bin]. *)
Theorem archive_extension (items : list QItem) :
  lifecycle items →
  (∀ it, it ∈ items →
     target it ∈ ALL_TARGETS ∧ extOf (target it) ≠ ".bin") ∧
  (∀ t, extOf t = ".bin" ↔ t ∉ ALL_TARGETS) ∧
  (∀ t1 t2, t1 ∈ ALL_TARGETS → t2 ∈ ALL_TARGETS →
     extOf t1 = extOf t2 → t1 = t2).
Proof.
  intros [_ Hall]%lifecycle_invariant.
  assert (Hbin : ∀ t, extOf t = ".bin" ↔ t ∉ ALL_TARGETS).
  { intros t. unfold extOf, ALL_TARGETS. cbv zeta. simpl.
    rewrite !not_elem_of_cons.
    destruct (String.eqb_spec t "application/pdf") as [->|?];
      [split; [done | intros H1; tauto] |].
    destruct (String.eqb_spec t "video/webm") as [->|?];
      [split; [done | intros H1; tauto] |].
    destruct (String.eqb_spec t "audio/wav") as [->|?];
      [split; [done | intros H1; tauto] |].
    destruct (String.eqb_spec t "audio/opus") as [->|?];
      [split; [done | intros H1; tauto] |].
    destruct (String.eqb_spec t "audio/ogg") as [->|?];
      [split; [done | intros H1; tauto] |].
    destruct (String.eqb_spec t "audio/aac") as [->|?];
      [split; [done | intros H1; tauto] |].
    destruct (String.eqb_spec t "audio/mpeg") as [->|?];
      [split; [done | intros H1; tauto] |].
    destruct (String.eqb_spec t "image/webp") as [->|?];
      [split; [done | intros H1; tauto] |].
    destruct (String.eqb_spec t "image/png") as [->|?];
      [split; [done | intros H1; tauto] |].
    destruct (String.eqb_spec t "image/jpeg") as [->|?];
      [split; [done | intros H1; tauto] |].
    split; [intros _ | done].
    repeat split; try done. apply not_elem_of_nil. }
  split; [| split; [exact Hbin |]].
  - intros it Hin. rewrite Forall_forall in Hall.
    pose proof (targetOptions_known it _ (Hall it Hin)) as Hknown.
    split; [done |]. intros Hb%Hbin. done.
  - intros t1 t2 H1 H2.
    unfold ALL_TARGETS in H1, H2. simpl in H1, H2.
    repeat (apply elem_of_cons in H1 as [->|H1]);
      [.. | by apply elem_of_nil in H1];
      (repeat (apply elem_of_cons in H2 as [->|H2]);
       [.. | by apply elem_of_nil in H2]);
      by vm_compute.
Qed.

Lemma cfold_zipItem_filter items : ∀ files,
  cfold zipItem files (List.filter selected items) = cfold zipItem files items.
Proof.
  induction items as [|it items IH]; intros files; [done |]. simpl.
  destruct (selected it) eqn:Hsel; simpl.
  - destruct (zipItem files it); simpl; [apply IH | done].
  - unfold zipItem at 2. rewrite Hsel. simpl. apply IH.
Qed.

(** X20. [downloadZip] looks only at the selected items: the queue and
    the queue without its unselected items give the same archive, the
    same early return, or the same exception. *)
Theorem downloadZip_selected_only (items : list QItem) :
  downloadZip (List.filter selected items) = downloadZip items.
Proof. unfold downloadZip. by rewrite cfold_zipItem_filter. Qed.

Lemma cfold_zipItem_throw items it :
  it ∈ items → (∀ files, ∃ e, zipItem files it = Throw e) →
  ∀ files, ∃ e, cfold zipItem files items = Throw e.
Proof.
  intros Hin Hthrow. induction items as [|x items IH]; intros files.
  - by apply elem_of_nil in Hin.
  - simpl. apply elem_of_cons in Hin as [->|Hin].
    + destruct (Hthrow files) as [e ->]. by exists e.
    + destruct (zipItem files x) as [files'|e]; simpl; [| by exists e].
      by apply IH.
Qed.

(** X21. [downloadZip] has no failure isolation. When the file of one
    selected PDF item with the action "split pages" cannot be read, or
    cannot be parsed, or one of its pages cannot be saved, the whole
    assembly throws and no archive is made, whatever outputs the other
    items hold. *)
Theorem downloadZip_aborts (items : list QItem) (it : QItem) :
  it ∈ items → selected it = true → isPDF (file it) = true →
  action (pdf it) = PdfAction.split →
  ((∃ e, File_arrayBuffer (file it) = Throw e) ∨
   (∃ buf e, File_arrayBuffer (file it) = Normal buf ∧
             PDFDocument_load buf = Throw e) ∨
   (∃ buf src i e, File_arrayBuffer (file it) = Normal buf ∧
                   PDFDocument_load buf = Normal src ∧
                   i < getPageCount src ∧ savePage src i = Throw e)) →
  ∃ e, downloadZip items = Throw e.
Proof.
  intros Hin Hsel Hpdf Hact Hfail.
  assert (Hthrow : ∀ files, ∃ e, zipItem files it = Throw e).
  { intros files. unfold zipItem. rewrite Hsel, Hpdf, Hact. simpl.
    destruct Hfail as [[e ->] | [(buf & e & -> & Hload)
                                | (buf & src & i & e & -> & Hload & Hi & Hsave)]];
      simpl; [by exists e | rewrite Hload; by exists e |].
    rewrite Hload. simpl.
    match goal with
    | |- ∃ e, cfold ?g ?a _ = _ => generalize a; set (step := g)
    end.
    assert (Hseq : ∀ n a0, a0 ≤ i < a0 + n →
              ∀ acc, ∃ e', cfold step acc (seq a0 n) = Throw e').
    { induction n as [|n IH]; intros a0 Hr acc; [lia |]. simpl.
      destruct (decide (a0 = i)) as [->|Hne].
      - unfold step at 1. rewrite Hsave. by exists e.
      - unfold step at 1. destruct (savePage src a0) as [b|e']; simpl;
          [| by exists e'].
        apply IH. lia. }
    intros acc. apply Hseq. lia. }
  destruct (cfold_zipItem_throw items it Hin Hthrow ∅) as [e He].
  exists e. unfold downloadZip. by rewrite He.
Qed.

End Archive2.

Section Progress.
Context `{NumberLaws}.

(** X23. Under the laws of numbers, every percentage a run publishes
    lies between 0 and 100. *)
Theorem progress_in_range (items : list QItem) (s : St) :
  Forall (fun v => (0 ≤ v ≤ 100)%Z)
    (progressLog (published (convertAll items s))).
Proof.
  rewrite convertAll_unfold.
  destruct (loop_progress (length (workOf items)) (workOf items)
              (initial items s)) as (_ & _ & _ & ->);
    [done | apply workOf_lt |].
  simpl. constructor; [lia |].
  apply Forall_fmap, Forall_forall. intros k [Hk1 Hk2]%elem_of_seq.
  simpl in Hk1, Hk2. set (n := length (workOf items)) in *.
  assert (Hn : 0 < n) by lia.
  pose proof (percent_zero n Hn) as Hzero.
  pose proof (percent_full n Hn) as H100.
  pose proof (percent_mono 0 k n Hn ltac:(lia)) as Hlo.
  pose proof (percent_mono k n n Hn ltac:(lia)) as Hhi.
  simpl. lia.
Qed.
End Progress.

Lemma Sim_media_lifecycle : lifecycle (H := Sim.browser) Sim.media.
Proof.
  set (files := [Sim.mkFile "clip.mov" "video/quicktime";
                 Sim.mkFile "IMG_7.HEIC" EmptyString]).
  destruct (addFiles_spec files [] Sim.start) as (mapped & s' & Heq & _).
  apply lc_convertAll.
  apply (lc_addFiles [] files Sim.start (Sim.enqueue files) s').
  - apply lc_empty.
  - unfold Sim.enqueue. by rewrite Heq.
  - apply (bool_decide_unpack _). vm_compute. exact I.
Qed.

Lemma archive_extension_witness :
  Forall (fun it => target it ∈ ALL_TARGETS ∧ extOf (target it) ≠ ".bin") Sim.media.
Proof.
  destruct (archive_extension Sim.media Sim_media_lifecycle) as [Hall _].
  apply Forall_forall. exact Hall.
Defined.

Lemma downloadZip_aborts_witness :
  ∃ e, downloadZip (H := Sim.browser) (Sim.twoImages ++ [Sim.badSplit]) = Throw e.
Proof.
  apply (downloadZip_aborts (Sim.twoImages ++ [Sim.badSplit]) Sim.badSplit).
  - apply elem_of_app. right. apply list_elem_of_here.
  - reflexivity.
  - reflexivity.
  - reflexivity.
  - left. by exists (Error "read failed").
Defined.


Lemma progress_in_range_witness :
  Forall (fun v => (0 ≤ v ≤ 100)%Z)
    (progressLog (published (convertAll Sim.batch Sim.start))).
Proof. exact (progress_in_range (H0 := Sim_NumberLaws) Sim.batch Sim.start). Defined.

(** ** Runs over any queue *)

Section AnyIds.
Context `{Browser}.
Implicit Types (r : Run) (it x : QItem) (items l : list QItem) (p q : nat)
               (s : St).

Lemma sameInput_refl x : sameInput x x.
Proof. by repeat split. Qed.

Lemma sameInput_trans x y z : sameInput x y → sameInput y z → sameInput x z.
Proof.
  intros (? & ? & ? & ? & ? & ? & ?) (? & ? & ? & ? & ? & ? & ?).
  repeat split; congruence.
Qed.

(** One iteration, whatever the ids: one position of the store is
    altered, by a function that keeps what [sameInput] compares and leaves
    the status done or error. *)
Lemma iteration_alter len r p :
  iteration len r p = r ∨ next (iteration len r p) = next r ∨
  ∃ idx (F : QItem → QItem),
    next (iteration len r p) = alter F idx (next r) ∧
    ∀ x, sameInput x (F x) ∧
         (status (F x) = ItemStatus.done ∨ status (F x) = ItemStatus.error).
Proof.
  unfold iteration.
  destruct (uncaught r); [by left |].
  destruct (next r !! p) as [it|]; [| by left].
  destruct (_ <? 0)%Z; [right; by left |].
  destruct (tryBlock_local it (engine r)) as (res & s' & Hloc & Hres).
  rewrite Hloc. right. right. destruct res as [f|e]; simpl.
  - eexists _, _. rewrite list_alter_alter_eq. split; [done |].
    intros x. unfold compose.
    destruct (Hres f (set_status ItemStatus.converting x) eq_refl)
      as (Hs & Hst & _).
    split; [| by left].
    eapply sameInput_trans; [| exact Hs]. by repeat split.
  - eexists _, _. rewrite !list_alter_alter_eq. split; [done |].
    intros x. unfold compose. split; [by repeat split | by right].
Qed.

(** X24. Whatever the ids of the queue, pairwise distinct or not, a run
    of [convertAll] neither adds, removes nor reorders items, and it
    changes no id, selection, file or option; and when no item was shown
    as converting before the run, none is after it. *)
Theorem run_keeps_inputs (items : list QItem) (s : St) :
  Forall2 sameInput items (next (convertAll items s)) ∧
  length (next (convertAll items s)) = length items ∧
  (Forall notConverting items →
   Forall notConverting (next (convertAll items s))).
Proof.
  rewrite convertAll_unfold.
  assert (Hloop : ∀ ps r,
            Forall2 sameInput items (next r) →
            Forall2 sameInput items
              (next (foldl (iteration (length (workOf items))) r ps)) ∧
            (Forall notConverting (next r) →
             Forall notConverting
               (next (foldl (iteration (length (workOf items))) r ps)))).
  { induction ps as [|p ps IH]; intros r Hr; [done |]. simpl.
    destruct (iteration_alter (length (workOf items)) r p)
      as [-> | [Hsame | (idx & F & Hn & HF)]].
    - by apply IH.
    - destruct (IH (iteration (length (workOf items)) r p)) as [H1 H2].
      { by rewrite Hsame. }
      split; [done |]. intros Hnc. apply H2. by rewrite Hsame.
    - destruct (IH (iteration (length (workOf items)) r p)) as [H1 H2].
      { rewrite Hn. apply Forall2_alter_r; [done |].
        intros x y _ _ Hxy. eapply sameInput_trans; [exact Hxy |].
        by destruct (HF y). }
      split; [done |]. intros Hnc. apply H2. rewrite Hn.
      apply Forall_alter; [done |]. intros x _ _.
      unfold notConverting. destruct (HF x) as [_ [-> | ->]]; done. }
  destruct (Hloop (workOf items) (initial items s)) as [Hin Hnc].
  { simpl. apply Forall_Forall2_diag, Forall_forall.
    intros x _. apply sameInput_refl. }
  split; [done |]. split; [| done].
  symmetry. by eapply Forall2_length.
Qed.

Lemma findIndex_lookup {A} (P : A → bool) (k : list A) (q : nat) :
  findIndex P k = Z.of_nat q → ∃ a, k !! q = Some a ∧ P a = true.
Proof.
  revert q. induction k as [|b k IH]; intros q; simpl; [lia |].
  destruct (P b) eqn:Eb.
  - intros Hq. assert (q = 0) as -> by lia. by exists b.
  - destruct (findIndex P k <? 0)%Z eqn:E; [lia |].
    apply Z.ltb_ge in E. intros Hq.
    destruct q as [|q]; [lia |].
    destruct (IH q) as (a & Ha & HP); [lia |].
    by exists a.
Qed.

(** X25. Items that share an id are aliased by the loop, which looks the
    position to write to up by id. When the loop reaches the object at
    position [p] and an earlier position [q] holds an item with the same
    id, the conversion is run for the file and the options of the object
    at [p], and everything is written to the item at [q], which ends done
    or in error; the object at [p] stays as it was and is never shown as
    converting. *)
Theorem duplicate_id_aliasing (len : nat) (r : Run) (p q : nat) (it : QItem) :
  uncaught r = None → next r !! p = Some it →
  findIndex (fun n => String.eqb (id n) (id it)) (next r) = Z.of_nat q →
  q ≠ p →
  q < p ∧
  next (iteration len r p) !! p = Some it ∧
  (∀ l, setItems l ∈ published (iteration len r p) →
        setItems l ∈ published r ∨ l !! p = Some it) ∧
  engine (iteration len r p) = (tryBlock it q [] (engine r)).2 ∧
  ∃ x x', next r !! q = Some x ∧ id x = id it ∧
          next (iteration len r p) !! q = Some x' ∧ sameInput x x' ∧
          (status x' = ItemStatus.done ∨ status x' = ItemStatus.error).
Proof.
  intros Hu Hp Hq Hne.
  pose proof (findIndex_found (fun n => String.eqb (id n) (id it)) _ _ _ Hp
                (String.eqb_refl _)) as [_ Hle].
  assert (Hlt : q < p) by lia. split; [done |].
  destruct (findIndex_lookup _ _ _ Hq) as (x & Hx & Hid%String.eqb_eq).
  destruct (tryBlock_local it (engine r)) as (res & s' & Hloc & Hres).
  unfold iteration. rewrite Hu, Hp, Hq.
  destruct (_ <? 0)%Z eqn:E; [apply Z.ltb_lt in E; lia |].
  rewrite Nat2Z.id, !Hloc.
  assert (Hother : ∀ (g : QItem → QItem), alter g q (next r) !! p = Some it).
  { intros g. by rewrite list_lookup_alter_ne. }
  destruct res as [f|e]; simpl.
  - rewrite list_alter_alter_eq. split; [apply Hother |].
    split.
    { intros l Hl. rewrite !elem_of_app, !elem_of_cons in Hl.
      destruct Hl as [Hl | [[= ->] | [[=] | [[= ->] | Hl]]]];
        [by left | right; apply Hother | right; apply Hother
        | by apply elem_of_nil in Hl]. }
    split; [done |].
    exists x, (f (set_status ItemStatus.converting x)).
    split; [done |]. split; [done |].
    split; [by rewrite list_lookup_alter_eq, Hx |].
    destruct (Hres f (set_status ItemStatus.converting x) eq_refl)
      as (Hs & Hst & _).
    split; [| by left].
    eapply sameInput_trans; [| exact Hs]. by repeat split.
  - rewrite !list_alter_alter_eq. split; [apply Hother |].
    split.
    { intros l Hl. rewrite !elem_of_app, !elem_of_cons in Hl.
      destruct Hl as [Hl | [[= ->] | [[=] | [[= ->] | Hl]]]];
        [by left | right; apply Hother | right; apply Hother
        | by apply elem_of_nil in Hl]. }
    split; [done |].
    eexists x, _. split; [done |]. split; [done |].
    split; [by rewrite list_lookup_alter_eq, Hx |].
    unfold compose. split; [by repeat split | by right].
Qed.
End AnyIds.

Lemma duplicate_id_aliasing_witness :
  next (convertAll Sim.twins Sim.start) !! 1 = Some Sim.twinB ∧
  ∃ x', next (convertAll Sim.twins Sim.start) !! 0 = Some x' ∧
        file x' = file Sim.twinA ∧
        (status x' = ItemStatus.done ∨ status x' = ItemStatus.error).
Proof.
  change (convertAll Sim.twins Sim.start)
    with (iteration 1 (initial Sim.twins Sim.start) 1).
  destruct (duplicate_id_aliasing 1 (initial Sim.twins Sim.start) 1 0 Sim.twinB)
    as (_ & Hp & _ & _ & x & x' & Hx & _ & Hx' & Hs & Hst).
  - reflexivity.
  - reflexivity.
  - reflexivity.
  - lia.
  - split; [exact Hp |]. exists x'. split; [exact Hx' |].
    split; [| exact Hst].
    simpl in Hx. injection Hx as <-. by destruct Hs as (_ & _ & Hf & _).
Defined.
